(** * The Wishart distribution of [torch/distributions/wishart.py]

    A shallow embedding of the module and the properties its specification
    states about it.

    - Scalars are real numbers: the development is over exact arithmetic.
    - A tensor is a shape together with an indexing function; broadcasting,
      [expand], batched matrix products and boolean-mask assignment are
      written out on indices.
    - What [torch] provides and this module only calls (special functions,
      factorizations, constraint checks, the random source) is an interface,
      [Numerics] and [RandomSource].
    - Calls that touch the interpreter state (the generator, the warning
      registry, the class attribute [Wishart.arg_constraints]) live in a
      state-and-exception monad over [world]. *)

From Stdlib Require Import Reals Lra Lia List ZArith.
From stdpp Require Import base decidable option list gmap strings.

#[global] Instance Rle_decision (a b : R) : Decision (a <= b)%R := Rle_dec a b.
#[global] Instance Rlt_decision (a b : R) : Decision (a < b)%R := Rlt_dec a b.
#[global] Instance Req_decision : EqDecision R := Req_dec_T.

(** ** Python exceptions *)

Inductive exn :=
| AssertionError
| ValueError
| NameError
| RuntimeError
| LinAlgError
| StopIteration.

Inductive result (A : Type) :=
| Ok (a : A)
| Raise (e : exn).
Arguments Ok {A} a.
Arguments Raise {A} e.

#[global] Instance result_ret : MRet result := @Ok.
#[global] Instance result_bind : MBind result := fun A B k m =>
  match m with
  | Ok a => k a
  | Raise e => Raise e
  end.

(** The specification's [InvalidArgument] covers both Python exceptions the
    constructor raises on bad arguments: the [assert] on the number of
    parameterizations and the two [ValueError]s. *)
Definition InvalidArgument (e : exn) : Prop :=
  e = AssertionError \/ e = ValueError.

(** ** Dense matrices over the reals *)

Module Linalg.
#[local] Open Scope R_scope.

Definition matrix := nat -> nat -> R.

Fixpoint rsum (n : nat) (f : nat -> R) : R :=
  match n with
  | O => 0
  | S k => rsum k f + f k
  end.

Definition mmul (n : nat) (A B : matrix) : matrix :=
  fun i j => rsum n (fun k => A i k * B k j).

Definition transpose (A : matrix) : matrix := fun i j => A j i.

Definition eye : matrix := fun i j => if Nat.eqb i j then 1 else 0.

Definition trace (n : nat) (A : matrix) : R := rsum n (fun i => A i i).

Definition meq (n : nat) (A B : matrix) : Prop :=
  forall i j, (i < n)%nat -> (j < n)%nat -> A i j = B i j.

Definition lower_triangular (n : nat) (T : matrix) : Prop :=
  forall i j, (i < j < n)%nat -> T i j = 0.

Definition upper_triangular (n : nat) (T : matrix) : Prop :=
  forall i j, (j < i < n)%nat -> T i j = 0.

Definition nonzero_diag (n : nat) (T : matrix) : Prop :=
  forall i, (i < n)%nat -> T i i <> 0.

Definition inverse_of (n : nat) (A Ainv : matrix) : Prop :=
  meq n (mmul n A Ainv) eye /\ meq n (mmul n Ainv A) eye.

(** Modelled from the spec: [torch.cholesky_solve] and the triangular solve
    behind it are not under src/. Section 4.2 describes the solve of
    [L * L^T * X = B] as two triangular solves: forward substitution with
    [L], then back substitution with [L^T]. One elimination step computes
    row [r] of the solution from the rows already known; the rows not yet
    computed are zero, so the sum may range over all of them. *)
Definition solve_step (n : nat) (T B : matrix) (X : matrix) (r : nat) : matrix :=
  fun i j =>
    if Nat.eqb i r
    then (B r j - rsum n (fun m => T r m * X m j)) / T r r
    else X i j.

Definition solve_rows (n : nat) (T B : matrix) (order : list nat) : matrix :=
  fold_left (solve_step n T B) order (fun _ _ => 0).

Definition solve_triangular (n : nat) (T B : matrix) (upper : bool) : matrix :=
  solve_rows n T B (if upper then rev (seq 0 n) else seq 0 n).

Definition cholesky_solve (n : nat) (B L : matrix) : matrix :=
  solve_triangular n (transpose L) (solve_triangular n L B false) true.

(** [elim_order n T done rest]: the rows in [rest] can be eliminated one
    after the other once the rows in [done] are known. *)
Fixpoint elim_order (n : nat) (T : matrix) (done rest : list nat) : Prop :=
  match rest with
  | [] => True
  | r :: rest' =>
      (r < n)%nat /\ T r r <> 0 /\ ~ In r done /\
      (forall m, (m < n)%nat -> ~ In m done -> m <> r -> T r m = 0) /\
      elim_order n T (r :: done) rest'
  end.

(** The invariant of the elimination: the equations of the rows in [done]
    hold, the other rows of [X] are still zero, and no row in [done] depends
    on a row outside of it. *)
Definition solved (n : nat) (T B : matrix) (done : list nat) (X : matrix) : Prop :=
  (forall r j, In r done -> rsum n (fun m => T r m * X m j) = B r j) /\
  (forall i j, ~ In i done -> X i j = 0) /\
  (forall r m, In r done -> (m < n)%nat -> ~ In m done -> T r m = 0).

(** Modelled from the spec: [torch.linalg.cholesky] is not under src/.
    Section 4.4 tests positive-definiteness by attempting a Cholesky
    factorization. This is the row-by-row (Cholesky-Banachiewicz)
    factorization; it fails at the first pivot that is not positive. *)
Definition cholesky_entry (A L : matrix) (i j : nat) : option R :=
  let s := A i j - rsum j (fun k => L i k * L j k) in
  if Nat.eqb i j
  then (if bool_decide (0 < s) then Some (sqrt s) else None)
  else Some (s / L j j).

Definition cholesky_step (A : matrix) (acc : option matrix) (ij : nat * nat)
  : option matrix :=
  match acc with
  | None => None
  | Some L =>
      match cholesky_entry A L (fst ij) (snd ij) with
      | None => None
      | Some v =>
          Some (fun a b =>
                  if Nat.eqb a (fst ij) && Nat.eqb b (snd ij) then v else L a b)
      end
  end.

Definition lower_positions (n : nat) : list (nat * nat) :=
  flat_map (fun i => map (pair i) (seq 0 (S i))) (seq 0 n).

Definition cholesky_factor (n : nat) (A : matrix) : option matrix :=
  fold_left (cholesky_step A) (lower_positions n) (Some (fun _ _ => 0)).

Definition symmetric_b (n : nat) (A : matrix) : bool :=
  forallb (fun i => forallb (fun j => bool_decide (A i j = A j i)) (seq 0 n))
          (seq 0 n).

End Linalg.
Import Linalg.

(** ** Tensors: shapes, indices, broadcasting *)

Module Torch.

Record tensor (A : Type) := Tensor {
  shape : list nat;
  data : list nat -> A
}.
Arguments Tensor {A} shape data.
Arguments shape {A} t.
Arguments data {A} t idx.

Definition dim {A} (t : tensor A) : nat := length (shape t).

(** All indices of a shape, in row-major order. *)
Fixpoint indices (s : list nat) : list (list nat) :=
  match s with
  | [] => [[]]
  | n :: s' => flat_map (fun i => map (cons i) (indices s')) (seq 0 n)
  end.

Definition numel (s : list nat) : nat := fold_right Nat.mul 1 s.

(** Row-major offset of an index. *)
Fixpoint flat_index (s idx : list nat) : nat :=
  match s, idx with
  | _ :: s', i :: idx' => i * numel s' + flat_index s' idx'
  | _, _ => 0
  end.

(** [t.shape[:-2]], [t.shape[-2]] and [t.shape[-1]], on shapes and on
    indices alike. *)
Definition batch_of (s : list nat) : list nat := take (length s - 2) s.
Definition row_of (s : list nat) : nat := nth (length s - 2) s 0.
Definition col_of (s : list nat) : nat := nth (length s - 1) s 0.

(** [torch.broadcast_shapes]: dimensions are aligned from the right; two
    dimensions are compatible when they are equal or one of them is 1. *)
Definition broadcast_dim (a b : nat) : option nat :=
  if Nat.eqb a b then Some a
  else if Nat.eqb a 1 then Some b
  else if Nat.eqb b 1 then Some a
  else None.

Fixpoint broadcast_rev (r1 r2 : list nat) : option (list nat) :=
  match r1, r2 with
  | [], r => Some r
  | r, [] => Some r
  | a :: r1', b :: r2' =>
      match broadcast_dim a b, broadcast_rev r1' r2' with
      | Some d, Some r => Some (d :: r)
      | _, _ => None
      end
  end.

Definition broadcast_shapes (s1 s2 : list nat) : option (list nat) :=
  match broadcast_rev (rev s1) (rev s2) with
  | Some r => Some (rev r)
  | None => None
  end.

(** The index at which a tensor of shape [s] is read when it is broadcast
    and the result is read at [idx]: leading positions of [idx] are dropped
    and dimensions of size 1 are read at 0. *)
Definition bdim (n i : nat) : nat := if Nat.eqb n 1 then 0 else i.

Definition bindex (s idx : list nat) : list nat :=
  rev (zip_with bdim (rev s) (rev idx)).

(** [expandable s t]: a tensor of shape [s] can be expanded to shape [t]. *)
Fixpoint expandable_rev (r1 r2 : list nat) : Prop :=
  match r1, r2 with
  | [], _ => True
  | _ :: _, [] => False
  | a :: r1', b :: r2' => (a = b \/ a = 1) /\ expandable_rev r1' r2'
  end.

Definition expandable (s t : list nat) : Prop := expandable_rev (rev s) (rev t).

(** [idx] is an index of a tensor of shape [s]. *)
Definition valid_index (s idx : list nat) : Prop := Forall2 lt idx s.

(** [t.expand(s)]. The sizes passed as [-1] are resolved by the caller. *)
Definition expand {A} (t : tensor A) (s : list nat) : tensor A :=
  Tensor s (fun idx => data t (bindex (shape t) idx)).

Definition tmap {A B} (f : A -> B) (t : tensor A) : tensor B :=
  Tensor (shape t) (fun idx => f (data t idx)).

(** Elementwise binary operation with broadcasting. *)
Definition tzip {A B C} (f : A -> B -> C) (a : tensor A) (b : tensor B)
  : result (tensor C) :=
  match broadcast_shapes (shape a) (shape b) with
  | Some s =>
      Ok (Tensor s (fun idx =>
                      f (data a (bindex (shape a) idx))
                        (data b (bindex (shape b) idx))))
  | None => Raise RuntimeError
  end.

(** [torch.where(c, a, b)]. *)
Definition twhere {A} (c : tensor bool) (a b : tensor A) : result (tensor A) :=
  match broadcast_shapes (shape a) (shape b) with
  | Some sab =>
      match broadcast_shapes (shape c) sab with
      | Some s =>
          Ok (Tensor s (fun idx =>
                          if data c (bindex (shape c) idx)
                          then data a (bindex (shape a) idx)
                          else data b (bindex (shape b) idx)))
      | None => Raise RuntimeError
      end
  | None => Raise RuntimeError
  end.

(** [t.any()] and [t.all()]. *)
Definition tany (t : tensor bool) : bool := existsb (data t) (indices (shape t)).
Definition tall (t : tensor bool) : bool := forallb (data t) (indices (shape t)).

(** [t.amax(dims)] on a boolean tensor. [dims] may be negative; the
    dimensions are reduced from the last to the first so that the positions
    still to be reduced keep their meaning. *)
Definition normalize_dim (rank : nat) (d : Z) : nat :=
  Z.to_nat (if (d <? 0)%Z then Z.of_nat rank + d else d)%Z.

Definition amax_at (pos : nat) (t : tensor bool) : tensor bool :=
  Tensor (take pos (shape t) ++ drop (S pos) (shape t))
         (fun idx =>
            existsb (fun i => data t (take pos idx ++ i :: drop pos idx))
                    (seq 0 (nth pos (shape t) 0))).

Definition amax (t : tensor bool) (dims : list Z) : tensor bool :=
  let positions := map (normalize_dim (dim t)) dims in
  fold_left (fun acc pos =>
               if bool_decide (pos ∈ positions) then amax_at pos acc else acc)
            (rev (seq 0 (dim t))) t.

(** Boolean-mask indexing. [mask_count m] is the length of [m[m]];
    [mask_rank m s] is the position, within [m[m]], of the entry of
    [m] at [s]. *)
Definition mask_count (m : tensor bool) : nat :=
  length (List.filter (data m) (indices (shape m))).

Definition mask_rank (m : tensor bool) (s : list nat) : nat :=
  length (List.filter (data m)
                      (take (flat_index (shape m) s) (indices (shape m)))).

(** [t[m] = v]: the entries of [t] whose leading index is selected by [m]
    are replaced, in row-major order, by the rows of [v]. *)
Definition masked_assign {A} (t : tensor A) (m : tensor bool) (v : tensor A)
  : tensor A :=
  Tensor (shape t)
         (fun idx =>
            let s := take (dim m) idx in
            if data m s
            then data v (mask_rank m s :: drop (dim m) idx)
            else data t idx).

End Torch.
Import Torch.

(** ** What torch provides *)

(** Functions of [torch] that the module calls and whose code is not part of
    it. Special functions act on one scalar, factorizations and constraint
    checks on one [n x n] matrix; the tensor versions below apply them
    batch element by batch element. *)
Class Numerics := {
  (** [torch.digamma] *)
  digamma : R -> R;
  (** [torch.mvlgamma(x, p)] *)
  mvlgamma : R -> nat -> R;
  (** [torch.linalg.slogdet(A).logabsdet] *)
  logabsdet : nat -> matrix -> R;
  (** [torch.linalg.cholesky]; [None] when the factorization fails *)
  linalg_cholesky : nat -> matrix -> option matrix;
  (** [multivariate_normal._precision_to_scale_tril] *)
  _precision_to_scale_tril : nat -> matrix -> option matrix;
  (** [constraints.positive_definite.check] *)
  positive_definite_check : nat -> matrix -> bool;
  (** [constraints.lower_cholesky.check] *)
  lower_cholesky_check : nat -> matrix -> bool
}.

(** The generator: one standard normal variate, and one chi-squared variate
    with the given degrees of freedom, per call. *)
Class RandomSource := {
  rng : Type;
  randn1 : rng -> R * rng;
  chi2_variate : R -> rng -> R * rng
}.

(** [constraints.*] objects that appear in [Wishart.arg_constraints]. *)
Inductive constraint :=
| positive_definite
| lower_cholesky
| greater_than (lower_bound : Z).

(** The [df] argument is a Python number or a tensor. *)
Inductive df_arg :=
| DfNumber (x : R)
| DfTensor (t : tensor R).

#[local] Open Scope R_scope.

Definition Rleb (a b : R) : bool := bool_decide (a <= b).
Definition Rltb (a b : R) : bool := bool_decide (a < b).
Arguments Rleb : simpl never.
Arguments Rltb : simpl never.

Definition _log_2 : R := ln 2.

(** ** Tensor operations on reals *)

(** The matrix of a batched tensor at batch index [b]. *)
Definition mat_at (t : tensor R) (b : list nat) : matrix :=
  fun i j => data t (b ++ [i; j]).

(** [torch.arange(p)] *)
Definition arange (p : nat) : tensor R :=
  Tensor [p] (fun idx => INR (nth 0 idx 0%nat)).

(** [torch.eye(p)] *)
Definition torch_eye (p : nat) : tensor R :=
  Tensor [p; p] (fun idx => eye (row_of idx) (col_of idx)).

(** [t.unsqueeze(-1)] *)
Definition unsqueeze_last {A} (t : tensor A) : tensor A :=
  Tensor (shape t ++ [1%nat]) (fun idx => data t (take (length idx - 1) idx)).

(** [t.sum(-1)] *)
Definition sum_last (t : tensor R) : tensor R :=
  Tensor (take (dim t - 1) (shape t))
         (fun b => rsum (col_of (shape t)) (fun i => data t (b ++ [i]))).

(** [t.diagonal(dim1=-2, dim2=-1)] *)
Definition diagonal (t : tensor R) : tensor R :=
  Tensor (batch_of (shape t) ++ [Nat.min (row_of (shape t)) (col_of (shape t))])
         (fun idx =>
            let i := col_of idx in
            data t (take (length idx - 1) idx ++ [i; i])).

(** [t.diag_embed(dim1=-2, dim2=-1)] *)
Definition diag_embed (t : tensor R) : tensor R :=
  Tensor (shape t ++ [col_of (shape t)])
         (fun idx =>
            if Nat.eqb (row_of idx) (col_of idx)
            then data t (batch_of idx ++ [row_of idx])
            else 0).

(** [t.transpose(-2, -1)] *)
Definition transpose_last (t : tensor R) : tensor R :=
  Tensor (batch_of (shape t) ++ [col_of (shape t); row_of (shape t)])
         (fun idx => data t (batch_of idx ++ [col_of idx; row_of idx])).

(** [a @ b] for operands of rank at least two (the only ones that occur
    here): a batched matrix product whose batch dimensions broadcast. *)
Definition matmul (a b : tensor R) : result (tensor R) :=
  if negb (Nat.eqb (col_of (shape a)) (row_of (shape b))) then Raise RuntimeError
  else
    match broadcast_shapes (batch_of (shape a)) (batch_of (shape b)) with
    | None => Raise RuntimeError
    | Some bs =>
        Ok (Tensor (bs ++ [row_of (shape a); col_of (shape b)])
                   (fun idx =>
                      mmul (col_of (shape a))
                           (mat_at a (bindex (batch_of (shape a)) (batch_of idx)))
                           (mat_at b (bindex (batch_of (shape b)) (batch_of idx)))
                           (row_of idx) (col_of idx)))
    end.

(** [torch.cholesky_solve(B, L)], batch element by batch element. *)
Definition torch_cholesky_solve (B L : tensor R) : result (tensor R) :=
  if negb (Nat.eqb (row_of (shape L)) (col_of (shape L))
           && Nat.eqb (row_of (shape B)) (row_of (shape L)))
  then Raise RuntimeError
  else
    match broadcast_shapes (batch_of (shape B)) (batch_of (shape L)) with
    | None => Raise RuntimeError
    | Some bs =>
        Ok (Tensor (bs ++ [row_of (shape B); col_of (shape B)])
                   (fun idx =>
                      cholesky_solve (col_of (shape L))
                           (mat_at B (bindex (batch_of (shape B)) (batch_of idx)))
                           (mat_at L (bindex (batch_of (shape L)) (batch_of idx)))
                           (row_of idx) (col_of idx)))
    end.

(** A check on matrices applied to every batch element; the result has the
    batch shape. *)
Definition lift_check (f : nat -> matrix -> bool) (t : tensor R) : tensor bool :=
  Tensor (batch_of (shape t)) (fun b => f (col_of (shape t)) (mat_at t b)).

(** A factorization applied to every batch element; it fails as a whole as
    soon as one batch element fails. *)
Definition lift_factor (f : nat -> matrix -> option matrix) (t : tensor R)
  : result (tensor R) :=
  if negb (Nat.eqb (row_of (shape t)) (col_of (shape t))) then Raise RuntimeError
  else if forallb (fun b => bool_decide (is_Some (f (col_of (shape t)) (mat_at t b))))
                  (indices (batch_of (shape t)))
  then Ok (Tensor (shape t)
                  (fun idx =>
                     match f (col_of (shape t)) (mat_at t (batch_of idx)) with
                     | Some L => L (row_of idx) (col_of idx)
                     | None => 0
                     end))
  else Raise LinAlgError.

(** Arithmetic on possibly failed tensors, with broadcasting: the infix
    operators of a Python expression. *)
Definition tbin (f : R -> R -> R) (a b : result (tensor R)) : result (tensor R) :=
  x ← a; y ← b; tzip f x y.

Declare Scope tensor_scope.
Delimit Scope tensor_scope with T.
Notation "a + b" := (tbin Rplus a b) : tensor_scope.
Notation "a - b" := (tbin Rminus a b) : tensor_scope.
Notation "a * b" := (tbin Rmult a b) : tensor_scope.

(** [torch.tril_indices(p, p, offset=-1)]: the positions strictly below the
    diagonal, row by row. *)
Definition tril_indices (p : nat) : list (nat * nat) :=
  flat_map (fun i => map (pair i) (seq 0 i)) (seq 0 p).

Fixpoint position_of (ij : nat * nat) (l : list (nat * nat)) : option nat :=
  match l with
  | [] => None
  | x :: l' =>
      if bool_decide (x = ij) then Some 0%nat
      else match position_of ij l' with
           | Some k => Some (S k)
           | None => None
           end
  end.

(** [t[..., i, j] = v] where [(i, j)] ranges over the list [ij]: the entry
    at the [k]-th position of the list receives [v[..., k]]. *)
Definition index_put_last2 (t : tensor R) (ij : list (nat * nat)) (v : tensor R)
  : tensor R :=
  Tensor (shape t)
         (fun idx =>
            match position_of (row_of idx, col_of idx) ij with
            | Some k => data v (batch_of idx ++ [k])
            | None => data t idx
            end).

(** [reads t c g]: once [t] is expanded to the shape [c], its entry at
    [idx] is [g idx]. *)
Definition reads {A} (t : tensor A) (c : list nat) (g : list nat -> A) : Prop :=
  expandable (shape t) c /\
  forall idx, length idx = length c -> data t (bindex (shape t) idx) = g idx.

Definition rreads {A} (r : result (tensor A)) (c : list nat) (g : list nat -> A)
  : Prop :=
  exists t, r = Ok t /\ reads t c g.

(** ** The interpreter state *)

Section Model.
Context `{Numerics} `{RandomSource}.

Record world := World {
  (** the default generator *)
  generator : rng;
  (** [torch._C._get_tracing_state()], as a truth value *)
  tracing_state : bool;
  (** [Distribution._validate_args], the class-wide default *)
  default_validate_args : bool;
  (** [Wishart.arg_constraints]: one dictionary, owned by the class *)
  arg_constraints : gmap string constraint;
  (** messages passed to [warnings.warn], latest first *)
  warnings_log : list string;
  (** ghost: the shapes passed to [_bartlett_sampling], latest first *)
  sampling_log : list (list nat)
}.

Definition M (A : Type) : Type := world -> result A * world.

#[global] Instance M_ret : MRet M := fun A a w => (Ok a, w).
#[global] Instance M_bind : MBind M := fun A B k m w =>
  match m w with
  | (Ok a, w') => k a w'
  | (Raise e, w') => (Raise e, w')
  end.

Definition raise {A} (e : exn) : M A := fun w => (Raise e, w).

Definition lift {A} (r : result A) : M A := fun w => (r, w).

Definition get_world : M world := fun w => (Ok w, w).

Definition warn (msg : string) : M unit := fun w =>
  (Ok tt,
   World (generator w) (tracing_state w) (default_validate_args w)
         (arg_constraints w) (msg :: warnings_log w) (sampling_log w)).

Definition set_arg_constraint (key : string) (c : constraint) : M unit := fun w =>
  (Ok tt,
   World (generator w) (tracing_state w) (default_validate_args w)
         (<[key := c]> (arg_constraints w)) (warnings_log w) (sampling_log w)).

Definition log_sampling (sample_shape : list nat) : M unit := fun w =>
  (Ok tt,
   World (generator w) (tracing_state w) (default_validate_args w)
         (arg_constraints w) (warnings_log w) (sample_shape :: sampling_log w)).

Definition with_generator {A} (f : rng -> A * rng) : M A := fun w =>
  let '(a, g) := f (generator w) in
  (Ok a,
   World g (tracing_state w) (default_validate_args w)
         (arg_constraints w) (warnings_log w) (sampling_log w)).

(** The class body of [Wishart] (lines 51-56). *)
Definition arg_constraints_init : gmap string constraint :=
  {[ "covariance_matrix" := positive_definite;
     "precision_matrix" := positive_definite;
     "scale_tril" := lower_cholesky;
     "df" := greater_than 0 ]}.

(** ** Random tensors *)

Fixpoint draw_list {A} (f : A -> rng -> R * rng) (l : list A) (g : rng)
  : list R * rng :=
  match l with
  | [] => ([], g)
  | a :: l' =>
      let '(v, g1) := f a g in
      let '(vs, g2) := draw_list f l' g1 in
      (v :: vs, g2)
  end.

(** One variate per index of the shape, drawn in row-major order. *)
Definition draw_tensor (f : list nat -> rng -> R * rng) (s : list nat) (g : rng)
  : tensor R * rng :=
  let '(vs, g') := draw_list f (indices s) g in
  (Tensor s (fun idx => nth (flat_index s idx) vs 0), g').

(** [torch.randn(shape)] *)
Definition torch_randn (s : list nat) : M (tensor R) :=
  with_generator (draw_tensor (fun _ => randn1) s).

(** [Chi2(df).rsample(sample_shape)]: the result has shape
    [sample_shape + df.shape], and each entry is drawn with the degrees of
    freedom found at its place in [df]. *)
Definition chi2_rsample (df : tensor R) (sample_shape : list nat) : M (tensor R) :=
  with_generator
    (draw_tensor (fun idx => chi2_variate (data df (bindex (shape df) idx)))
                 (sample_shape ++ shape df)).

(** ** The class *)

Record Wishart := {
  df : tensor R;
  _batch_shape : list nat;
  _event_shape : list nat;
  _validate_args : bool;
  _batch_dims : list Z;
  _unbroadcasted_scale_tril : tensor R;
  (** the [df] parameter of [self._dist_chi2] *)
  _dist_chi2 : tensor R;
  (** the entries of [self.__dict__] that shadow a [lazy_property] *)
  __dict__ : gmap string (tensor R)
}.

(** [self.support.check(value)] *)
Definition support_check (value : tensor R) : tensor bool :=
  lift_check positive_definite_check value.

Definition check_constraint (c : constraint) (v : tensor R) : bool :=
  match c with
  | positive_definite => tall (lift_check positive_definite_check v)
  | lower_cholesky => tall (lift_check lower_cholesky_check v)
  | greater_than lb => tall (tmap (fun x => Rltb (IZR lb) x) v)
  end.

(** Modelled from the spec: [Distribution.__init__] is not under src/.
    It resolves [validate_args] against the class default and, when
    validation is enabled, checks every argument the instance holds against
    the constraint declared for it in [arg_constraints]; lazily computed
    attributes the instance does not hold are skipped. The result is the
    value of [self._validate_args]. *)
Definition args_valid (constraints : gmap string constraint)
    (attrs : gmap string (tensor R)) : bool :=
  forallb (fun kc =>
             match attrs !! fst kc with
             | Some v => check_constraint (snd kc) v
             | None => true
             end)
          (map_to_list constraints).

Definition Distribution_init (attrs : gmap string (tensor R))
    (validate_args : option bool) : M bool :=
  w ← get_world;
  let validate := default (default_validate_args w) validate_args in
  if validate && negb (args_valid (arg_constraints w) attrs)
  then raise ValueError
  else mret validate.

(** [next(p for p in ps if p is not None)] *)
Fixpoint next_not_none {A} (ps : list (option A)) : result A :=
  match ps with
  | [] => Raise StopIteration
  | Some p :: _ => Ok p
  | None :: ps' => next_not_none ps'
  end.

Definition is_not_None {A} (o : option A) : nat :=
  match o with
  | Some _ => 1
  | None => 0
  end.

Definition low_df_warning : string :=
  "Low df values detected. Singular samples are highly likely to occur for ndim - 1 < df < ndim.".

Definition singular_warning : string := "Singular sample detected.".

(** Lines 74-79: the batch shape and [self.df]. *)
Definition resolve_batch (df_in : df_arg) (param : tensor R)
  : result (list nat * tensor R) :=
  match df_in with
  | DfNumber x => Ok (batch_of (shape param), Tensor [] (fun _ => x))
  | DfTensor t =>
      match broadcast_shapes (batch_of (shape param)) (shape t) with
      | Some bs => Ok (bs, expand t bs)
      | None => Raise RuntimeError
      end
  end.

(** Lines 85-90: the parameter that was passed is stored, expanded, under
    its own name. *)
Definition stored_attrs (scale_tril covariance_matrix precision_matrix
                         : option (tensor R)) (stored : tensor R)
  : gmap string (tensor R) :=
  match scale_tril, covariance_matrix, precision_matrix with
  | Some _, _, _ => {[ "scale_tril" := stored ]}
  | None, Some _, _ => {[ "covariance_matrix" := stored ]}
  | None, None, Some _ => {[ "precision_matrix" := stored ]}
  | None, None, None => ∅
  end.

(** Lines 99-104: the canonical scale factor. *)
Definition resolve_scale_tril (scale_tril covariance_matrix precision_matrix
                               : option (tensor R)) : result (tensor R) :=
  match scale_tril, covariance_matrix, precision_matrix with
  | Some t, _, _ => Ok t
  | None, Some c, _ => lift_factor linalg_cholesky c
  | None, None, Some q => lift_factor _precision_to_scale_tril q
  | None, None, None => Raise StopIteration
  end.

(** Lines 107-116: the degrees of freedom of [self._dist_chi2]. *)
Definition chi2_df (self_df : tensor R) (batch_shape : list nat) (p : nat)
  : result (tensor R) :=
  tzip Rminus (unsqueeze_last self_df) (expand (arange p) (batch_shape ++ [p])).

(** [Wishart.__init__] (lines 60-116). *)
Definition Wishart_init (df_in : df_arg)
    (covariance_matrix precision_matrix scale_tril : option (tensor R))
    (validate_args : option bool) : M Wishart :=
  if negb (Nat.eqb (is_not_None covariance_matrix + is_not_None scale_tril
                    + is_not_None precision_matrix) 1)
  then raise AssertionError
  else
    param ← lift (next_not_none [covariance_matrix; precision_matrix; scale_tril]);
    if (dim param <? 2)%nat then raise ValueError
    else
      bd ← lift (resolve_batch df_in param);
      let batch_shape := fst bd in
      let self_df := snd bd in
      let event_shape := drop (length (shape param) - 2) (shape param) in
      let p := List.last event_shape 0%nat in
      if tany (tmap (fun x => Rleb x (IZR (Z.of_nat p - 1))) self_df)
      then raise ValueError
      else
        let dict :=
          stored_attrs scale_tril covariance_matrix precision_matrix
                       (expand param (batch_shape ++ event_shape)) in
        set_arg_constraint "df" (greater_than (Z.of_nat p - 1));;
        (if tany (tmap (fun x => Rltb x (IZR (Z.of_nat p))) self_df)
         then warn low_df_warning
         else mret tt);;
        validate ← Distribution_init (<["df" := self_df]> dict) validate_args;
        let batch_dims := map (fun x => (- (Z.of_nat x + 1))%Z)
                              (seq 0 (length batch_shape)) in
        L ← lift (resolve_scale_tril scale_tril covariance_matrix precision_matrix);
        dfs ← lift (chi2_df self_df batch_shape p);
        mret {| df := self_df;
                _batch_shape := batch_shape;
                _event_shape := event_shape;
                _validate_args := validate;
                _batch_dims := batch_dims;
                _unbroadcasted_scale_tril := L;
                _dist_chi2 := dfs;
                __dict__ := dict |}.

(** The instances the constructor can return. *)
Definition constructed (self : Wishart) : Prop :=
  exists df_in cov prec tril va w w',
    Wishart_init df_in cov prec tril va w = (Ok self, w').

(** Reading [self.arg_constraints] on an instance finds the class
    attribute. *)
Definition instance_arg_constraints (self : Wishart) : M (gmap string constraint) :=
  w ← get_world; mret (arg_constraints w).

Definition event_dim (self : Wishart) : nat := List.last (_event_shape self) 0%nat.

(** ** Lazy properties (lines 151-171)

    An attribute stored on the instance shadows the property of the same
    name; otherwise the property computes its value from
    [_unbroadcasted_scale_tril]. *)
Definition scale_tril_of (self : Wishart) : tensor R :=
  match __dict__ self !! "scale_tril" with
  | Some t => t
  | None => expand (_unbroadcasted_scale_tril self)
                   (_batch_shape self ++ _event_shape self)
  end.

Definition covariance_matrix_of (self : Wishart) : result (tensor R) :=
  match __dict__ self !! "covariance_matrix" with
  | Some t => Ok t
  | None =>
      c ← matmul (_unbroadcasted_scale_tril self)
                 (transpose_last (_unbroadcasted_scale_tril self));
      Ok (expand c (_batch_shape self ++ _event_shape self))
  end.

Definition precision_matrix_of (self : Wishart) : result (tensor R) :=
  match __dict__ self !! "precision_matrix" with
  | Some t => Ok t
  | None =>
      let identity := torch_eye (event_dim self) in
      x ← torch_cholesky_solve identity (_unbroadcasted_scale_tril self);
      Ok (expand x (_batch_shape self ++ _event_shape self))
  end.

(** ** Sampling (lines 183-245) *)

(** [_bartlett_sampling] *)
Definition _bartlett_sampling (self : Wishart) (sample_shape : list nat)
  : M (tensor R) :=
  log_sampling sample_shape;;
  let p := event_dim self in
  chi ← chi2_rsample (_dist_chi2 self) sample_shape;
  let noise := diag_embed (tmap sqrt chi) in
  let ij := tril_indices p in
  normals ← torch_randn (sample_shape ++ _batch_shape self ++ [(p * (p - 1) / 2)%nat]);
  let noise := index_put_last2 noise ij normals in
  chol ← lift (matmul (_unbroadcasted_scale_tril self) noise);
  lift (matmul chol (transpose_last chol)).

(** [if self._batch_shape: m = m.amax(self._batch_dims)] *)
Definition reduce_batch (self : Wishart) (m : tensor bool) : tensor bool :=
  match _batch_shape self with
  | [] => m
  | _ :: _ => amax m (_batch_dims self)
  end.

(** The loop of lines 220-226, under tracing; [n] iterations remain. *)
Fixpoint correct_traced (self : Wishart) (sample_shape : list nat) (n : nat)
    (sample : tensor R) (is_singular : tensor bool) : M (tensor R) :=
  match n with
  | O => mret sample
  | S n' =>
      sample_new ← _bartlett_sampling self sample_shape;
      sample ← lift (twhere is_singular sample_new sample);
      let is_singular := reduce_batch self (tmap negb (support_check sample)) in
      correct_traced self sample_shape n' sample is_singular
  end.

(** The loop of lines 233-243, with data-dependent control flow. *)
Fixpoint correct_eager (self : Wishart) (n : nat)
    (sample : tensor R) (is_singular : tensor bool) : M (tensor R) :=
  match n with
  | O => mret sample
  | S n' =>
      sample_new ← _bartlett_sampling self [mask_count is_singular];
      let sample := masked_assign sample is_singular sample_new in
      let is_singular_new :=
        reduce_batch self (tmap negb (support_check sample_new)) in
      let is_singular := masked_assign is_singular is_singular is_singular_new in
      if negb (tany is_singular) then mret sample
      else correct_eager self n' sample is_singular
  end.

(** [rsample] *)
Definition rsample (self : Wishart) (sample_shape : list nat)
    (max_try_correction : option Z) : M (tensor R) :=
  w ← get_world;
  let max_try_correction :=
    match max_try_correction with
    | Some m => m
    | None => if tracing_state w then 3%Z else 10%Z
    end in
  sample ← _bartlett_sampling self sample_shape;
  let is_singular := reduce_batch self (support_check sample) in
  if tracing_state w
  then correct_traced self sample_shape (Z.to_nat max_try_correction)
                      sample is_singular
  else if tany is_singular
       then warn singular_warning;;
            correct_eager self (Z.to_nat max_try_correction) sample is_singular
       else mret sample.

(** ** Density, entropy and natural parameters (lines 16-21, 247-281) *)

Definition scalar (c : R) : tensor R := Tensor [] (fun _ => c).

(** [torch.linalg.slogdet(t).logabsdet] *)
Definition slogdet_logabsdet (t : tensor R) : tensor R :=
  Tensor (batch_of (shape t)) (fun b => logabsdet (col_of (shape t)) (mat_at t b)).

(** [_mvdigamma] *)
Definition _mvdigamma (x : tensor R) (p : nat) : result (tensor R) :=
  if negb (tall (tmap (fun v => Rltb ((INR p - 1) / 2) v) x))
  then Raise AssertionError
  else
    d ← tzip Rminus (unsqueeze_last x)
                    (expand (tmap (fun v => v / 2) (arange p)) (shape x ++ [p]));
    Ok (sum_last (tmap digamma d)).

(** Modelled from the spec: [Distribution._validate_sample] is not under
    src/. Section 4.5: the value must have the event shape of the
    distribution and lie in its support. *)
Definition _validate_sample (self : Wishart) (value : tensor R) : result unit :=
  if negb (bool_decide (drop (length (shape value) - 2) (shape value)
                        = _event_shape self))
  then Raise ValueError
  else if negb (tall (support_check value)) then Raise ValueError
  else Ok tt.

(** [log_prob] *)
Definition log_prob (self : Wishart) (value : tensor R) : result (tensor R) :=
  (if _validate_args self then _validate_sample self value else Ok tt);;
  let nu := df self in
  let p := event_dim self in
  let L := _unbroadcasted_scale_tril self in
  (Ok (tmap (fun v => (- v * INR p * _log_2 / 2)%R) nu)
   - Ok nu * Ok (sum_last (tmap ln (diagonal L)))
   - Ok (tmap (fun v => mvlgamma (v / 2)%R p) nu)
   + Ok (tmap (fun v => ((v - INR p - 1) / 2)%R) nu) * Ok (slogdet_logabsdet value)
   - (cs ← torch_cholesky_solve value L;
      Ok (tmap (fun v => (v / 2)%R) (sum_last (diagonal cs)))))%T.

(** [entropy] *)
Definition entropy (self : Wishart) : result (tensor R) :=
  let nu := df self in
  let p := event_dim self in
  let L := _unbroadcasted_scale_tril self in
  V ← covariance_matrix_of self;
  (Ok (tmap (fun v => (INR (p + 1) * v)%R) (sum_last (tmap ln (diagonal L))))
   + Ok (scalar (INR (p * (p + 1)) * _log_2 / 2)%R)
   + Ok (tmap (fun v => mvlgamma (v / 2)%R p) nu)
   - Ok (tmap (fun v => ((v - INR p - 1) / 2)%R) nu)
     * _mvdigamma (tmap (fun v => (v / 2)%R) nu) p
   + Ok (tmap (fun v => (v * INR p / 2)%R) nu))%T.

(** The numbers bound at module level. The other module-level names are
    the imports, [_mvdigamma] and [Wishart]; none of them is [p]. *)
Definition module_globals : gmap string R := {[ "_log_2" := _log_2 ]}.

(** [_natural_params]. The body reads [p], which is neither a parameter nor
    a local of the property, so Python looks it up among the globals. *)
Definition _natural_params (globals : gmap string R) (self : Wishart)
  : result (tensor R * tensor R) :=
  match globals !! "p" with
  | None => Raise NameError
  | Some p =>
      prec ← precision_matrix_of self;
      Ok (tmap (fun v => 0.5 * (v - p - 1)) (df self),
          tmap (fun v => - 0.5 * v) prec)
  end.

(** [_log_normalizer] *)
Definition _log_normalizer (x y : tensor R) : result (tensor R) :=
  let p := col_of (shape y) in
  (Ok x * (Ok (tmap Ropp (slogdet_logabsdet (tmap (fun v => (-2 * v)%R) y)))
           + Ok (scalar (_log_2 * INR p)%R))
   + _mvdigamma x p)%T.

End Model.

(** ** An instance of the interface, to run the model on examples *)

(** [torch.flip(A, (-2, -1))] *)
Definition flip (n : nat) (A : matrix) : matrix :=
  fun i j => A (n - 1 - i)%nat (n - 1 - j)%nat.

(** The determinant, expanded along the first row. *)
Fixpoint determinant (n : nat) (A : matrix) : R :=
  match n with
  | O => 1
  | S m =>
      rsum (S m)
           (fun k => (-1) ^ k * A 0%nat k
                     * determinant m (fun i j => A (S i) (if (j <? k)%nat then j else S j)))
  end.

(** The scale factor of a precision matrix: factor the flipped precision,
    flip back and transpose to get the lower-triangular inverse of the scale
    factor, then solve against the identity. *)
Definition precision_to_scale_tril_by_flip (n : nat) (P : matrix) : option matrix :=
  match cholesky_factor n (flip n P) with
  | None => None
  | Some Lf => Some (solve_triangular n (transpose (flip n Lf)) eye false)
  end.

Definition lower_cholesky_b (n : nat) (A : matrix) : bool :=
  forallb (fun i =>
             Rltb 0 (A i i)
             && forallb (fun j => (j <=? i)%nat || bool_decide (A i j = 0)) (seq 0 n))
          (seq 0 n).

(** Factorizations, determinants and constraint checks are computed as
    above. The Standard Library has no gamma function: the two special
    functions are stand-ins, and no example depends on their values. *)
Definition example_numerics : Numerics := {|
  digamma := fun _ => 0;
  mvlgamma := fun _ _ => 0;
  logabsdet := fun n A => ln (Rabs (determinant n A));
  linalg_cholesky := cholesky_factor;
  _precision_to_scale_tril := precision_to_scale_tril_by_flip;
  positive_definite_check :=
    fun n A => symmetric_b n A && bool_decide (is_Some (cholesky_factor n A));
  lower_cholesky_check := lower_cholesky_b
|}.

(** A generator that replays a given tape of variates. *)
Definition replay : RandomSource := {|
  rng := list R;
  randn1 := fun g => (hd 0 g, tl g);
  chi2_variate := fun _ g => (hd 0 g, tl g)
|}.

(** A fresh interpreter whose generator will produce [tape]. *)
Definition fresh_world (tape : list R) : @world replay :=
  @World replay tape false true arg_constraints_init [] [].

(** A degrees-of-freedom tensor with one entry below the dimension 2. *)
Definition df_example : tensor R :=
  Tensor [2%nat] (fun idx => if Nat.eqb (nth 0 idx 0%nat) 0 then 1.5 else 2.5).


(** The value [[2, 0], [0, 2]]. *)
Definition value_example : tensor R :=
  Tensor [2%nat; 2%nat] (fun idx => 2 * eye (row_of idx) (col_of idx)).


(** The 1 x 1 covariance [[4]]. *)
Definition cov_example : tensor R := Tensor [1%nat; 1%nat] (fun _ => 4).


(** The distribution of dimension 1 with [scale_tril = [[1]]] and [df = 1],
    as the constructor builds it. *)
Definition wishart_1x1 : Wishart := {|
  df := scalar 1;
  _batch_shape := [];
  _event_shape := [1%nat; 1%nat];
  _validate_args := false;
  _batch_dims := [];
  _unbroadcasted_scale_tril := torch_eye 1;
  _dist_chi2 :=
    match chi2_df (scalar 1) [] 1 with
    | Ok d => d
    | Raise _ => scalar 0
    end;
  __dict__ := {[ "scale_tril" := expand (torch_eye 1) [1%nat; 1%nat] ]}
|}.

(** ** Moments and [expand] (lines 118-149, 173-181) *)

(** The index whose row-major offset in a tensor of shape [s] is [k]. *)
Fixpoint unravel (s : list nat) (k : nat) : list nat :=
  match s with
  | [] => []
  | _ :: s' => (k / numel s')%nat :: unravel s' (k mod numel s')
  end.

(** [t.view(s)]: the elements of [t], in row-major order, under the shape
    [s]; the number of elements must not change. The library also refuses
    inputs whose strides do not fit the new shape. The module calls [view]
    on [self.df] only, with the batch shape followed by [(1, 1)]: [self.df]
    then has the batch shape, where appending axes of size 1 is never
    refused, or no axis at all, where only the number of elements counts. *)
Definition view {A} (t : tensor A) (s : list nat) : result (tensor A) :=
  if negb (Nat.eqb (numel (shape t)) (numel s)) then Raise RuntimeError
  else Ok (Tensor s (fun idx => data t (unravel (shape t) (flat_index s idx)))).

(** [torch.einsum("...i,...j->...ij", a, b)]: the outer product of the last
    axes; the leading axes broadcast. *)
Definition einsum_outer (a b : tensor R) : result (tensor R) :=
  if (dim a <? 1)%nat || (dim b <? 1)%nat then Raise RuntimeError
  else
    let ba := take (dim a - 1) (shape a) in
    let bb := take (dim b - 1) (shape b) in
    match broadcast_shapes ba bb with
    | None => Raise RuntimeError
    | Some bs =>
        Ok (Tensor (bs ++ [col_of (shape a); col_of (shape b)])
                   (fun idx =>
                      data a (bindex ba (batch_of idx) ++ [row_of idx])
                      * data b (bindex bb (batch_of idx) ++ [col_of idx])))
    end.

(** [mean] *)
Definition mean (self : Wishart) : result (tensor R) :=
  (view (df self) (_batch_shape self ++ [1%nat; 1%nat])
   * covariance_matrix_of self)%T.

(** [variance] *)
Definition variance (self : Wishart) : result (tensor R) :=
  V ← covariance_matrix_of self;
  let diag_V := diagonal V in
  (view (df self) (_batch_shape self ++ [1%nat; 1%nat])
   * (Ok (tmap (fun v => v ^ 2) V) + einsum_outer diag_V diag_V))%T.

(** [expandable], as a test. *)
Fixpoint expandable_revb (r1 r2 : list nat) : bool :=
  match r1, r2 with
  | [], _ => true
  | _ :: _, [] => false
  | a :: r1', b :: r2' => (Nat.eqb a b || Nat.eqb a 1) && expandable_revb r1' r2'
  end.

Definition expandableb (s t : list nat) : bool := expandable_revb (rev s) (rev t).

(** [t.expand(s)] with the check the library makes: every axis of [t],
    aligned from the right, has the requested size or size 1. *)
Definition expand_checked {A} (t : tensor A) (s : list nat) : result (tensor A) :=
  if expandableb (shape t) s then Ok (expand t s) else Raise RuntimeError.

Section Expand.
Context `{Numerics} `{RandomSource}.

(** Lines 128-133:
    [if name in self.__dict__: new.name = self.name.expand(cov_shape)]. *)
Definition expand_stored (self : Wishart) (name : string) (cov_shape : list nat)
    (new_dict : gmap string (tensor R)) : result (gmap string (tensor R)) :=
  match __dict__ self !! name with
  | Some t => t' ← expand_checked t cov_shape; Ok (<[name := t']> new_dict)
  | None => Ok new_dict
  end.

(** [Wishart.expand] (lines 118-149), called without [_instance]:
    [_get_checked_instance] then returns a fresh instance of the class, and
    the attributes are set on it one after the other. [Chi2(df=...)] is
    kept as its [df], as in the constructor. The base-class constructor is
    called with [validate_args=False]; the flag of [self] is copied
    afterwards. *)
Definition Wishart_expand (self : Wishart) (batch_shape : list nat) : M Wishart :=
  let cov_shape := batch_shape ++ _event_shape self in
  let df_shape := batch_shape in
  L ← lift (expand_checked (_unbroadcasted_scale_tril self) cov_shape);
  new_df ← lift (expand_checked (df self) df_shape);
  let batch_dims := map (fun x => (- (Z.of_nat x + 1))%Z)
                        (seq 0 (length batch_shape)) in
  d ← lift (expand_stored self "covariance_matrix" cov_shape ∅);
  d ← lift (expand_stored self "scale_tril" cov_shape d);
  d ← lift (expand_stored self "precision_matrix" cov_shape d);
  dfs ← lift (chi2_df new_df batch_shape (event_dim self));
  Distribution_init (<["df" := new_df]> d) (Some false);;
  mret {| df := new_df;
          _batch_shape := batch_shape;
          _event_shape := _event_shape self;
          _validate_args := _validate_args self;
          _batch_dims := batch_dims;
          _unbroadcasted_scale_tril := L;
          _dist_chi2 := dfs;
          __dict__ := d |}.

(** [same_settings w w']: from [w] to [w'] at most the generator and the
    sampling log have changed. *)
Definition same_settings (w w' : world) : Prop :=
  tracing_state w' = tracing_state w
  /\ default_validate_args w' = default_validate_args w
  /\ arg_constraints w' = arg_constraints w
  /\ warnings_log w' = warnings_log w.

(** The shapes of the tensors an instance holds fit its batch and event
    shapes. *)
Definition well_shaped (self : Wishart) : Prop :=
  exists bL n,
    shape (_unbroadcasted_scale_tril self) = bL ++ [n; event_dim self]
    /\ _event_shape self = [n; event_dim self]
    /\ expandable bL (_batch_shape self)
    /\ (shape (df self) = [] \/ shape (df self) = _batch_shape self)
    /\ forall k t, __dict__ self !! k = Some t ->
                   shape t = _batch_shape self ++ _event_shape self.

(** The dictionary of the new instance, key by key. *)
Definition expanded_dict (self : Wishart) (s : list nat) : gmap string (tensor R) :=
  let d0 : gmap string (tensor R) := ∅ in
  let d1 := match __dict__ self !! "covariance_matrix" with
            | Some t => <["covariance_matrix" := expand t s]> d0
            | None => d0
            end in
  let d2 := match __dict__ self !! "scale_tril" with
            | Some t => <["scale_tril" := expand t s]> d1
            | None => d1
            end in
  match __dict__ self !! "precision_matrix" with
  | Some t => <["precision_matrix" := expand t s]> d2
  | None => d2
  end.

End Expand.

(** ** Further examples *)

(** The identity matrix of dimension 2, three times. *)
Definition eye_batch : tensor R := expand (torch_eye 2) [3; 2; 2]%nat.

(** The matrix [[-1, 0], [0, -1]]. *)
Definition cov_negative : tensor R :=
  Tensor [2; 2]%nat (fun idx => - eye (row_of idx) (col_of idx)).

(** A fresh interpreter under tracing. *)
Definition traced_world (tape : list R) : @world replay :=
  @World replay tape true true arg_constraints_init [] [].

(** A source all of whose chi-squared variates are 1 and normal variates 0,
    and a fresh interpreter over it. *)
Definition ones_source : RandomSource := {|
  rng := unit;
  randn1 := fun g => (0, g);
  chi2_variate := fun _ g => (1, g)
|}.

Definition ones_world : @world ones_source :=
  @World ones_source tt false true arg_constraints_init [] [].

(** A mask of shape [(2, 3)] with one entry set. *)
Definition mask_example : tensor bool :=
  Tensor [2; 3]%nat (fun idx => bool_decide (idx = [1; 2]%nat)).

(** * Properties *)

(** ** Finite sums *)

Lemma rsum_ext n f g :
  (forall k, (k < n)%nat -> f k = g k) -> rsum n f = rsum n g.
Proof.
  induction n as [|n IH]; intros H; simpl; [reflexivity|].
  rewrite IH by (intros; apply H; lia). rewrite (H n) by lia. reflexivity.
Qed.

Lemma rsum_zero n f : (forall k, (k < n)%nat -> f k = 0) -> rsum n f = 0.
Proof.
  induction n as [|n IH]; intros H; simpl; [reflexivity|].
  rewrite IH by (intros; apply H; lia). rewrite (H n) by lia. lra.
Qed.

Lemma rsum_plus n f g : rsum n (fun k => f k + g k) = rsum n f + rsum n g.
Proof. induction n as [|n IH]; simpl; [lra | rewrite IH; lra]. Qed.

Lemma rsum_minus n f g : rsum n (fun k => f k - g k) = rsum n f - rsum n g.
Proof. induction n as [|n IH]; simpl; [lra | rewrite IH; lra]. Qed.

Lemma rsum_scal_l n c f : rsum n (fun k => c * f k) = c * rsum n f.
Proof. induction n as [|n IH]; simpl; [lra | rewrite IH; lra]. Qed.

Lemma rsum_scal_r n c f : rsum n (fun k => f k * c) = rsum n f * c.
Proof. induction n as [|n IH]; simpl; [lra | rewrite IH; lra]. Qed.

Lemma rsum_swap n m (f : nat -> nat -> R) :
  rsum n (fun i => rsum m (fun j => f i j)) = rsum m (fun j => rsum n (fun i => f i j)).
Proof.
  induction n as [|n IH]; simpl.
  - symmetry. apply rsum_zero. reflexivity.
  - rewrite IH, <- rsum_plus. reflexivity.
Qed.

Lemma rsum_delta n r c :
  (r < n)%nat -> rsum n (fun k => if Nat.eqb k r then c else 0) = c.
Proof.
  induction n as [|n IH]; intros Hr; [lia|]. simpl.
  destruct (Nat.eqb_spec n r) as [->|Hne].
  - rewrite rsum_zero; [lra|]. intros k Hk.
    destruct (Nat.eqb_spec k r); [lia | reflexivity].
  - rewrite IH by lia. lra.
Qed.

Lemma rsum_delta_out n r c :
  (n <= r)%nat -> rsum n (fun k => if Nat.eqb k r then c else 0) = 0.
Proof.
  intros Hr. apply rsum_zero. intros k Hk.
  destruct (Nat.eqb_spec k r); [lia | reflexivity].
Qed.


(** ** Products *)

Lemma mmul_assoc n m (A B C : matrix) i j :
  mmul m (mmul n A B) C i j = mmul n A (mmul m B C) i j.
Proof.
  unfold mmul.
  transitivity (rsum m (fun k => rsum n (fun l => A i l * B l k * C k j))).
  { apply rsum_ext; intros k _. now rewrite rsum_scal_r. }
  rewrite rsum_swap. apply rsum_ext; intros l _.
  rewrite <- rsum_scal_l. apply rsum_ext; intros k _. lra.
Qed.

Lemma mmul_ext n (A A' B B' : matrix) i j :
  (forall k, (k < n)%nat -> A i k = A' i k) ->
  (forall k, (k < n)%nat -> B k j = B' k j) ->
  mmul n A B i j = mmul n A' B' i j.
Proof.
  intros HA HB. unfold mmul. apply rsum_ext; intros k Hk.
  now rewrite HA, HB.
Qed.

Lemma mmul_eye_r n (A : matrix) i j : (j < n)%nat -> mmul n A eye i j = A i j.
Proof.
  intros Hj. unfold mmul, eye.
  rewrite (rsum_ext _ _ (fun k => if Nat.eqb k j then A i j else 0)).
  - now apply rsum_delta.
  - intros k _. destruct (Nat.eqb_spec k j) as [->|_]; lra.
Qed.

Lemma mmul_eye_l n (A : matrix) i j : (i < n)%nat -> mmul n eye A i j = A i j.
Proof.
  intros Hi. unfold mmul, eye.
  rewrite (rsum_ext _ _ (fun k => if Nat.eqb k i then A i j else 0)).
  - now apply rsum_delta.
  - intros k _. rewrite Nat.eqb_sym.
    destruct (Nat.eqb_spec k i) as [->|_]; lra.
Qed.

Lemma transpose_mmul n (A B : matrix) i j :
  transpose (mmul n A B) i j = mmul n (transpose B) (transpose A) i j.
Proof. unfold transpose, mmul. apply rsum_ext; intros; lra. Qed.

Lemma mmul_transpose_sym n (A : matrix) i j :
  mmul n A (transpose A) i j = mmul n A (transpose A) j i.
Proof. unfold transpose, mmul. apply rsum_ext; intros; lra. Qed.

(** ** Triangular systems *)

Lemma elim_order_lower n T :
  lower_triangular n T -> nonzero_diag n T ->
  forall len k done,
    (k + len = n)%nat -> (forall m, In m done <-> (m < k)%nat) ->
    elim_order n T done (seq k len).
Proof.
  intros Hlow Hd. induction len as [|len IH]; intros k done Hk Hdone; simpl; [exact I|].
  repeat split.
  - lia.
  - apply Hd; lia.
  - rewrite Hdone; lia.
  - intros m Hm Hnd Hne. apply Hlow. rewrite Hdone in Hnd. lia.
  - apply IH; [lia|]. intros m; simpl. rewrite Hdone. lia.
Qed.

Lemma elim_order_upper n T :
  upper_triangular n T -> nonzero_diag n T ->
  forall k done,
    (k <= n)%nat -> (forall m, In m done <-> (k <= m < n)%nat) ->
    elim_order n T done (rev (seq 0 k)).
Proof.
  intros Hup Hd. induction k as [|k IH]; intros done Hk Hdone; [exact I|].
  rewrite seq_S, rev_app_distr. simpl. repeat split.
  - lia.
  - apply Hd; lia.
  - rewrite Hdone; lia.
  - intros m Hm Hnd Hne. apply Hup. rewrite Hdone in Hnd. lia.
  - apply IH; [lia|]. intros m; simpl. rewrite Hdone. lia.
Qed.

Lemma solve_step_other n T B X r i j :
  i <> r -> solve_step n T B X r i j = X i j.
Proof. intros H. unfold solve_step. now destruct (Nat.eqb_spec i r). Qed.

Lemma solve_step_row n T B X r j :
  solve_step n T B X r r j = (B r j - rsum n (fun m => T r m * X m j)) / T r r.
Proof. unfold solve_step. now rewrite Nat.eqb_refl. Qed.

Section SolveInvariant.
Variables (n : nat) (T B : matrix).

Lemma solved_step done X r :
  solved n T B done X -> (r < n)%nat -> T r r <> 0 -> ~ In r done ->
  (forall m, (m < n)%nat -> ~ In m done -> m <> r -> T r m = 0) ->
  solved n T B (r :: done) (solve_step n T B X r).
Proof.
  intros (Heq & Hz & Hc) Hr Hd Hnr Htri. split; [|split].
  - intros r' j [<-|Hin].
    + set (S := rsum n (fun m => T r m * X m j)).
      rewrite (rsum_ext _ _ (fun m => T r m * X m j +
                   (if Nat.eqb m r then T r r * solve_step n T B X r r j else 0))).
      * rewrite rsum_plus, rsum_delta by assumption. fold S.
        rewrite solve_step_row. fold S. field. assumption.
      * intros m _. destruct (Nat.eqb_spec m r) as [->|Hne].
        -- rewrite (Hz r j Hnr). lra.
        -- rewrite solve_step_other by assumption. lra.
    + rewrite <- (Heq r' j Hin). apply rsum_ext. intros m Hm.
      destruct (Nat.eq_dec m r) as [->|Hne].
      * rewrite (Hc r' r Hin Hr Hnr). lra.
      * now rewrite solve_step_other.
  - intros i j Hni. simpl in Hni.
    rewrite solve_step_other by (intros ->; tauto). apply Hz. tauto.
  - intros r' m [<-|Hin] Hm Hnm; simpl in Hnm.
    + apply Htri; [assumption| tauto | intros ->; tauto].
    + apply Hc; [assumption..|tauto].
Qed.

Lemma solved_fold rest : forall done X,
  solved n T B done X -> elim_order n T done rest ->
  solved n T B (rev rest ++ done) (fold_left (solve_step n T B) rest X).
Proof.
  induction rest as [|r rest IH]; intros done X HX Hord; simpl; [assumption|].
  destruct Hord as (Hr & Hd & Hnr & Htri & Hord).
  rewrite <- app_assoc. simpl. apply IH; [|assumption].
  now apply solved_step.
Qed.

Lemma solve_rows_sound order r j :
  elim_order n T [] order -> In r order ->
  rsum n (fun m => T r m * solve_rows n T B order m j) = B r j.
Proof.
  intros Hord Hin. unfold solve_rows.
  destruct (solved_fold order [] (fun _ _ => 0)) as (Heq & _ & _).
  - split; [|split]; simpl; intros; tauto.
  - assumption.
  - apply Heq. rewrite app_nil_r. now apply in_rev in Hin.
Qed.

(** A triangular system has at most one solution. *)
Lemma elim_order_zero (W : matrix) j rest : forall done,
  elim_order n T done rest ->
  (forall r, (r < n)%nat -> rsum n (fun m => T r m * W m j) = 0) ->
  (forall r, In r done -> W r j = 0) ->
  forall r, In r rest -> W r j = 0.
Proof.
  induction rest as [|r0 rest IH]; intros done Hord Hsys Hdone r Hin; [destruct Hin|].
  destruct Hord as (Hr & Hd & Hnr & Htri & Hord).
  assert (H0 : W r0 j = 0).
  { specialize (Hsys r0 Hr).
    rewrite (rsum_ext _ _ (fun m => if Nat.eqb m r0 then T r0 r0 * W r0 j else 0)) in Hsys.
    - rewrite rsum_delta in Hsys by assumption.
      apply Rmult_integral in Hsys. tauto.
    - intros m Hm. destruct (Nat.eqb_spec m r0) as [->|Hne]; [reflexivity|].
      destruct (in_dec Nat.eq_dec m done) as [Hi|Hi].
      + rewrite (Hdone m Hi). lra.
      + rewrite (Htri m Hm Hi Hne). lra. }
  destruct Hin as [<-|Hin]; [assumption|].
  apply (IH (r0 :: done)); try assumption.
  intros r' [<-|Hr']; [assumption | now apply Hdone].
Qed.
End SolveInvariant.

Lemma solve_lower_sound n L B i j :
  lower_triangular n L -> nonzero_diag n L -> (i < n)%nat ->
  mmul n L (solve_triangular n L B false) i j = B i j.
Proof.
  intros Hl Hd Hi. unfold mmul, solve_triangular.
  apply solve_rows_sound.
  - apply elim_order_lower; try assumption; [lia|]. intros m; simpl; lia.
  - apply in_seq. lia.
Qed.

Lemma solve_upper_sound n U B i j :
  upper_triangular n U -> nonzero_diag n U -> (i < n)%nat ->
  mmul n U (solve_triangular n U B true) i j = B i j.
Proof.
  intros Hu Hd Hi. unfold mmul, solve_triangular.
  apply solve_rows_sound.
  - apply elim_order_upper; try assumption; [lia|]. intros m; simpl; lia.
  - rewrite <- in_rev. apply in_seq. lia.
Qed.

Lemma lower_cancel n L (Z Z' : matrix) j :
  lower_triangular n L -> nonzero_diag n L ->
  (forall i, (i < n)%nat -> mmul n L Z i j = mmul n L Z' i j) ->
  forall i, (i < n)%nat -> Z i j = Z' i j.
Proof.
  intros Hl Hd Heq i Hi.
  enough (H : (fun a b => Z a b - Z' a b) i j = 0) by (simpl in H; lra).
  apply (elim_order_zero n L (fun a b => Z a b - Z' a b) j (seq 0 n) []).
  - apply elim_order_lower; try assumption; [lia|]. intros m; simpl; lia.
  - intros r Hr. specialize (Heq r Hr). unfold mmul in Heq.
    rewrite (rsum_ext _ _ (fun m => L r m * Z m j - L r m * Z' m j))
      by (intros; lra).
    rewrite rsum_minus. lra.
  - intros r [].
  - apply in_seq. lia.
Qed.

Lemma upper_cancel n U (Z Z' : matrix) j :
  upper_triangular n U -> nonzero_diag n U ->
  (forall i, (i < n)%nat -> mmul n U Z i j = mmul n U Z' i j) ->
  forall i, (i < n)%nat -> Z i j = Z' i j.
Proof.
  intros Hu Hd Heq i Hi.
  enough (H : (fun a b => Z a b - Z' a b) i j = 0) by (simpl in H; lra).
  apply (elim_order_zero n U (fun a b => Z a b - Z' a b) j (rev (seq 0 n)) []).
  - apply elim_order_upper; try assumption; [lia|]. intros m; simpl; lia.
  - intros r Hr. specialize (Heq r Hr). unfold mmul in Heq.
    rewrite (rsum_ext _ _ (fun m => U r m * Z m j - U r m * Z' m j))
      by (intros; lra).
    rewrite rsum_minus. lra.
  - intros r [].
  - rewrite <- in_rev. apply in_seq. lia.
Qed.

Lemma transpose_lower_upper n L :
  lower_triangular n L -> upper_triangular n (transpose L).
Proof. intros H i j Hij. unfold transpose. apply H. lia. Qed.

Lemma transpose_nonzero_diag n L :
  nonzero_diag n L -> nonzero_diag n (transpose L).
Proof. intros H i Hi. unfold transpose. now apply H. Qed.


(** ** The Cholesky solve *)

Lemma cholesky_solve_sound n L B i j :
  lower_triangular n L -> nonzero_diag n L -> (i < n)%nat ->
  mmul n (mmul n L (transpose L)) (cholesky_solve n B L) i j = B i j.
Proof.
  intros Hl Hd Hi. rewrite mmul_assoc. unfold cholesky_solve.
  rewrite (mmul_ext n L L _ (solve_triangular n L B false) i j).
  - now apply solve_lower_sound.
  - reflexivity.
  - intros k Hk. apply solve_upper_sound; try assumption.
    now apply transpose_lower_upper.
Qed.

Lemma solve_lower_left_inverse n L i j :
  lower_triangular n L -> nonzero_diag n L -> (i < n)%nat -> (j < n)%nat ->
  mmul n (solve_triangular n L eye false) L i j = eye i j.
Proof.
  intros Hl Hd Hi Hj.
  apply (lower_cancel n L _ eye j Hl Hd); [|assumption].
  intros r Hr. rewrite <- mmul_assoc.
  rewrite (mmul_ext n _ eye L L r j).
  - now rewrite mmul_eye_l, mmul_eye_r.
  - intros k _. now apply solve_lower_sound.
  - reflexivity.
Qed.

Lemma cholesky_solve_left_inverse n L i j :
  lower_triangular n L -> nonzero_diag n L -> (i < n)%nat -> (j < n)%nat ->
  mmul n (cholesky_solve n eye L) (mmul n L (transpose L)) i j = eye i j.
Proof.
  intros Hl Hd Hi Hj.
  assert (Hu := transpose_lower_upper n L Hl).
  assert (Hdt := transpose_nonzero_diag n L Hd).
  apply (upper_cancel n (transpose L) _ eye j Hu Hdt); [|assumption].
  intros r Hr. rewrite <- mmul_assoc. unfold cholesky_solve.
  rewrite (mmul_ext n _ (solve_triangular n L eye false) _ (mmul n L (transpose L)) r j).
  - rewrite <- mmul_assoc.
    rewrite (mmul_ext n _ eye _ (transpose L) r j).
    + now rewrite mmul_eye_l, mmul_eye_r.
    + intros k Hk. now apply solve_lower_left_inverse.
    + reflexivity.
  - intros k _. now apply solve_upper_sound.
  - reflexivity.
Qed.

(** The solve computes [L^-T * L^-1 * B], for any inverse [Linv] of [L]. *)
Lemma cholesky_solve_inverse n L Linv B i j :
  lower_triangular n L -> nonzero_diag n L -> inverse_of n L Linv ->
  (i < n)%nat ->
  cholesky_solve n B L i j = mmul n (transpose Linv) (mmul n Linv B) i j.
Proof.
  intros Hl Hd [Hr Hleft] Hi.
  assert (Hu := transpose_lower_upper n L Hl).
  assert (Hdt := transpose_nonzero_diag n L Hd).
  set (Y := solve_triangular n L B false).
  assert (HY : forall k, (k < n)%nat -> Y k j = mmul n Linv B k j).
  { intros k Hk. rewrite <- (mmul_eye_l n Y k j Hk).
    rewrite (mmul_ext n eye (mmul n Linv L) Y Y k j).
    - rewrite mmul_assoc. apply mmul_ext; [reflexivity|].
      intros m Hm. now apply solve_lower_sound.
    - intros m Hm. symmetry. now apply Hleft.
    - reflexivity. }
  unfold cholesky_solve. fold Y.
  set (X := solve_triangular n (transpose L) Y true).
  rewrite <- (mmul_eye_l n X i j Hi).
  rewrite (mmul_ext n eye (mmul n (transpose Linv) (transpose L)) X X i j).
  - rewrite mmul_assoc. apply mmul_ext; [reflexivity|].
    intros m Hm. rewrite <- (HY m Hm). now apply solve_upper_sound.
  - intros m Hm. rewrite <- transpose_mmul. unfold transpose.
    rewrite (Hr m i Hm Hi). unfold eye. rewrite Nat.eqb_sym. reflexivity.
  - reflexivity.
Qed.

(** ** Shapes and indices *)

Lemma batch_of_app2 (b : list nat) i j : batch_of (b ++ [i; j]) = b.
Proof.
  unfold batch_of. rewrite length_app. simpl.
  replace (length b + 2 - 2)%nat with (length b) by lia.
  now rewrite take_app_length.
Qed.

Lemma row_of_app2 (b : list nat) i j : row_of (b ++ [i; j]) = i.
Proof.
  unfold row_of. rewrite length_app. simpl.
  replace (length b + 2 - 2)%nat with (length b) by lia.
  rewrite app_nth2 by lia. now rewrite Nat.sub_diag.
Qed.

Lemma col_of_app2 (b : list nat) i j : col_of (b ++ [i; j]) = j.
Proof.
  unfold col_of. rewrite length_app. simpl.
  replace (length b + 2 - 1)%nat with (S (length b)) by lia.
  rewrite app_nth2 by lia.
  now replace (S (length b) - length b)%nat with 1%nat by lia.
Qed.

Lemma col_of_app1 (b : list nat) i : col_of (b ++ [i]) = i.
Proof.
  unfold col_of. rewrite length_app. simpl.
  replace (length b + 1 - 1)%nat with (length b) by lia.
  rewrite app_nth2 by lia. now rewrite Nat.sub_diag.
Qed.

Lemma take_pred_app1 (b : list nat) i :
  take (length (b ++ [i]) - 1) (b ++ [i]) = b.
Proof.
  rewrite length_app. simpl.
  replace (length b + 1 - 1)%nat with (length b) by lia.
  now rewrite take_app_length.
Qed.

Lemma drop_app2 (b : list nat) i j :
  drop (length (b ++ [i; j]) - 2) (b ++ [i; j]) = [i; j].
Proof.
  rewrite length_app. simpl.
  replace (length b + 2 - 2)%nat with (length b) by lia.
  now rewrite drop_app_length.
Qed.

Lemma mat_at_app (t : tensor R) b i j : data t (b ++ [i; j]) = mat_at t b i j.
Proof. reflexivity. Qed.

Lemma bdim_lt n i : (i < n)%nat -> bdim n i = i.
Proof.
  intros Hi. unfold bdim. destruct (Nat.eqb_spec n 1); [lia | reflexivity].
Qed.

Lemma bdim_idem n i : bdim n (bdim n i) = bdim n i.
Proof. unfold bdim. now destruct (Nat.eqb n 1). Qed.

Lemma bindex_nil idx : bindex [] idx = [].
Proof. reflexivity. Qed.

Lemma bindex_app1 s n b i : bindex (s ++ [n]) (b ++ [i]) = bindex s b ++ [bdim n i].
Proof. unfold bindex. now rewrite !rev_app_distr. Qed.

Lemma bindex_app2 s n m b i j :
  bindex (s ++ [n; m]) (b ++ [i; j]) = bindex s b ++ [bdim n i; bdim m j].
Proof.
  change (s ++ [n; m]) with (s ++ [n] ++ [m]).
  change (b ++ [i; j]) with (b ++ [i] ++ [j]).
  rewrite !app_assoc, !bindex_app1, <- app_assoc. reflexivity.
Qed.

Lemma zip_bdim_idem r : forall ri,
  zip_with bdim r (zip_with bdim r ri) = zip_with bdim r ri.
Proof.
  induction r as [|a r IH]; intros [|i ri]; simpl; try reflexivity.
  now rewrite bdim_idem, IH.
Qed.

Lemma bindex_idem s idx : bindex s (bindex s idx) = bindex s idx.
Proof. unfold bindex. now rewrite rev_involutive, zip_bdim_idem. Qed.

Lemma zip_bdim_compose r1 : forall r2 ri,
  expandable_rev r1 r2 -> (length r2 <= length ri)%nat ->
  zip_with bdim r1 (zip_with bdim r2 ri) = zip_with bdim r1 ri.
Proof.
  induction r1 as [|a r1 IH]; intros [|b r2] [|i ri] He Hlen; simpl in *;
    try reflexivity; try tauto; try lia.
  destruct He as [Hab He]. rewrite IH by (assumption || lia). f_equal.
  unfold bdim. destruct Hab as [->| ->]; simpl.
  - now destruct (Nat.eqb b 1).
  - reflexivity.
Qed.

Lemma bindex_compose s1 s2 idx :
  expandable s1 s2 -> (length s2 <= length idx)%nat ->
  bindex s1 (bindex s2 idx) = bindex s1 idx.
Proof.
  intros He Hlen. unfold bindex. rewrite rev_involutive.
  rewrite zip_bdim_compose; [reflexivity | assumption | now rewrite !length_rev].
Qed.

Lemma bindex_length s idx :
  length (bindex s idx) = Nat.min (length s) (length idx).
Proof. unfold bindex. now rewrite length_rev, length_zip_with, !length_rev. Qed.

Lemma Forall2_rev_rev {A B} (P : A -> B -> Prop) l k :
  Forall2 P l k -> Forall2 P (rev l) (rev k).
Proof.
  induction 1; simpl; [constructor|]. apply Forall2_app; auto.
Qed.

Lemma zip_bdim_valid r : forall ri,
  Forall2 lt ri r -> zip_with bdim r ri = ri.
Proof.
  intros ri Hv. induction Hv as [|i n ri r Hi Hv IH]; simpl; [reflexivity|].
  now rewrite bdim_lt, IH.
Qed.

Lemma bindex_valid s idx : valid_index s idx -> bindex s idx = idx.
Proof.
  intros Hv. unfold bindex. rewrite zip_bdim_valid.
  - apply rev_involutive.
  - now apply Forall2_rev_rev.
Qed.

Lemma zip_bdim_app r : forall l1 l2,
  length l1 = length r -> zip_with bdim r (l1 ++ l2) = zip_with bdim r l1.
Proof.
  induction r as [|a r IH]; intros [|i l1] l2 Hlen; simpl in *;
    try reflexivity; try lia.
  now rewrite IH by lia.
Qed.

Lemma bindex_app_l s pre idx :
  length idx = length s -> bindex s (pre ++ idx) = bindex s idx.
Proof.
  intros Hlen. unfold bindex. rewrite rev_app_distr, zip_bdim_app; [reflexivity|].
  now rewrite !length_rev.
Qed.

(** ** Broadcasting *)

Lemma expandable_rev_refl r : expandable_rev r r.
Proof. induction r; simpl; auto. Qed.

Lemma expandable_refl s : expandable s s.
Proof. apply expandable_rev_refl. Qed.

Lemma expandable_nil s : expandable [] s.
Proof. exact I. Qed.

Lemma expandable_rev_trans r1 : forall r2 r3,
  expandable_rev r1 r2 -> expandable_rev r2 r3 -> expandable_rev r1 r3.
Proof.
  induction r1 as [|a r1 IH]; intros [|b r2] [|c r3] H12 H23; simpl in *;
    try tauto.
  destruct H12 as [Hab H12], H23 as [Hbc H23]. split; [|eauto].
  destruct Hab as [->| ->]; auto. 
Qed.

Lemma expandable_trans s1 s2 s3 :
  expandable s1 s2 -> expandable s2 s3 -> expandable s1 s3.
Proof. apply expandable_rev_trans. Qed.

Lemma expandable_rev_length r1 : forall r2,
  expandable_rev r1 r2 -> (length r1 <= length r2)%nat.
Proof.
  induction r1 as [|a r1 IH]; intros [|b r2] He; simpl in *; try lia; try tauto.
  destruct He as [_ He]. apply IH in He. lia.
Qed.

Lemma expandable_length s t : expandable s t -> (length s <= length t)%nat.
Proof.
  intros He. apply expandable_rev_length in He. now rewrite !length_rev in He.
Qed.

Lemma broadcast_dim_expandable a b d :
  broadcast_dim a b = Some d -> (a = d \/ a = 1%nat) /\ (b = d \/ b = 1%nat).
Proof.
  unfold broadcast_dim.
  destruct (Nat.eqb_spec a b); [intros [= <-]; subst; auto|].
  destruct (Nat.eqb_spec a 1); [intros [= <-]; auto|].
  destruct (Nat.eqb_spec b 1); [intros [= <-]; auto | discriminate].
Qed.

Lemma broadcast_rev_expandable r1 : forall r2 r,
  broadcast_rev r1 r2 = Some r -> expandable_rev r1 r /\ expandable_rev r2 r.
Proof.
  induction r1 as [|a r1 IH]; intros r2 r Hb.
  - simpl in Hb. injection Hb as <-. split; [exact I | apply expandable_rev_refl].
  - destruct r2 as [|b r2].
    + simpl in Hb. injection Hb as <-. split; [apply expandable_rev_refl | exact I].
    + simpl in Hb. destruct (broadcast_dim a b) as [d|] eqn:Hd; [|discriminate].
      destruct (broadcast_rev r1 r2) as [r'|] eqn:Hr; [|discriminate].
      injection Hb as <-. apply broadcast_dim_expandable in Hd.
      apply IH in Hr. simpl. tauto.
Qed.

Lemma broadcast_shapes_expandable s1 s2 s :
  broadcast_shapes s1 s2 = Some s -> expandable s1 s /\ expandable s2 s.
Proof.
  unfold broadcast_shapes, expandable.
  destruct (broadcast_rev (rev s1) (rev s2)) as [r|] eqn:Hr; [|discriminate].
  intros [= <-]. rewrite rev_involutive. now apply broadcast_rev_expandable.
Qed.

(** Two shapes that expand to a common shape broadcast together, and the
    result expands to that shape as well. *)
Lemma broadcast_dim_lub a b c :
  (a = c \/ a = 1%nat) -> (b = c \/ b = 1%nat) ->
  exists d, broadcast_dim a b = Some d /\ (d = c \/ d = 1%nat).
Proof.
  intros Ha Hb. unfold broadcast_dim.
  destruct (Nat.eqb_spec a b); [eauto|].
  destruct (Nat.eqb_spec a 1); [eauto|].
  destruct (Nat.eqb_spec b 1); [eauto|]. lia.
Qed.

Lemma broadcast_rev_lub r1 : forall r2 r3,
  expandable_rev r1 r3 -> expandable_rev r2 r3 ->
  exists r, broadcast_rev r1 r2 = Some r /\ expandable_rev r r3.
Proof.
  induction r1 as [|a r1 IH]; intros r2 r3 H1 H2.
  - exists r2. now split.
  - destruct r2 as [|b r2]; [exists (a :: r1); now split|].
    destruct r3 as [|c r3]; [destruct H1|].
    destruct H1 as [Ha H1], H2 as [Hb H2].
    destruct (broadcast_dim_lub a b c Ha Hb) as (d & Hd & Hdc).
    destruct (IH r2 r3 H1 H2) as (r & Hr & Hrc).
    exists (d :: r). simpl. rewrite Hd, Hr. split; [reflexivity | now split].
Qed.

Lemma broadcast_shapes_lub s1 s2 s3 :
  expandable s1 s3 -> expandable s2 s3 ->
  exists s, broadcast_shapes s1 s2 = Some s /\ expandable s s3.
Proof.
  intros H1 H2. destruct (broadcast_rev_lub _ _ _ H1 H2) as (r & Hr & Hrc).
  exists (rev r). unfold broadcast_shapes, expandable. rewrite Hr, rev_involutive.
  now split.
Qed.

Lemma expandable_app_pre s t pre : expandable s t -> expandable s (pre ++ t).
Proof.
  unfold expandable. rewrite rev_app_distr. generalize (rev s) (rev t) (rev pre).
  induction l as [|a l IH]; intros [|b l0] l1 He; simpl in *; try tauto.
  destruct He as [Hab He]. split; [assumption | now apply IH].
Qed.

Lemma expandable_app1 s t n m :
  expandable s t -> n = m \/ n = 1%nat -> expandable (s ++ [n]) (t ++ [m]).
Proof. intros He Hn. unfold expandable. rewrite !rev_app_distr. now split. Qed.

Lemma expandable_app2 s t n m :
  expandable s t -> expandable (s ++ [n; m]) (t ++ [n; m]).
Proof.
  intros He. unfold expandable. rewrite !rev_app_distr. simpl. auto.
Qed.

(** ** Quantifying over a tensor *)

Lemma in_indices s : forall idx, In idx (indices s) <-> valid_index s idx.
Proof.
  unfold valid_index. induction s as [|n s IH]; intros idx; simpl.
  - split.
    + intros [<-|[]]. constructor.
    + intros Hv. inversion Hv. now left.
  - rewrite in_flat_map. split.
    + intros (i & Hi & Hin). apply in_map_iff in Hin as (idx' & <- & Hin).
      apply in_seq in Hi. constructor; [lia | now apply IH].
    + intros Hv. inversion Hv as [|i n' idx' s' Hi Hv']; subst.
      exists i. split; [apply in_seq; lia|].
      apply in_map_iff. exists idx'. split; [reflexivity | now apply IH].
Qed.

Lemma tany_true (t : tensor bool) :
  tany t = true <-> exists idx, valid_index (shape t) idx /\ data t idx = true.
Proof.
  unfold tany. rewrite existsb_exists. split.
  - intros (idx & Hin & Hd). exists idx. split; [now apply in_indices | assumption].
  - intros (idx & Hv & Hd). exists idx. split; [now apply in_indices | assumption].
Qed.

Lemma tany_false (t : tensor bool) :
  tany t = false <-> forall idx, valid_index (shape t) idx -> data t idx = false.
Proof.
  split.
  - intros Hf idx Hv. destruct (data t idx) eqn:Hd; [|reflexivity].
    assert (Ht : tany t = true) by (apply tany_true; eauto). congruence.
  - intros Hall. destruct (tany t) eqn:Ht; [|reflexivity].
    apply tany_true in Ht as (idx & Hv & Hd). rewrite Hall in Hd by assumption.
    discriminate.
Qed.

Lemma tall_true (t : tensor bool) :
  tall t = true <-> forall idx, valid_index (shape t) idx -> data t idx = true.
Proof.
  unfold tall. rewrite forallb_forall. split.
  - intros Hall idx Hv. apply Hall. now apply in_indices.
  - intros Hall idx Hin. apply Hall. now apply in_indices.
Qed.

Lemma Rleb_true a b : Rleb a b = true <-> a <= b.
Proof. unfold Rleb. apply bool_decide_eq_true. Qed.

Lemma Rltb_true a b : Rltb a b = true <-> a < b.
Proof. unfold Rltb. apply bool_decide_eq_true. Qed.

Lemma Rleb_false a b : Rleb a b = false <-> b < a.
Proof. unfold Rleb. rewrite bool_decide_eq_false. lra. Qed.

Lemma Rltb_false a b : Rltb a b = false <-> b <= a.
Proof. unfold Rltb. rewrite bool_decide_eq_false. lra. Qed.

(** ** Reading tensors through a common shape *)

Lemma reads_self {A} (t : tensor A) c :
  expandable (shape t) c ->
  reads t c (fun idx => data t (bindex (shape t) idx)).
Proof. intros He. split; [assumption | reflexivity]. Qed.

Lemma reads_ext {A} (t : tensor A) c g g' :
  reads t c g -> (forall idx, length idx = length c -> g idx = g' idx) ->
  reads t c g'.
Proof.
  intros [He Hg] Hext. split; [assumption|].
  intros idx Hlen. rewrite Hg by assumption. now apply Hext.
Qed.

Lemma reads_tmap {A B} (f : A -> B) (t : tensor A) c g :
  reads t c g -> reads (tmap f t) c (fun idx => f (g idx)).
Proof.
  intros [He Hg]. split; [assumption|].
  intros idx Hlen. simpl. now rewrite Hg.
Qed.

Lemma reads_scalar c v : reads (scalar v) c (fun _ => v).
Proof. split; [apply expandable_nil | reflexivity]. Qed.

Lemma reads_tzip {A B C} (f : A -> B -> C) a b c ga gb :
  reads a c ga -> reads b c gb ->
  rreads (tzip f a b) c (fun idx => f (ga idx) (gb idx)).
Proof.
  intros [Ha Hga] [Hb Hgb]. unfold rreads, tzip.
  destruct (broadcast_shapes_lub _ _ _ Ha Hb) as (s & Hs & Hsc).
  rewrite Hs. eexists. split; [reflexivity|].
  split; [assumption|]. intros idx Hlen. simpl.
  apply broadcast_shapes_expandable in Hs as [Has Hbs].
  apply expandable_length in Hsc.
  rewrite !bindex_compose by (assumption || lia).
  now rewrite Hga, Hgb.
Qed.

Lemma rreads_Ok {A} (t : tensor A) c g : reads t c g -> rreads (Ok t) c g.
Proof. intros Hr. now exists t. Qed.

Lemma rreads_tbin f a b c ga gb :
  rreads a c ga -> rreads b c gb ->
  rreads (tbin f a b) c (fun idx => f (ga idx) (gb idx)).
Proof.
  intros (x & -> & Hx) (y & -> & Hy). unfold tbin. simpl.
  now apply reads_tzip.
Qed.

Lemma rreads_ext {A} (r : result (tensor A)) c g g' :
  rreads r c g -> (forall idx, length idx = length c -> g idx = g' idx) ->
  rreads r c g'.
Proof. intros (t & -> & Ht) Hext. exists t. split; [reflexivity|]. eapply reads_ext; eauto. Qed.

(** A shape of rank at least two splits into batch, rows and columns. *)
Lemma shape_split2 (s : list nat) :
  (2 <= length s)%nat -> s = batch_of s ++ [row_of s; col_of s].
Proof.
  intros Hlen. unfold batch_of, row_of, col_of.
  rewrite <- (take_drop (length s - 2) s) at 1. f_equal.
  assert (Hd : length (drop (length s - 2) s) = 2%nat) by (rewrite length_drop; lia).
  destruct (drop (length s - 2) s) as [|x [|y [|z l]]] eqn:Hdrop; try discriminate.
  assert (Hx : nth (length s - 2) s 0%nat = x).
  { rewrite <- (take_drop (length s - 2) s) at 2. rewrite Hdrop.
    rewrite app_nth2; rewrite length_take; [|lia].
    replace (length s - 2 - (length s - 2) `min` length s)%nat with 0%nat by lia.
    reflexivity. }
  assert (Hy : nth (length s - 1) s 0%nat = y).
  { rewrite <- (take_drop (length s - 2) s) at 2. rewrite Hdrop.
    rewrite app_nth2; rewrite length_take; [|lia].
    replace (length s - 1 - (length s - 2) `min` length s)%nat with 1%nat by lia.
    reflexivity. }
  now rewrite Hx, Hy.
Qed.

Lemma last_app2 (b : list nat) i j : List.last (b ++ [i; j]) 0%nat = j.
Proof.
  change (b ++ [i; j]) with (b ++ [i] ++ [j]). rewrite app_assoc.
  apply last_last.
Qed.


Lemma sum_last_shape (t : tensor R) s n : shape t = s ++ [n] -> shape (sum_last t) = s.
Proof.
  intros Ht. unfold sum_last, dim. cbn [shape]. rewrite Ht, length_app. simpl.
  replace (length s + 1 - 1)%nat with (length s) by lia.
  now rewrite take_app_length.
Qed.

Lemma sum_last_data (t : tensor R) s n b :
  shape t = s ++ [n] -> data (sum_last t) b = rsum n (fun i => data t (b ++ [i])).
Proof. intros Ht. unfold sum_last. cbn [data]. now rewrite Ht, col_of_app1. Qed.

Lemma diagonal_shape (t : tensor R) b n :
  shape t = b ++ [n; n] -> shape (diagonal t) = b ++ [n].
Proof.
  intros Ht. unfold diagonal. cbn [shape].
  now rewrite Ht, batch_of_app2, row_of_app2, col_of_app2, Nat.min_id.
Qed.

Lemma diagonal_data (t : tensor R) b i :
  data (diagonal t) (b ++ [i]) = data t (b ++ [i; i]).
Proof. unfold diagonal. cbn [data]. now rewrite take_pred_app1, col_of_app1. Qed.

Lemma broadcast_dim_refl a : broadcast_dim a a = Some a.
Proof. unfold broadcast_dim. now rewrite Nat.eqb_refl. Qed.

Lemma broadcast_dim_1_l p : broadcast_dim 1 p = Some p.
Proof. unfold broadcast_dim. destruct (Nat.eqb_spec 1 p); [now subst | reflexivity]. Qed.

Lemma broadcast_rev_refl r : broadcast_rev r r = Some r.
Proof.
  induction r as [|a r IH]; simpl; [reflexivity|].
  now rewrite broadcast_dim_refl, IH.
Qed.

Lemma broadcast_shapes_refl s : broadcast_shapes s s = Some s.
Proof. unfold broadcast_shapes. now rewrite broadcast_rev_refl, rev_involutive. Qed.

Lemma broadcast_shapes_nil_l s : broadcast_shapes [] s = Some s.
Proof. unfold broadcast_shapes. simpl. now rewrite rev_involutive. Qed.

Lemma broadcast_shapes_unsqueeze s p :
  broadcast_shapes (s ++ [1%nat]) (s ++ [p]) = Some (s ++ [p]).
Proof.
  unfold broadcast_shapes. rewrite !rev_app_distr. simpl.
  rewrite broadcast_dim_1_l, broadcast_rev_refl. simpl.
  now rewrite rev_involutive.
Qed.

Lemma broadcast_shapes_1_l s p :
  broadcast_shapes [1%nat] (s ++ [p]) = Some (s ++ [p]).
Proof.
  unfold broadcast_shapes. rewrite !rev_app_distr. simpl.
  rewrite broadcast_dim_1_l. simpl. now rewrite rev_involutive.
Qed.

Section TensorFacts.
Context `{Numerics}.

Lemma reads_sum_log_diagonal (L : tensor R) bL n c :
  shape L = bL ++ [n; n] -> expandable bL c ->
  reads (sum_last (tmap ln (diagonal L))) c
        (fun idx => rsum n (fun i => ln (mat_at L (bindex bL idx) i i))).
Proof.
  intros HL He.
  assert (Hsd : shape (tmap ln (diagonal L)) = bL ++ [n])
    by now apply diagonal_shape.
  split.
  - now rewrite (sum_last_shape _ _ _ Hsd).
  - intros idx Hlen. rewrite (sum_last_shape _ _ _ Hsd), (sum_last_data _ _ _ _ Hsd).
    apply rsum_ext. intros i Hi. cbn [tmap data]. now rewrite diagonal_data.
Qed.

Lemma reads_slogdet (v : tensor R) bv n m c :
  shape v = bv ++ [n; m] -> expandable bv c ->
  reads (slogdet_logabsdet v) c
        (fun idx => logabsdet m (mat_at v (bindex bv idx))).
Proof.
  intros Hv He. unfold slogdet_logabsdet.
  split; cbn [shape data]; rewrite Hv, batch_of_app2; [assumption|].
  intros idx Hlen. now rewrite col_of_app2.
Qed.

Lemma reads_cholesky_solve_trace (B L : tensor R) bB bL n c :
  shape B = bB ++ [n; n] -> shape L = bL ++ [n; n] ->
  expandable bB c -> expandable bL c ->
  exists cs, torch_cholesky_solve B L = Ok cs /\
    reads (sum_last (diagonal cs)) c
          (fun idx => trace n (cholesky_solve n (mat_at B (bindex bB idx))
                                              (mat_at L (bindex bL idx)))).
Proof.
  intros HB HL HeB HeL. unfold torch_cholesky_solve.
  rewrite HB, HL, !batch_of_app2, !row_of_app2, !col_of_app2, !Nat.eqb_refl.
  cbn [negb andb].
  destruct (broadcast_shapes_lub _ _ _ HeB HeL) as (s & Hs & Hsc).
  rewrite Hs. eexists. split; [reflexivity|].
  set (cs := Tensor _ _).
  assert (Hsd : shape (diagonal cs) = s ++ [n]) by now apply diagonal_shape.
  split.
  - now rewrite (sum_last_shape _ _ _ Hsd).
  - intros idx Hlen. rewrite (sum_last_shape _ _ _ Hsd), (sum_last_data _ _ _ _ Hsd).
    unfold trace. apply rsum_ext. intros i Hi.
    rewrite diagonal_data. unfold cs. cbn [data].
    rewrite batch_of_app2, row_of_app2, col_of_app2.
    apply broadcast_shapes_expandable in Hs as [HBs HLs].
    apply expandable_length in Hsc.
    now rewrite !bindex_compose by (assumption || lia).
Qed.

Lemma mvdigamma_domain (x : tensor R) p :
  tall (tmap (fun v => Rltb ((INR p - 1) / 2) v) x) = true <->
  forall idx, valid_index (shape x) idx -> (INR p - 1) / 2 < data x idx.
Proof.
  rewrite tall_true. cbn [tmap shape data]. split; intros Hall idx Hv.
  - apply Rltb_true. now apply Hall.
  - apply Rltb_true. now apply Hall.
Qed.

Lemma mvdigamma_reads (x : tensor R) p c g :
  reads x c g ->
  (forall idx, valid_index (shape x) idx -> (INR p - 1) / 2 < data x idx) ->
  rreads (_mvdigamma x p) c
         (fun idx => rsum p (fun i => digamma (g idx - INR i / 2))).
Proof.
  intros [He Hg] Hdom. unfold _mvdigamma.
  rewrite (proj2 (mvdigamma_domain x p)) by assumption. cbn [negb].
  unfold tzip. cbn [shape unsqueeze_last expand].
  rewrite broadcast_shapes_unsqueeze. cbn [mbind result_bind].
  eexists. split; [reflexivity|].
  set (d := Tensor _ _).
  assert (Hsd : shape (tmap digamma d) = shape x ++ [p]) by reflexivity.
  split.
  - now rewrite (sum_last_shape _ _ _ Hsd).
  - intros idx Hlen. rewrite (sum_last_shape _ _ _ Hsd), (sum_last_data _ _ _ _ Hsd).
    apply rsum_ext. intros i Hi. unfold d. cbn [tmap data arange shape].
    rewrite !bindex_app1. cbn [tmap data arange shape unsqueeze_last expand].
    rewrite take_pred_app1, bindex_idem, Hg by assumption.
    change [p] with ([] ++ [p]). rewrite bindex_app1, bindex_nil. cbn [app nth].
    rewrite bdim_idem, bdim_lt by assumption. reflexivity.
Qed.

End TensorFacts.

(** ** The constructor *)

Section Constructor.
Context `{Numerics} `{RandomSource}.

(** What a successful construction establishes. *)
Lemma Wishart_init_inv df_in cov prec tril va w self w' :
  Wishart_init df_in cov prec tril va w = (Ok self, w') ->
  exists param,
    (is_not_None cov + is_not_None tril + is_not_None prec = 1)%nat /\
    next_not_none [cov; prec; tril] = Ok param /\
    (2 <= dim param)%nat /\
    resolve_batch df_in param = Ok (_batch_shape self, df self) /\
    _event_shape self = drop (length (shape param) - 2) (shape param) /\
    tany (tmap (fun x => Rleb x (IZR (Z.of_nat (event_dim self) - 1))) (df self))
      = false /\
    __dict__ self = stored_attrs tril cov prec
                      (expand param (_batch_shape self ++ _event_shape self)) /\
    resolve_scale_tril tril cov prec = Ok (_unbroadcasted_scale_tril self) /\
    chi2_df (df self) (_batch_shape self) (event_dim self) = Ok (_dist_chi2 self) /\
    _batch_dims self = map (fun x => (- (Z.of_nat x + 1))%Z)
                           (seq 0 (length (_batch_shape self))) /\
    _validate_args self = default (default_validate_args w) va /\
    (_validate_args self = true ->
     args_valid (<["df" := greater_than (Z.of_nat (event_dim self) - 1)]>
                   (arg_constraints w))
                (<["df" := df self]> (__dict__ self)) = true) /\
    w' = World (generator w) (tracing_state w) (default_validate_args w)
               (<["df" := greater_than (Z.of_nat (event_dim self) - 1)]>
                  (arg_constraints w))
               (if tany (tmap (fun x => Rltb x (IZR (Z.of_nat (event_dim self))))
                              (df self))
                then low_df_warning :: warnings_log w else warnings_log w)
               (sampling_log w).
Proof.
  unfold Wishart_init.
  destruct (Nat.eqb_spec (is_not_None cov + is_not_None tril + is_not_None prec) 1)
    as [Hcount|]; [|discriminate].
  cbn [negb]. unfold mbind, M_bind, lift.
  destruct (next_not_none [cov; prec; tril]) as [param|] eqn:Hparam; [|discriminate].
  destruct (Nat.ltb_spec (dim param) 2) as [|Hdim]; [discriminate|].
  destruct (resolve_batch df_in param) as [[bs sdf]|] eqn:Hbatch; [|discriminate].
  cbn [fst snd].
  destruct (tany (tmap (fun x => Rleb x _) sdf)) eqn:Hle; [discriminate|].
  unfold set_arg_constraint at 1.
  set (w1 := World _ _ _ _ _ _).
  destruct (tany (tmap (fun x => Rltb x _) sdf)) eqn:Hlt.
  - unfold warn. set (w2 := World _ _ _ _ _ _).
    unfold Distribution_init, mbind, M_bind, get_world, mret, M_ret, raise.
    destruct (default (default_validate_args w2) va && _) eqn:Hval; [discriminate|].
    destruct (resolve_scale_tril tril cov prec) as [L|] eqn:HL; [|discriminate].
    destruct (chi2_df sdf bs _) as [dfs|] eqn:Hchi; [|discriminate].
    intros [= <- <-]. exists param. unfold event_dim.
    cbn [df _batch_shape _event_shape _validate_args _batch_dims
         _unbroadcasted_scale_tril _dist_chi2 __dict__].
    rewrite Hle, Hlt.
    repeat split; try assumption; try reflexivity.
    intros Hv. try unfold w2 in Hval. unfold w1 in Hval.
    cbn [default_validate_args arg_constraints] in Hval.
    rewrite Hv in Hval. cbn [andb] in Hval.
    now apply negb_false_iff in Hval.
  - unfold mret at 1, M_ret at 1.
    unfold Distribution_init, mbind, M_bind, get_world, mret, M_ret, raise.
    destruct (default (default_validate_args w1) va && _) eqn:Hval; [discriminate|].
    destruct (resolve_scale_tril tril cov prec) as [L|] eqn:HL; [|discriminate].
    destruct (chi2_df sdf bs _) as [dfs|] eqn:Hchi; [|discriminate].
    intros [= <- <-]. exists param. unfold event_dim.
    cbn [df _batch_shape _event_shape _validate_args _batch_dims
         _unbroadcasted_scale_tril _dist_chi2 __dict__].
    rewrite Hle, Hlt.
    repeat split; try assumption; try reflexivity.
    intros Hv. try unfold w2 in Hval. unfold w1 in Hval.
    cbn [default_validate_args arg_constraints] in Hval.
    rewrite Hv in Hval. cbn [andb] in Hval.
    now apply negb_false_iff in Hval.
Qed.


(** Conversely, the constructor succeeds as soon as each of its checks
    passes. *)
Lemma Wishart_init_ok df_in cov prec tril va w param bs sdf L dfs :
  (is_not_None cov + is_not_None tril + is_not_None prec = 1)%nat ->
  next_not_none [cov; prec; tril] = Ok param ->
  (2 <= dim param)%nat ->
  resolve_batch df_in param = Ok (bs, sdf) ->
  let event_shape := drop (length (shape param) - 2) (shape param) in
  let p := List.last event_shape 0%nat in
  let dict := stored_attrs tril cov prec (expand param (bs ++ event_shape)) in
  let constraints := <["df" := greater_than (Z.of_nat p - 1)]> (arg_constraints w) in
  tany (tmap (fun x => Rleb x (IZR (Z.of_nat p - 1))) sdf) = false ->
  (default (default_validate_args w) va = true ->
   args_valid constraints (<["df" := sdf]> dict) = true) ->
  resolve_scale_tril tril cov prec = Ok L ->
  chi2_df sdf bs p = Ok dfs ->
  Wishart_init df_in cov prec tril va w =
    (Ok {| df := sdf;
           _batch_shape := bs;
           _event_shape := event_shape;
           _validate_args := default (default_validate_args w) va;
           _batch_dims := map (fun x => (- (Z.of_nat x + 1))%Z) (seq 0 (length bs));
           _unbroadcasted_scale_tril := L;
           _dist_chi2 := dfs;
           __dict__ := dict |},
     World (generator w) (tracing_state w) (default_validate_args w) constraints
           (if tany (tmap (fun x => Rltb x (IZR (Z.of_nat p))) sdf)
            then low_df_warning :: warnings_log w else warnings_log w)
           (sampling_log w)).
Proof.
  intros Hcount Hparam Hdim Hbatch event_shape p dict constraints Hle Hval HL Hchi.
  unfold Wishart_init. rewrite Hcount. cbn [Nat.eqb negb].
  unfold mbind, M_bind, lift. rewrite Hparam.
  destruct (Nat.ltb_spec (dim param) 2) as [|_]; [lia|].
  rewrite Hbatch. cbn [fst snd]. fold event_shape. fold p. rewrite Hle.
  unfold set_arg_constraint at 1. fold constraints.
  destruct (tany (tmap (fun x => Rltb x _) sdf)).
  - unfold warn, Distribution_init, mbind, M_bind, get_world, mret, M_ret, raise.
    cbn [default_validate_args arg_constraints].
    destruct (default (default_validate_args w) va) eqn:Hv.
    + fold dict. rewrite Hval by reflexivity. cbn [negb andb]. fold dict.
      now rewrite HL, Hchi.
    + cbn [andb]. now rewrite HL, Hchi.
  - unfold Distribution_init, mbind, M_bind, get_world, mret, M_ret, raise.
    cbn [default_validate_args arg_constraints].
    destruct (default (default_validate_args w) va) eqn:Hv.
    + fold dict. rewrite Hval by reflexivity. cbn [negb andb].
      now rewrite HL, Hchi.
    + cbn [andb]. now rewrite HL, Hchi.
Qed.

Lemma resolve_batch_inv df_in param bs sdf :
  resolve_batch df_in param = Ok (bs, sdf) ->
  expandable (batch_of (shape param)) bs /\
  (shape sdf = [] \/ shape sdf = bs).
Proof.
  unfold resolve_batch. destruct df_in as [x|t].
  - intros [= <- <-]. split; [apply expandable_refl | now left].
  - destruct (broadcast_shapes _ _) as [s|] eqn:Hs; [|discriminate].
    intros [= <- <-]. apply broadcast_shapes_expandable in Hs as [Hp _].
    split; [assumption | now right].
Qed.

Lemma chi2_df_ok sdf bs p :
  shape sdf = [] \/ shape sdf = bs ->
  exists dfs, chi2_df sdf bs p = Ok dfs /\
    shape dfs = bs ++ [p] /\
    forall b i, (i < p)%nat ->
      data dfs (b ++ [i]) = data sdf (bindex (shape sdf) b) - INR i.
Proof.
  intros Hs. unfold chi2_df, tzip. cbn [shape unsqueeze_last expand].
  assert (Hb : broadcast_shapes (shape sdf ++ [1%nat]) (bs ++ [p]) = Some (bs ++ [p])).
  { destruct Hs as [-> | ->];
      [apply broadcast_shapes_1_l | apply broadcast_shapes_unsqueeze]. }
  rewrite Hb. eexists. split; [reflexivity|]. split; [reflexivity|].
  intros b i Hi. cbn [data unsqueeze_last expand arange shape].
  rewrite !bindex_app1, take_pred_app1.
  change [p] with ([] ++ [p]). rewrite bindex_app1, bindex_nil. cbn [app nth].
  now rewrite bdim_idem, bdim_lt by assumption.
Qed.

Lemma lift_factor_inv f (t L : tensor R) :
  lift_factor f t = Ok L ->
  shape L = shape t /\ row_of (shape t) = col_of (shape t) /\
  forall b, valid_index (batch_of (shape t)) b ->
    exists F, f (col_of (shape t)) (mat_at t b) = Some F /\
      forall i j, mat_at L b i j = F i j.
Proof.
  unfold lift_factor.
  destruct (Nat.eqb_spec (row_of (shape t)) (col_of (shape t))) as [Hsq|];
    [|discriminate]. cbn [negb].
  destruct (forallb _ _) eqn:Hall; [|discriminate].
  intros [= <-]. split; [reflexivity|]. split; [assumption|].
  intros b Hb. rewrite forallb_forall in Hall.
  specialize (Hall b (proj2 (in_indices _ _) Hb)).
  apply bool_decide_eq_true in Hall as [F HF]. exists F. split; [assumption|].
  intros i j. unfold mat_at. cbn [data].
  rewrite batch_of_app2, row_of_app2, col_of_app2.
  fold (mat_at t b). now rewrite HF.
Qed.

Lemma last_drop2 (s : list nat) :
  (2 <= length s)%nat ->
  drop (length s - 2) s = [row_of s; col_of s] /\
  List.last (drop (length s - 2) s) 0%nat = col_of s.
Proof.
  intros Hlen. assert (E := shape_split2 s Hlen).
  remember (batch_of s) as b. remember (row_of s) as r. remember (col_of s) as c.
  rewrite E, drop_app2. split; reflexivity.
Qed.

Lemma resolve_scale_tril_shape cov prec tril param L :
  (is_not_None cov + is_not_None tril + is_not_None prec = 1)%nat ->
  next_not_none [cov; prec; tril] = Ok param ->
  resolve_scale_tril tril cov prec = Ok L ->
  shape L = shape param.
Proof.
  unfold resolve_scale_tril.
  destruct cov as [c|], prec as [q|], tril as [t|]; cbn; try lia; intros _.
  - intros [= <-] HL. now apply lift_factor_inv in HL as [-> _].
  - intros [= <-] HL. now apply lift_factor_inv in HL as [-> _].
  - now intros [= <-] [= <-].
Qed.

Lemma df_bound_iff (sdf : tensor R) (p : nat) :
  tany (tmap (fun x => Rleb x (IZR (Z.of_nat p - 1))) sdf) = false <->
  forall idx, valid_index (shape sdf) idx -> INR p - 1 < data sdf idx.
Proof.
  rewrite tany_false. cbn [tmap shape data].
  rewrite minus_IZR, <- INR_IZR_INZ.
  split; intros Hall idx Hv; apply Rleb_false; now apply Hall.
Qed.

Lemma low_df_iff (sdf : tensor R) (p : nat) :
  tany (tmap (fun x => Rltb x (IZR (Z.of_nat p))) sdf) = true <->
  exists idx, valid_index (shape sdf) idx /\ data sdf idx < INR p.
Proof.
  rewrite tany_true. cbn [tmap shape data]. rewrite <- INR_IZR_INZ.
  split; intros (idx & Hv & Hd); exists idx; (split; [assumption|]);
    now apply Rltb_true.
Qed.

(** The shapes held by a constructed instance. *)
Lemma constructed_facts self :
  constructed self ->
  exists bL n,
    shape (_unbroadcasted_scale_tril self) = bL ++ [n; event_dim self] /\
    _event_shape self = [n; event_dim self] /\
    expandable bL (_batch_shape self) /\
    expandable (shape (df self)) (_batch_shape self) /\
    (forall idx, valid_index (shape (df self)) idx ->
                 INR (event_dim self) - 1 < data (df self) idx) /\
    shape (_dist_chi2 self) = _batch_shape self ++ [event_dim self] /\
    (forall b i, (i < event_dim self)%nat ->
       data (_dist_chi2 self) (b ++ [i])
       = data (df self) (bindex (shape (df self)) b) - INR i).
Proof.
  intros (df_in & cov & prec & tril & va & w & w' & Hinit).
  apply Wishart_init_inv in Hinit
    as (param & Hcount & Hparam & Hdim & Hbatch & Hev & Hle & _ & HL & Hchi & _).
  destruct (last_drop2 (shape param) Hdim) as [Hdrop Hlast].
  assert (Hp : event_dim self = col_of (shape param)).
  { unfold event_dim. now rewrite Hev. }
  apply resolve_batch_inv in Hbatch as [Hexp Hsdf].
  destruct (chi2_df_ok (df self) (_batch_shape self) (event_dim self) Hsdf)
    as (dfs & Hdfs & Hshape & Hdata).
  rewrite Hchi in Hdfs. injection Hdfs as <-.
  exists (batch_of (shape param)), (row_of (shape param)).
  rewrite (resolve_scale_tril_shape _ _ _ _ _ Hcount Hparam HL), Hev, Hp, Hdrop.
  repeat split.
  - now apply shape_split2.
  - assumption.
  - destruct Hsdf as [-> | ->]; [apply expandable_nil | apply expandable_refl].
  - rewrite <- Hp. now apply df_bound_iff.
  - now rewrite <- Hp.
  - rewrite <- Hp. assumption.
Qed.

End Constructor.

Section ConstructorExamples.
Context `{Numerics} `{RandomSource}.

(** Constructing from [scale_tril] and a number, validation off. *)
Lemma init_scale_tril_number (x : R) (t : tensor R) (w : world) :
  (2 <= dim t)%nat ->
  INR (col_of (shape t)) - 1 < x ->
  exists self,
    Wishart_init (DfNumber x) None None (Some t) (Some false) w
    = (Ok self,
       World (generator w) (tracing_state w) (default_validate_args w)
             (<["df" := greater_than (Z.of_nat (col_of (shape t)) - 1)]>
                (arg_constraints w))
             (if Rltb x (INR (col_of (shape t)))
              then low_df_warning :: warnings_log w else warnings_log w)
             (sampling_log w))
    /\ df self = scalar x
    /\ _batch_shape self = batch_of (shape t)
    /\ _event_shape self = [row_of (shape t); col_of (shape t)]
    /\ _validate_args self = false
    /\ _unbroadcasted_scale_tril self = t
    /\ __dict__ self
       = {[ "scale_tril" := expand t (batch_of (shape t)
                                       ++ [row_of (shape t); col_of (shape t)]) ]}.
Proof.
  intros Hdim Hx.
  destruct (last_drop2 (shape t) Hdim) as [Hdrop Hlast].
  destruct (chi2_df_ok (scalar x) (batch_of (shape t)) (col_of (shape t)))
    as (dfs & Hdfs & _); [now left|].
  eexists. split.
  - rewrite (Wishart_init_ok (DfNumber x) None None (Some t) (Some false) w t
               (batch_of (shape t)) (scalar x) t dfs);
      try reflexivity; try assumption.
    + rewrite Hlast. f_equal. f_equal.
      unfold tany. cbn [shape tmap indices existsb data scalar orb].
      now rewrite orb_false_r, <- INR_IZR_INZ.
    + rewrite Hlast. apply df_bound_iff. intros idx _. exact Hx.
    + discriminate.
    + now rewrite Hlast.
  - cbn [df _batch_shape _event_shape _validate_args _unbroadcasted_scale_tril
         __dict__ default stored_attrs].
    rewrite Hdrop. repeat split; reflexivity.
Qed.

End ConstructorExamples.


(** ** Construction: the claims *)

Section ConstructorClaims.
Context `{Numerics} `{RandomSource}.

(** C5. Whenever some element of [df] is at most [p - 1] the constructor
    raises [ValueError] (an [InvalidArgument]) and changes nothing. Whenever
    every element exceeds [p - 1], the factorization of the parameter
    succeeds and the arguments pass validation (or validation is off), the
    constructor returns an instance, and [warnings.warn] is called with the
    low-df message exactly when some element of [df] is below [p]. *)
Theorem init_df_boundary df_in cov prec tril va w param bs sdf :
  (is_not_None cov + is_not_None tril + is_not_None prec = 1)%nat ->
  next_not_none [cov; prec; tril] = Ok param ->
  (2 <= dim param)%nat ->
  resolve_batch df_in param = Ok (bs, sdf) ->
  let event_shape := drop (length (shape param) - 2) (shape param) in
  let p := List.last event_shape 0%nat in
  ((exists idx, valid_index (shape sdf) idx /\ data sdf idx <= INR p - 1) ->
   exists e, Wishart_init df_in cov prec tril va w = (Raise e, w)
             /\ e = ValueError /\ InvalidArgument e)
  /\
  ((forall idx, valid_index (shape sdf) idx -> INR p - 1 < data sdf idx) ->
   forall L,
     resolve_scale_tril tril cov prec = Ok L ->
     (default (default_validate_args w) va = true ->
      args_valid (<["df" := greater_than (Z.of_nat p - 1)]> (arg_constraints w))
                 (<["df" := sdf]>
                    (stored_attrs tril cov prec (expand param (bs ++ event_shape))))
      = true) ->
     exists self w',
       Wishart_init df_in cov prec tril va w = (Ok self, w') /\
       df self = sdf /\
       ((exists idx, valid_index (shape sdf) idx /\ data sdf idx < INR p) ->
        warnings_log w' = low_df_warning :: warnings_log w) /\
       (~ (exists idx, valid_index (shape sdf) idx /\ data sdf idx < INR p) ->
        warnings_log w' = warnings_log w)).
Proof.
  intros Hcount Hparam Hdim Hbatch event_shape p. split.
  - intros (idx & Hv & Hd). exists ValueError.
    split; [|split; [reflexivity | now right]].
    unfold Wishart_init. rewrite Hcount. cbn [Nat.eqb negb].
    unfold mbind, M_bind, lift. rewrite Hparam.
    destruct (Nat.ltb_spec (dim param) 2) as [|_]; [lia|].
    rewrite Hbatch. cbn [fst snd]. fold event_shape. fold p.
    destruct (tany (tmap (fun x => Rleb x _) sdf)) eqn:Hle; [reflexivity|].
    assert (Hb := proj1 (df_bound_iff sdf p) Hle idx Hv). lra.
  - intros Hall L HL Hval.
    destruct (resolve_batch_inv _ _ _ _ Hbatch) as [_ Hsdf].
    destruct (chi2_df_ok sdf bs p Hsdf) as (dfs & Hdfs & _).
    eexists. eexists. split.
    + apply (Wishart_init_ok df_in cov prec tril va w param bs sdf L dfs);
        try assumption. now apply (proj2 (df_bound_iff sdf p)).
    + cbn [df warnings_log]. fold event_shape. fold p.
      split; [reflexivity|]. split.
      * intros Hlow. now rewrite (proj2 (low_df_iff sdf p) Hlow).
      * intros Hnot. destruct (tany _) eqn:Hlow; [|reflexivity].
        contradict Hnot. exact (proj1 (low_df_iff sdf p) Hlow).
Qed.

(** C6. The constructor raises [AssertionError] (an [InvalidArgument]) when
    the number of parameterizations passed is not one, and [ValueError]
    (again an [InvalidArgument]) when the one passed has fewer than two
    axes. An instance it returns holds as its scale factor [scale_tril]
    itself, the Cholesky factor of [covariance_matrix], or
    [_precision_to_scale_tril] of [precision_matrix]; and it returns an
    instance whenever exactly one parameterization of rank at least two is
    passed and the remaining checks pass. *)
Theorem init_parameterization df_in cov prec tril va w :
  let count := (is_not_None cov + is_not_None tril + is_not_None prec)%nat in
  (count <> 1%nat ->
   exists e, Wishart_init df_in cov prec tril va w = (Raise e, w)
             /\ e = AssertionError /\ InvalidArgument e)
  /\
  (count = 1%nat ->
   forall param, next_not_none [cov; prec; tril] = Ok param ->
     (dim param < 2)%nat ->
     exists e, Wishart_init df_in cov prec tril va w = (Raise e, w)
               /\ e = ValueError /\ InvalidArgument e)
  /\
  (forall self w',
     Wishart_init df_in cov prec tril va w = (Ok self, w') ->
     match tril, cov, prec with
     | Some t, None, None => _unbroadcasted_scale_tril self = t
     | None, Some c, None =>
         lift_factor linalg_cholesky c = Ok (_unbroadcasted_scale_tril self)
     | None, None, Some q =>
         lift_factor _precision_to_scale_tril q
         = Ok (_unbroadcasted_scale_tril self)
     | _, _, _ => False
     end)
  /\
  (count = 1%nat ->
   forall param bs sdf L,
     next_not_none [cov; prec; tril] = Ok param ->
     (2 <= dim param)%nat ->
     resolve_batch df_in param = Ok (bs, sdf) ->
     let event_shape := drop (length (shape param) - 2) (shape param) in
     let p := List.last event_shape 0%nat in
     (forall idx, valid_index (shape sdf) idx -> INR p - 1 < data sdf idx) ->
     (default (default_validate_args w) va = true ->
      args_valid (<["df" := greater_than (Z.of_nat p - 1)]> (arg_constraints w))
                 (<["df" := sdf]>
                    (stored_attrs tril cov prec (expand param (bs ++ event_shape))))
      = true) ->
     resolve_scale_tril tril cov prec = Ok L ->
     exists self w',
       Wishart_init df_in cov prec tril va w = (Ok self, w') /\
       _unbroadcasted_scale_tril self = L).
Proof.
  intros count. repeat split.
  - intros Hcount. exists AssertionError.
    split; [|split; [reflexivity | now left]].
    unfold Wishart_init. fold count.
    destruct (Nat.eqb_spec count 1); [contradiction | reflexivity].
  - intros Hcount param Hparam Hdim. exists ValueError.
    split; [|split; [reflexivity | now right]].
    unfold Wishart_init. fold count. rewrite Hcount. cbn [Nat.eqb negb].
    unfold mbind, M_bind, lift. rewrite Hparam.
    destruct (Nat.ltb_spec (dim param) 2) as [_|]; [reflexivity | lia].
  - intros self w' Hinit.
    apply Wishart_init_inv in Hinit as (param & Hcount & _ & _ & _ & _ & _ & _ & HL & _).
    unfold resolve_scale_tril in HL.
    destruct tril as [t|], cov as [c|], prec as [q|]; cbn in Hcount; try lia.
    + now injection HL.
    + assumption.
    + assumption.
  - intros Hcount param bs sdf L Hparam Hdim Hbatch event_shape p Hall Hval HL.
    destruct (resolve_batch_inv _ _ _ _ Hbatch) as [_ Hsdf].
    destruct (chi2_df_ok sdf bs p Hsdf) as (dfs & Hdfs & _).
    eexists. eexists. split.
    + apply (Wishart_init_ok df_in cov prec tril va w param bs sdf L dfs);
        try assumption. now apply (proj2 (df_bound_iff sdf p)).
    + reflexivity.
Qed.

(** C10. Every successful construction overwrites the ["df"] entry of the
    class dictionary [arg_constraints] with [greater_than (p - 1)], [p] the
    dimension of the instance being constructed. The dictionary read through
    any instance is that one dictionary: after a second construction the
    first instance, too, finds the constraint of the second. *)
Theorem arg_constraints_shared
    df1 cov1 prec1 tril1 va1 df2 cov2 prec2 tril2 va2 w a w1 b w2 :
  Wishart_init df1 cov1 prec1 tril1 va1 w = (Ok a, w1) ->
  Wishart_init df2 cov2 prec2 tril2 va2 w1 = (Ok b, w2) ->
  arg_constraints w1
    = <["df" := greater_than (Z.of_nat (event_dim a) - 1)]> (arg_constraints w) /\
  arg_constraints w2
    = <["df" := greater_than (Z.of_nat (event_dim b) - 1)]> (arg_constraints w) /\
  fst (instance_arg_constraints a w1) = Ok (arg_constraints w1) /\
  fst (instance_arg_constraints a w2) = Ok (arg_constraints w2) /\
  fst (instance_arg_constraints b w2) = Ok (arg_constraints w2) /\
  arg_constraints w2 !! "df" = Some (greater_than (Z.of_nat (event_dim b) - 1)).
Proof.
  intros Ha Hb.
  apply Wishart_init_inv in Ha as (_ & _ & _ & _ & _ & _ & _ & _ & _ & _ & _ & _ & _ & ->).
  apply Wishart_init_inv in Hb as (_ & _ & _ & _ & _ & _ & _ & _ & _ & _ & _ & _ & _ & ->).
  cbn [arg_constraints]. rewrite insert_insert_eq.
  repeat split; try reflexivity. apply lookup_insert_eq.
Qed.

End ConstructorClaims.

Lemma init_df_boundary_witness :
  (exists self w',
     @Wishart_init example_numerics replay (DfTensor df_example) None None
                   (Some (torch_eye 2)) (Some false) (fresh_world [])
     = (Ok self, w')
     /\ warnings_log w' = [low_df_warning])
  /\
  (exists e,
     @Wishart_init example_numerics replay (DfNumber 1) None None
                   (Some (torch_eye 2)) (Some false) (fresh_world [])
     = (Raise e, fresh_world [])
     /\ InvalidArgument e).
Proof.
  split.
  - destruct (@init_df_boundary example_numerics replay
                (DfTensor df_example) None None (Some (torch_eye 2)) (Some false)
                (fresh_world []) (torch_eye 2) [2%nat] (expand df_example [2%nat]))
      as [_ Hacc]; try reflexivity.
    destruct (Hacc) with (L := torch_eye 2) as (self & w' & Hinit & _ & Hlow & _).
    + intros idx Hv. cbn in Hv. cbn.
      destruct (Nat.eqb _ 0); lra.
    + reflexivity.
    + discriminate.
    + exists self, w'. split; [exact Hinit|]. apply Hlow.
      exists [0%nat]. split.
      * repeat constructor.
      * cbn. lra.
  - destruct (@init_df_boundary example_numerics replay
                (DfNumber 1) None None (Some (torch_eye 2)) (Some false)
                (fresh_world []) (torch_eye 2) [] (scalar 1))
      as [Hrej _]; try reflexivity.
    destruct Hrej as (e & He & _ & Hinv).
    + exists []. split; [constructor | cbn; lra].
    + now exists e.
Defined.

Lemma arg_constraints_shared_witness :
  exists a w1 b w2,
    @Wishart_init example_numerics replay (DfNumber 1) None None
                  (Some (torch_eye 1)) (Some false) (fresh_world []) = (Ok a, w1)
    /\ @Wishart_init example_numerics replay (DfNumber 3) None None
                     (Some (torch_eye 3)) (Some false) w1 = (Ok b, w2)
    /\ arg_constraints w1 !! "df" = Some (greater_than 0)
    /\ fst (instance_arg_constraints a w2) = Ok (arg_constraints w2)
    /\ arg_constraints w2 !! "df" = Some (greater_than 2).
Proof.
  destruct (@init_scale_tril_number example_numerics replay 1 (torch_eye 1)
              (fresh_world [])) as (a & Ha & _); [cbn; lia | cbn; lra |].
  match type of Ha with _ = (_, ?w) => set (w1 := w) in * end.
  destruct (@init_scale_tril_number example_numerics replay 3 (torch_eye 3) w1)
    as (b & Hb & _ & _ & Hev & _); [cbn; lia | cbn; lra |].
  match type of Hb with _ = (_, ?w) => set (w2 := w) in * end.
  destruct (@arg_constraints_shared example_numerics replay
              _ _ _ _ _ _ _ _ _ _ _ _ _ _ _ Ha Hb)
    as (H1 & _ & _ & Hread & _ & Hdf).
  exists a, w1, b, w2.
  split; [exact Ha|]. split; [exact Hb|]. split; [|split].
  - reflexivity.
  - exact Hread.
  - rewrite Hdf. unfold event_dim. rewrite Hev. reflexivity.
Defined.

(** ** Density and entropy *)

Section Density.
Context `{Numerics} `{RandomSource}.

Lemma matmul_transpose_ok (L : tensor R) bL n m :
  shape L = bL ++ [n; m] ->
  exists c, matmul L (transpose_last L) = Ok c /\
    shape c = bL ++ [n; n] /\
    forall b i j,
      data c (b ++ [i; j])
      = mmul m (mat_at L (bindex bL b)) (transpose (mat_at L (bindex bL b))) i j.
Proof.
  intros HL. unfold matmul. cbn [shape transpose_last].
  rewrite HL, !batch_of_app2, !row_of_app2, !col_of_app2, Nat.eqb_refl.
  cbn [negb]. rewrite broadcast_shapes_refl.
  eexists. split; [reflexivity|]. split; [reflexivity|].
  intros b i j. cbn [data].
  rewrite batch_of_app2, row_of_app2, col_of_app2.
  apply mmul_ext; [reflexivity|].
  intros k _. unfold mat_at, transpose. cbn [data transpose_last].
  now rewrite batch_of_app2, row_of_app2, col_of_app2.
Qed.

Lemma covariance_matrix_ok self :
  constructed self -> exists V, covariance_matrix_of self = Ok V.
Proof.
  intros Hc. destruct (constructed_facts self Hc) as (bL & n & HL & _).
  unfold covariance_matrix_of. destruct (__dict__ self !! "covariance_matrix"); [eauto|].
  destruct (matmul_transpose_ok _ _ _ _ HL) as (c & -> & _). cbn. eauto.
Qed.

Lemma half_df_in_domain self :
  constructed self ->
  forall idx, valid_index (shape (tmap (fun v => v / 2) (df self))) idx ->
    (INR (event_dim self) - 1) / 2 < data (tmap (fun v => v / 2) (df self)) idx.
Proof.
  intros Hc idx Hv. destruct (constructed_facts self Hc) as (_ & _ & _ & _ & _ & _ & Hdf & _).
  cbn [tmap shape data] in *. specialize (Hdf idx Hv). lra.
Qed.

(** C3. For a constructed distribution of dimension [p] (event shape
    [(p, p)]) [entropy()] returns a tensor which, expanded to the batch
    shape, holds at every index the closed form
    [(p+1) * sum (log (diag L)) + p (p+1) log 2 / 2 + mvlgamma (df/2, p)
     - ((df-p-1)/2) * mvdigamma (df/2, p) + df p / 2].
    [_mvdigamma x p] is the sum of [digamma (x - i/2)] for [i < p] when
    every element of [x] exceeds [(p-1)/2], and fails its assertion as soon
    as one element does not. *)
Theorem entropy_formula self :
  constructed self ->
  _event_shape self = [event_dim self; event_dim self] ->
  let p := event_dim self in
  let L := _unbroadcasted_scale_tril self in
  (exists t,
     entropy self = Ok t /\
     expandable (shape t) (_batch_shape self) /\
     forall idx, length idx = length (_batch_shape self) ->
       let nu := data (df self) (bindex (shape (df self)) idx) in
       let Lb := mat_at L (bindex (batch_of (shape L)) idx) in
       data (expand t (_batch_shape self)) idx
       = INR (p + 1) * rsum p (fun i => ln (Lb i i))
         + INR p * INR (p + 1) * ln 2 / 2
         + mvlgamma (nu / 2) p
         - (nu - INR p - 1) / 2 * rsum p (fun i => digamma (nu / 2 - INR i / 2))
         + nu * INR p / 2)
  /\
  (forall (x : tensor R) (q : nat),
     ((forall idx, valid_index (shape x) idx -> (INR q - 1) / 2 < data x idx) ->
      exists t, _mvdigamma x q = Ok t /\ shape t = shape x /\
        forall idx, valid_index (shape x) idx ->
          data t idx = rsum q (fun i => digamma (data x idx - INR i / 2)))
     /\
     ((exists idx, valid_index (shape x) idx /\ data x idx <= (INR q - 1) / 2) ->
      _mvdigamma x q = Raise AssertionError)).
Proof.
  intros Hc Hsq p L. split.
  - destruct (constructed_facts self Hc)
      as (bL & n & HL & Hev & HbL & Hdf & Hbound & _).
    rewrite Hsq in Hev. injection Hev as <-. fold p in HL. fold L in HL.
    unfold entropy. destruct (covariance_matrix_ok self Hc) as (V & ->).
    cbn [mbind result_bind]. fold p. fold L.
    assert (Hnu := reads_self (df self) _ Hdf).
    assert (Hdiag := reads_sum_log_diagonal L bL p _ HL HbL).
    assert (Hdig := mvdigamma_reads _ p _ _
                      (reads_tmap (fun v => v / 2) _ _ _ Hnu)
                      (half_df_in_domain self Hc)).
    match goal with |- exists t, ?e = Ok t /\ _ =>
      assert (Hr : rreads e (_batch_shape self)
         (fun idx =>
            let nu := data (df self) (bindex (shape (df self)) idx) in
            let Lb := mat_at L (bindex bL idx) in
            INR (p + 1) * rsum p (fun i => ln (Lb i i))
            + INR (p * (p + 1)) * _log_2 / 2
            + mvlgamma (nu / 2) p
            - (nu - INR p - 1) / 2 * rsum p (fun i => digamma (nu / 2 - INR i / 2))
            + nu * INR p / 2))
    end.
    { repeat apply rreads_tbin; try apply rreads_Ok.
      - apply (reads_tmap (fun v => INR (p + 1) * v) _ _ _ Hdiag).
      - apply reads_scalar.
      - apply (reads_tmap (fun v => mvlgamma (v / 2) p) _ _ _ Hnu).
      - apply (reads_tmap (fun v => (v - INR p - 1) / 2) _ _ _ Hnu).
      - exact Hdig.
      - apply (reads_tmap (fun v => v * INR p / 2) _ _ _ Hnu). }
    destruct Hr as (t & Ht & Hexp & Hdata). exists t.
    split; [assumption|]. split; [assumption|].
    intros idx Hlen. cbn [expand data]. rewrite (Hdata idx Hlen).
    rewrite HL, batch_of_app2. cbv zeta. unfold _log_2.
    rewrite mult_INR. reflexivity.
  - intros x q. split.
    + intros Hdom.
      destruct (mvdigamma_reads x q (shape x) _ (reads_self x _ (expandable_refl _)) Hdom)
        as (t & Ht & Hexp & Hdata).
      exists t. split; [assumption|].
      assert (Hs : shape t = shape x).
      { unfold _mvdigamma in Ht.
        rewrite (proj2 (mvdigamma_domain x q) Hdom) in Ht. cbn [negb] in Ht.
        unfold tzip in Ht. cbn [shape unsqueeze_last expand] in Ht.
        rewrite broadcast_shapes_unsqueeze in Ht. cbn [mbind result_bind] in Ht.
        injection Ht as <-.
        now apply (sum_last_shape _ (shape x) q). }
      split; [assumption|]. intros idx Hv.
      assert (Hlen : length idx = length (shape x)) by now apply Forall2_length in Hv.
      specialize (Hdata idx Hlen). rewrite Hs in Hdata.
      now rewrite !bindex_valid in Hdata by assumption.
    + intros (idx & Hv & Hle). unfold _mvdigamma.
      destruct (tall _) eqn:Hall; [|reflexivity].
      assert (Hd := proj1 (mvdigamma_domain x q) Hall idx Hv). lra.
Qed.


Lemma zip_bdim_valid_expand r : forall rc ri,
  expandable_rev r rc -> Forall2 lt ri rc -> Forall2 lt (zip_with bdim r ri) r.
Proof.
  induction r as [|a r IH]; intros rc ri He Hv; [constructor|].
  destruct Hv as [|i c0 ri rc Hi Hv]; [destruct He|].
  destruct He as [Ha He]. cbn [zip_with]. constructor; [|eauto].
  unfold bdim. destruct (Nat.eqb_spec a 1); lia.
Qed.

Lemma bindex_valid_expand s c idx :
  expandable s c -> valid_index c idx -> valid_index s (bindex s idx).
Proof.
  intros He Hv. unfold valid_index, bindex.
  rewrite <- (rev_involutive s) at 2. apply Forall2_rev_rev.
  apply (zip_bdim_valid_expand _ (rev c)); [assumption|].
  now apply Forall2_rev_rev.
Qed.

(** C2. For a constructed distribution of dimension [p] whose scale factor
    is lower triangular with a nonzero diagonal, and a value [log_prob]
    accepts, [log_prob(value)] returns a tensor which, expanded to the
    common batch shape, holds at every index
    [-(df p log 2)/2 - df * sum (log (diag L)) - mvlgamma (df/2, p)
     + ((df-p-1)/2) * logabsdet value - trace X / 2],
    where [X] is the Cholesky solve of [value] against [L]; and the trace of
    [X] is the trace of [L^-T * L^-1 * value]. *)
Theorem log_prob_formula self value bv c :
  constructed self ->
  _event_shape self = [event_dim self; event_dim self] ->
  let p := event_dim self in
  let L := _unbroadcasted_scale_tril self in
  (forall b, valid_index (batch_of (shape L)) b ->
             lower_triangular p (mat_at L b) /\ nonzero_diag p (mat_at L b)) ->
  shape value = bv ++ [p; p] ->
  broadcast_shapes bv (_batch_shape self) = Some c ->
  (_validate_args self = true -> _validate_sample self value = Ok tt) ->
  exists t,
    log_prob self value = Ok t /\
    expandable (shape t) c /\
    forall idx, valid_index c idx ->
      let nu := data (df self) (bindex (shape (df self)) idx) in
      let Lb := mat_at L (bindex (batch_of (shape L)) idx) in
      let V := mat_at value (bindex bv idx) in
      data (expand t c) idx
      = - (nu * INR p * ln 2) / 2
        - nu * rsum p (fun i => ln (Lb i i))
        - mvlgamma (nu / 2) p
        + (nu - INR p - 1) / 2 * logabsdet p V
        - trace p (cholesky_solve p V Lb) / 2
      /\
      forall Linv, inverse_of p Lb Linv ->
        trace p (cholesky_solve p V Lb)
        = trace p (mmul p (transpose Linv) (mmul p Linv V)).
Proof.
  intros Hc Hsq p L Htri Hvalue Hbc Hacc.
  destruct (constructed_facts self Hc)
    as (bL & n & HL & Hev & HbL & Hdf & _).
  rewrite Hsq in Hev. injection Hev as <-. fold p in HL. fold L in HL.
  apply broadcast_shapes_expandable in Hbc as [Hbv Hbs].
  assert (HbLc := expandable_trans _ _ _ HbL Hbs).
  assert (Hdfc := expandable_trans _ _ _ Hdf Hbs).
  unfold log_prob.
  assert (Hval : (if _validate_args self then _validate_sample self value else Ok tt)
                 = Ok tt).
  { destruct (_validate_args self); [now apply Hacc | reflexivity]. }
  rewrite Hval. cbn [mbind result_bind]. fold p. fold L.
  assert (Hnu := reads_self (df self) _ Hdfc).
  assert (Hdiag := reads_sum_log_diagonal L bL p _ HL HbLc).
  assert (Hdet := reads_slogdet value bv p p _ Hvalue Hbv).
  destruct (reads_cholesky_solve_trace value L bv bL p c Hvalue HL Hbv HbLc)
    as (cs & Hcs & Htr).
  rewrite Hcs. cbn [mbind result_bind].
  match goal with |- exists t, ?e = Ok t /\ _ =>
    assert (Hr : rreads e c
       (fun idx =>
          let nu := data (df self) (bindex (shape (df self)) idx) in
          let Lb := mat_at L (bindex bL idx) in
          let V := mat_at value (bindex bv idx) in
          - nu * INR p * _log_2 / 2
          - nu * rsum p (fun i => ln (Lb i i))
          - mvlgamma (nu / 2) p
          + (nu - INR p - 1) / 2 * logabsdet p V
          - trace p (cholesky_solve p V Lb) / 2))
  end.
  { repeat apply rreads_tbin; try apply rreads_Ok.
    - apply (reads_tmap (fun v => - v * INR p * _log_2 / 2) _ _ _ Hnu).
    - exact Hnu.
    - exact Hdiag.
    - apply (reads_tmap (fun v => mvlgamma (v / 2) p) _ _ _ Hnu).
    - apply (reads_tmap (fun v => (v - INR p - 1) / 2) _ _ _ Hnu).
    - exact Hdet.
    - apply (reads_tmap (fun v => v / 2) _ _ _ Htr). }
  destruct Hr as (t & Ht & Hexp & Hdata). exists t.
  split; [assumption|]. split; [assumption|].
  intros idx Hv.
  assert (Hlen : length idx = length c) by now apply Forall2_length in Hv.
  rewrite HL, batch_of_app2. cbv zeta. split.
  - cbn [expand data]. rewrite (Hdata idx Hlen). cbv zeta. unfold _log_2. lra.
  - intros Linv Hinv. unfold trace. apply rsum_ext. intros i Hi.
    destruct (Htri (bindex bL idx)) as [Hlow Hnz].
    { rewrite HL, batch_of_app2. now apply (bindex_valid_expand bL c). }
    now apply cholesky_solve_inverse.
Qed.

(** C4, on the code. No [p] is bound at module level, so reading
    [_natural_params] raises [NameError] whatever the instance; had [p] been
    bound, the property would return the pair
    [((df - p - 1) / 2, - precision / 2)] of the claim. *)
Theorem natural_params_name_error (self : Wishart) :
  module_globals !! "p" = None
  /\ _natural_params module_globals self = Raise NameError
  /\ forall (globals : gmap string R) p prec,
       globals !! "p" = Some p ->
       precision_matrix_of self = Ok prec ->
       exists eta1 eta2,
         _natural_params globals self = Ok (eta1, eta2) /\
         (forall idx, data eta1 idx = (data (df self) idx - p - 1) / 2) /\
         (forall idx, data eta2 idx = - data prec idx / 2).
Proof.
  split; [reflexivity|]. split; [reflexivity|].
  intros globals p prec Hp Hprec. unfold _natural_params. rewrite Hp, Hprec.
  cbn [mbind result_bind]. eexists. eexists. split; [reflexivity|].
  split; intros idx; cbn [tmap data]; lra.
Qed.

(** The log-normalizer: where every element of [x] exceeds [(p-1)/2], with
    [p] the trailing dimension of [y], it is
    [x * (- logabsdet (-2 y) + p log 2) + mvdigamma (x, p)]; elsewhere the
    assertion of [_mvdigamma] fails. *)
Lemma log_normalizer_formula (x y : tensor R) by_ n c :
  let p := col_of (shape y) in
  shape y = by_ ++ [n; p] ->
  expandable (shape x) c -> expandable by_ c ->
  ((forall idx, valid_index (shape x) idx -> (INR p - 1) / 2 < data x idx) ->
   exists t, _log_normalizer x y = Ok t /\ expandable (shape t) c /\
     forall idx, length idx = length c ->
       let eta1 := data x (bindex (shape x) idx) in
       let eta2 := mat_at y (bindex by_ idx) in
       data (expand t c) idx
       = eta1 * (- logabsdet p (fun i j => -2 * eta2 i j) + ln 2 * INR p)
         + rsum p (fun i => digamma (eta1 - INR i / 2)))
  /\
  ((exists idx, valid_index (shape x) idx /\ data x idx <= (INR p - 1) / 2) ->
   _log_normalizer x y = Raise AssertionError).
Proof.
  intros p Hy Hx Hby. split.
  - intros Hdom. unfold _log_normalizer. fold p.
    assert (Hrx := reads_self x _ Hx).
    assert (Hdet := reads_slogdet (tmap (fun v => -2 * v) y) by_ n p c Hy Hby).
    assert (Hdig := mvdigamma_reads x p c _ Hrx Hdom).
    match goal with |- exists t, ?e = Ok t /\ _ =>
      assert (Hr : rreads e c
         (fun idx =>
            let eta1 := data x (bindex (shape x) idx) in
            eta1 * (- logabsdet p (mat_at (tmap (fun v => -2 * v) y) (bindex by_ idx))
                    + _log_2 * INR p)
            + rsum p (fun i => digamma (eta1 - INR i / 2))))
    end.
    { repeat apply rreads_tbin; try apply rreads_Ok.
      - exact Hrx.
      - apply (reads_tmap Ropp _ _ _ Hdet).
      - apply reads_scalar.
      - exact Hdig. }
    destruct Hr as (t & Ht & Hexp & Hdata). exists t.
    split; [assumption|]. split; [assumption|].
    intros idx Hlen. cbn [expand data]. now rewrite (Hdata idx Hlen).
  - intros (idx & Hv & Hle). unfold _log_normalizer. fold p.
    assert (Hm : _mvdigamma x p = Raise AssertionError).
    { unfold _mvdigamma. destruct (tall _) eqn:Hall; [|reflexivity].
      assert (Hd := proj1 (mvdigamma_domain x p) Hall idx Hv). lra. }
    rewrite Hm.
    assert (Hrx := reads_self x _ Hx).
    assert (Hdet := reads_slogdet (tmap (fun v => -2 * v) y) by_ n p c Hy Hby).
    match goal with |- tbin Rplus ?a _ = _ =>
      assert (Hr : exists g, rreads a c g)
    end.
    { eexists. repeat apply rreads_tbin; try apply rreads_Ok.
      - exact Hrx.
      - apply (reads_tmap Ropp _ _ _ Hdet).
      - apply reads_scalar. }
    destruct Hr as (g & t & -> & _). reflexivity.
Qed.

End Density.

Lemma torch_eye_triangular n b :
  lower_triangular n (mat_at (torch_eye n) b)
  /\ nonzero_diag n (mat_at (torch_eye n) b).
Proof.
  split.
  - intros i j Hij. unfold mat_at, torch_eye. cbn [data].
    rewrite row_of_app2, col_of_app2. unfold eye.
    destruct (Nat.eqb_spec i j); [lia | reflexivity].
  - intros i Hi. unfold mat_at, torch_eye. cbn [data].
    rewrite row_of_app2, col_of_app2. unfold eye.
    rewrite Nat.eqb_refl. lra.
Qed.

Lemma entropy_formula_witness :
  exists self t,
    @constructed example_numerics replay self
    /\ _event_shape self = [2%nat; 2%nat]
    /\ @entropy example_numerics self = Ok t
    /\ expandable (shape t) [].
Proof.
  destruct (@init_scale_tril_number example_numerics replay 2 (torch_eye 2)
              (fresh_world [])) as (self & Hinit & _ & Hbs & Hev & _);
    [cbn; lia | cbn; lra |].
  assert (Hc : @constructed example_numerics replay self)
    by (repeat eexists; exact Hinit).
  assert (Hp : event_dim self = 2%nat) by (unfold event_dim; now rewrite Hev).
  destruct (@entropy_formula example_numerics replay self Hc) as [(t & Ht & Hexp & _) _].
  { now rewrite Hp, Hev. }
  exists self, t. rewrite Hbs in Hexp. repeat split; assumption.
Defined.

Lemma log_prob_formula_witness :
  exists self t,
    @constructed example_numerics replay self
    /\ @log_prob example_numerics self value_example = Ok t
    /\ data (expand t []) []
       = - (2 * 2 * ln 2) / 2
         - 2 * (0 + ln 1 + ln 1)
         - @mvlgamma example_numerics (2 / 2) 2
         + (2 - 2 - 1) / 2 * @logabsdet example_numerics 2 (mat_at value_example [])
         - trace 2 (cholesky_solve 2 (mat_at value_example [])
                                     (mat_at (torch_eye 2) [])) / 2.
Proof.
  destruct (@init_scale_tril_number example_numerics replay 2 (torch_eye 2)
              (fresh_world [])) as (self & Hinit & Hdf & Hbs & Hev & Hva & HL & _);
    [cbn; lia | cbn; lra |].
  assert (Hc : @constructed example_numerics replay self)
    by (repeat eexists; exact Hinit).
  assert (Hp : event_dim self = 2%nat) by (unfold event_dim; now rewrite Hev).
  destruct (@log_prob_formula example_numerics replay self value_example [] [] Hc)
    as (t & Ht & _ & Hdata).
  - now rewrite Hp, Hev.
  - intros b _. rewrite Hp, HL. apply torch_eye_triangular.
  - now rewrite Hp.
  - now rewrite Hbs.
  - rewrite Hva. discriminate.
  - exists self, t. split; [assumption|]. split; [assumption|].
    destruct (Hdata []) as [Hentry _]; [constructor|].
    rewrite Hentry, Hp, HL, Hdf. reflexivity.
Defined.

(** ** Covariance and precision *)

Lemma cholesky_solve_unique n L B (Z : matrix) j :
  lower_triangular n L -> nonzero_diag n L ->
  (forall i, (i < n)%nat -> mmul n (mmul n L (transpose L)) Z i j = B i j) ->
  forall i, (i < n)%nat -> Z i j = cholesky_solve n B L i j.
Proof.
  intros Hl Hd Hsys.
  apply (upper_cancel n (transpose L));
    [now apply transpose_lower_upper | now apply transpose_nonzero_diag |].
  apply (lower_cancel n L); [assumption..|].
  intros i Hi. rewrite <- !mmul_assoc, Hsys by assumption.
  symmetry. now apply cholesky_solve_sound.
Qed.

Section Accessors.
Context `{Numerics} `{RandomSource}.

Lemma mat_at_expand (c : tensor R) bc n m s b i j :
  shape c = bc ++ [n; m] -> (i < n)%nat -> (j < m)%nat ->
  mat_at (expand c s) b i j = mat_at c (bindex bc b) i j.
Proof.
  intros Hc Hi Hj. unfold mat_at. cbn [expand data].
  now rewrite Hc, bindex_app2, !bdim_lt.
Qed.

(** C7. For a constructed distribution of dimension [p] whose scale factor
    [L] is lower triangular with a nonzero diagonal, and whose stored
    covariance or precision, if it was constructed from one, is factored
    exactly by [L]: both accessors return, and at every batch index the
    covariance is [L * L^T], the precision [X] solves [L * L^T * X = I],
    and [precision * covariance = I]. A precision that is not stored is the
    Cholesky solve of the identity against [L], that is, two triangular
    solves. *)
Theorem precision_covariance_identity self :
  constructed self ->
  _event_shape self = [event_dim self; event_dim self] ->
  let p := event_dim self in
  let L := _unbroadcasted_scale_tril self in
  let bL := batch_of (shape L) in
  let bs := _batch_shape self in
  (forall b, valid_index bL b ->
             lower_triangular p (mat_at L b) /\ nonzero_diag p (mat_at L b)) ->
  (forall C, __dict__ self !! "covariance_matrix" = Some C ->
     forall b, valid_index bs b ->
       let Lb := mat_at L (bindex bL b) in
       meq p (mat_at C b) (mmul p Lb (transpose Lb))) ->
  (forall P, __dict__ self !! "precision_matrix" = Some P ->
     forall b, valid_index bs b ->
       let Lb := mat_at L (bindex bL b) in
       meq p (mmul p (mmul p Lb (transpose Lb)) (mat_at P b)) eye) ->
  exists X C,
    precision_matrix_of self = Ok X /\
    covariance_matrix_of self = Ok C /\
    forall b, valid_index bs b ->
      let Lb := mat_at L (bindex bL b) in
      meq p (mat_at C b) (mmul p Lb (transpose Lb)) /\
      meq p (mmul p (mmul p Lb (transpose Lb)) (mat_at X b)) eye /\
      meq p (mmul p (mat_at X b) (mat_at C b)) eye /\
      (__dict__ self !! "precision_matrix" = None ->
       meq p (mat_at X b) (cholesky_solve p eye Lb)).
Proof.
  intros Hc Hsq p L bL bs Htri Hcov Hprec.
  destruct (constructed_facts self Hc) as (bL' & n & HL & Hev & HbL & _).
  rewrite Hsq in Hev. injection Hev as <-. fold p in HL. fold L in HL.
  assert (HbL' : bL = bL') by (unfold bL; now rewrite HL, batch_of_app2).
  subst bL'. fold bs in HbL.
  (* the covariance accessor *)
  assert (HC : exists C, covariance_matrix_of self = Ok C /\
            forall b, valid_index bs b ->
              meq p (mat_at C b)
                    (mmul p (mat_at L (bindex bL b))
                            (transpose (mat_at L (bindex bL b))))).
  { unfold covariance_matrix_of.
    destruct (__dict__ self !! "covariance_matrix") as [C|] eqn:HdC.
    - exists C. split; [reflexivity|]. now apply Hcov.
    - destruct (matmul_transpose_ok L bL p p HL) as (c & Hmm & Hsc & Hdc).
      fold L. rewrite Hmm. cbn [mbind result_bind]. eexists. split; [reflexivity|].
      intros b Hb i j Hi Hj.
      rewrite (mat_at_expand c bL p p) by assumption.
      unfold mat_at at 1. now rewrite Hdc, bindex_idem. }
  (* the precision accessor *)
  assert (HX : exists X, precision_matrix_of self = Ok X /\
            forall b, valid_index bs b ->
              meq p (mmul p (mmul p (mat_at L (bindex bL b))
                                    (transpose (mat_at L (bindex bL b))))
                            (mat_at X b)) eye /\
              meq p (mat_at X b) (cholesky_solve p eye (mat_at L (bindex bL b)))).
  { unfold precision_matrix_of.
    destruct (__dict__ self !! "precision_matrix") as [P|] eqn:HdP.
    - exists P. split; [reflexivity|]. intros b Hb.
      split; [now apply Hprec|].
      destruct (Htri (bindex bL b)) as [Hlow Hnz];
        [now apply (bindex_valid_expand bL bs)|].
      intros i j Hi Hj.
      apply (cholesky_solve_unique p _ eye); try assumption.
      intros k Hk. now apply (Hprec P eq_refl b Hb).
    - fold p. fold L. unfold torch_cholesky_solve.
      change (shape (torch_eye p)) with ([] ++ [p; p]).
      rewrite HL, !batch_of_app2, !row_of_app2, !col_of_app2, !Nat.eqb_refl.
      cbn [negb andb]. rewrite broadcast_shapes_nil_l.
      cbn [mbind result_bind]. eexists. split; [reflexivity|].
      intros b Hb.
      destruct (Htri (bindex bL b)) as [Hlow Hnz];
        [now apply (bindex_valid_expand bL bs)|].
      set (cs := Tensor _ _).
      assert (Hcs : forall i j, (i < p)%nat -> (j < p)%nat ->
                mat_at (expand cs (bs ++ [p; p])) b i j
                = cholesky_solve p eye (mat_at L (bindex bL b)) i j).
      { intros i j Hi Hj.
        rewrite (mat_at_expand cs bL p p) by (reflexivity || assumption).
        unfold mat_at at 1. unfold cs. cbn [data].
        now rewrite batch_of_app2, row_of_app2, col_of_app2, bindex_idem. }
      rewrite Hsq. fold p. split.
      + intros i j Hi Hj.
        rewrite (mmul_ext p _ (mmul p (mat_at L (bindex bL b))
                                      (transpose (mat_at L (bindex bL b))))
                          _ (cholesky_solve p eye (mat_at L (bindex bL b))) i j).
        * now apply cholesky_solve_sound.
        * reflexivity.
        * intros k Hk. now apply Hcs.
      + intros i j Hi Hj. now apply Hcs. }
  destruct HC as (C & HCeq & HCd), HX as (X & HXeq & HXd).
  exists X, C. split; [assumption|]. split; [assumption|].
  intros b Hb Lb. destruct (HXd b Hb) as [Hsolve Hexp].
  destruct (Htri (bindex bL b)) as [Hlow Hnz];
    [now apply (bindex_valid_expand bL bs)|].
  split; [now apply HCd|]. split; [assumption|]. split; [|intros _; assumption].
  intros i j Hi Hj.
  rewrite (mmul_ext p _ (cholesky_solve p eye Lb) _ (mmul p Lb (transpose Lb)) i j).
  - now apply cholesky_solve_left_inverse.
  - intros k Hk. now apply Hexp.
  - intros k Hk. now apply HCd.
Qed.

End Accessors.

Lemma cholesky_factor_1x1 (M : matrix) :
  0 < M 0%nat 0%nat ->
  cholesky_factor 1 M
  = Some (fun a b => if Nat.eqb a 0 && Nat.eqb b 0
                     then sqrt (M 0%nat 0%nat - 0) else 0).
Proof.
  intros Hpos. unfold cholesky_factor, lower_positions.
  cbn [seq flat_map map app fold_left]. unfold cholesky_step, cholesky_entry.
  cbn [fst snd Nat.eqb rsum]. rewrite bool_decide_eq_true_2 by lra. reflexivity.
Qed.

Lemma precision_covariance_identity_witness :
  exists self X C,
    @constructed example_numerics replay self
    /\ __dict__ self !! "covariance_matrix" = Some (expand cov_example [1%nat; 1%nat])
    /\ @precision_matrix_of self = Ok X
    /\ @covariance_matrix_of self = Ok C
    /\ mmul 1 (mat_at X []) (mat_at C []) 0%nat 0%nat = 1.
Proof.
  assert (Hchol : cholesky_factor 1 (mat_at cov_example [])
                  = Some (fun a b => if Nat.eqb a 0 && Nat.eqb b 0
                                     then sqrt (4 - 0) else 0))
    by (apply cholesky_factor_1x1; cbn; lra).
  assert (Hlf : exists Lx,
             lift_factor (@linalg_cholesky example_numerics) cov_example = Ok Lx
             /\ shape Lx = [1%nat; 1%nat]
             /\ mat_at Lx [] 0%nat 0%nat = sqrt (4 - 0)).
  { eexists. split; [|split].
    - unfold lift_factor.
      cbn [shape cov_example row_of col_of length Nat.sub nth
           Nat.eqb negb batch_of take indices forallb
           linalg_cholesky example_numerics].
      rewrite Hchol, bool_decide_eq_true_2 by eauto. cbn [andb]. reflexivity.
    - reflexivity.
    - unfold mat_at at 1.
      cbn [data app batch_of row_of col_of length Nat.sub nth take].
      now rewrite Hchol. }
  destruct Hlf as (Lx & HLx & HsLx & HLx00).
  destruct (chi2_df_ok (scalar 1) [] 1%nat) as (dfs & Hdfs & _); [now left|].
  assert (Hinit := @Wishart_init_ok example_numerics replay
                     (DfNumber 1) (Some cov_example) None None (Some false)
                     (fresh_world []) cov_example [] (scalar 1) Lx dfs
                     eq_refl eq_refl (le_n 2) eq_refl).
  cbv zeta in Hinit.
  match type of Hinit with
  | _ -> _ -> _ -> _ -> _ = (Ok ?s, _) => set (self := s) in *
  end.
  assert (Hself : @constructed example_numerics replay self).
  { repeat eexists. apply Hinit.
    - apply df_bound_iff. intros idx _. cbn. lra.
    - discriminate.
    - exact HLx.
    - exact Hdfs. }
  destruct (@precision_covariance_identity example_numerics replay self Hself)
    as (X & C & HX & HC & Hid).
  - reflexivity.
  - intros b Hb. cbn [_unbroadcasted_scale_tril self] in Hb |- *.
    rewrite HsLx in Hb. inversion Hb; subst b. split.
    + intros i j Hij. cbn in Hij. lia.
    + intros i Hi. cbn in Hi. replace i with 0%nat by lia.
      rewrite HLx00. replace (4 - 0) with (2 * 2) by lra.
      rewrite sqrt_square; lra.
  - intros C HC b Hb. inversion Hb; subst b.
    cbn [self __dict__ stored_attrs] in HC.
    rewrite lookup_singleton_eq in HC. injection HC as <-.
    cbn [_unbroadcasted_scale_tril self]. rewrite HsLx.
    change (event_dim self) with 1%nat.
    intros i j Hi Hj.
    replace i with 0%nat by lia. replace j with 0%nat by lia.
    unfold mmul, transpose. cbn [rsum].
    change (bindex (batch_of [1%nat; 1%nat]) []) with (@nil nat).
    rewrite HLx00, Rplus_0_l, sqrt_sqrt by lra.
    unfold mat_at. cbn. lra.
  - intros P HP. cbn [self __dict__ stored_attrs] in HP.
    rewrite lookup_singleton_ne in HP by discriminate. discriminate.
  - exists self, X, C. split; [assumption|]. split; [reflexivity|].
    split; [assumption|]. split; [assumption|].
    destruct (Hid []) as (_ & _ & Hinv & _); [constructor|].
    change (event_dim self) with 1%nat in Hinv.
    rewrite (Hinv 0%nat 0%nat) by lia. reflexivity.
Defined.

(** ** Sampling: how often the generator is called *)

Section SamplingLog.
Context `{Numerics} `{RandomSource}.

Lemma bind_log_step {A B} (m : M A) (k : A -> M B) w :
  (forall a w1, m w = (Ok a, w1) -> sampling_log (snd (k a w1)) = sampling_log w1) ->
  sampling_log (snd ((m ≫= k) w)) = sampling_log (snd (m w)).
Proof.
  intros Hk. unfold mbind, M_bind.
  destruct (m w) as [[a|e] w1] eqn:Hm; [|reflexivity].
  cbn [snd]. now apply Hk.
Qed.

Lemma lift_log {A} (r : result A) w : sampling_log (snd (lift r w)) = sampling_log w.
Proof. reflexivity. Qed.

Lemma with_generator_log {A} (f : rng -> A * rng) w :
  sampling_log (snd (with_generator f w)) = sampling_log w.
Proof. unfold with_generator. now destruct (f (generator w)). Qed.

Lemma with_generator_ok {A} (f : rng -> A * rng) w :
  exists a, fst (with_generator f w) = Ok a.
Proof. unfold with_generator. destruct (f (generator w)). eauto. Qed.

Lemma bartlett_sampling_log self sample_shape w :
  sampling_log (snd (_bartlett_sampling self sample_shape w))
  = sample_shape :: sampling_log w.
Proof.
  unfold _bartlett_sampling.
  rewrite bind_log_step; [reflexivity|].
  intros [] w1 _.
  rewrite bind_log_step; [apply with_generator_log|].
  intros chi w2 _.
  rewrite bind_log_step; [apply with_generator_log|].
  intros normals w3 _.
  rewrite bind_log_step; [apply lift_log|].
  intros chol w4 _. apply lift_log.
Qed.

Lemma correct_eager_log self n : forall sample mask w,
  exists redraws,
    sampling_log (snd (correct_eager self n sample mask w))
    = redraws ++ sampling_log w
    /\ (length redraws <= n)%nat.
Proof.
  induction n as [|n IH]; intros sample mask w.
  - exists []. split; [reflexivity | cbn; lia].
  - cbn [correct_eager]. unfold mbind at 1, M_bind at 1.
    assert (Hlog := bartlett_sampling_log self [mask_count mask] w).
    destruct (_bartlett_sampling self [mask_count mask] w) as [[s1|e] w1].
    + cbn [snd] in Hlog.
      destruct (negb (tany _)).
      * exists [[mask_count mask]]. split; [exact Hlog | cbn; lia].
      * destruct (IH (masked_assign sample mask s1)
                     (masked_assign mask mask
                        (reduce_batch self (tmap negb (support_check s1)))) w1)
          as (redraws & Hr & Hlen).
        exists (redraws ++ [[mask_count mask]]).
        rewrite Hr, Hlog, <- app_assoc. split; [reflexivity|].
        rewrite length_app. cbn. lia.
    + cbn [snd] in Hlog |- *. exists [[mask_count mask]].
      split; [exact Hlog | cbn; lia].
Qed.

Lemma correct_traced_log self sample_shape n : forall sample mask w,
  exists redraws,
    sampling_log (snd (correct_traced self sample_shape n sample mask w))
    = redraws ++ sampling_log w
    /\ (length redraws <= n)%nat.
Proof.
  induction n as [|n IH]; intros sample mask w.
  - exists []. split; [reflexivity | cbn; lia].
  - cbn [correct_traced]. unfold mbind at 1, M_bind at 1.
    assert (Hlog := bartlett_sampling_log self sample_shape w).
    destruct (_bartlett_sampling self sample_shape w) as [[s1|e] w1].
    + cbn [snd] in Hlog. unfold mbind at 1, M_bind at 1, lift at 1.
      destruct (twhere mask s1 sample) as [s2|e].
      * destruct (IH s2 (reduce_batch self (tmap negb (support_check s2))) w1)
          as (redraws & Hr & Hlen).
        exists (redraws ++ [sample_shape]).
        rewrite Hr, Hlog, <- app_assoc. split; [reflexivity|].
        rewrite length_app. cbn. lia.
      * exists [sample_shape]. split; [exact Hlog | cbn; lia].
    + cbn [snd] in Hlog |- *. exists [sample_shape].
      split; [exact Hlog | cbn; lia].
Qed.

Lemma rsample_zero self sample_shape w :
  rsample self sample_shape (Some 0%Z) w
  = match _bartlett_sampling self sample_shape w with
    | (Ok s0, w1) =>
        if tracing_state w then (Ok s0, w1)
        else if tany (reduce_batch self (support_check s0))
             then (Ok s0, snd (warn singular_warning w1))
             else (Ok s0, w1)
    | (Raise e, w1) => (Raise e, w1)
    end.
Proof.
  unfold rsample, mbind, M_bind, get_world.
  destruct (_bartlett_sampling self sample_shape w) as [[s0|e] w1]; [|reflexivity].
  cbn [Z.to_nat correct_traced correct_eager].
  destruct (tracing_state w); [reflexivity|].
  destruct (tany _); reflexivity.
Qed.

(** C9. [rsample] calls [_bartlett_sampling] once for the candidate and
    then at most [max_try_correction] times, once per iteration of the
    correction loop; the bound is 10 by default and 3 under tracing. With
    [max_try_correction = 0] the generator is called once and the outcome of
    that first call is returned, whatever the sample. *)
Theorem rsample_correction_bound self sample_shape (m : option Z) w :
  let max_try :=
    match m with
    | Some k => k
    | None => if tracing_state w then 3%Z else 10%Z
    end in
  (exists redraws,
     sampling_log (snd (rsample self sample_shape m w))
     = redraws ++ sample_shape :: sampling_log w
     /\ (length redraws <= Z.to_nat max_try)%nat)
  /\ rsample self sample_shape None w
     = rsample self sample_shape (Some (if tracing_state w then 3%Z else 10%Z)) w
  /\ fst (rsample self sample_shape (Some 0%Z) w)
     = fst (_bartlett_sampling self sample_shape w)
  /\ sampling_log (snd (rsample self sample_shape (Some 0%Z) w))
     = sample_shape :: sampling_log w
  /\ generator (snd (rsample self sample_shape (Some 0%Z) w))
     = generator (snd (_bartlett_sampling self sample_shape w)).
Proof.
  intros max_try. split; [|split; [reflexivity|]].
  - unfold rsample. unfold mbind at 1, M_bind at 1, get_world at 1.
    fold max_try. unfold mbind at 1, M_bind at 1.
    assert (Hlog := bartlett_sampling_log self sample_shape w).
    destruct (_bartlett_sampling self sample_shape w) as [[s0|e] w1].
    + cbn [snd] in Hlog. rewrite <- Hlog.
      destruct (tracing_state w).
      * apply correct_traced_log.
      * destruct (tany _).
        -- unfold mbind, M_bind, warn.
           match goal with |- context [correct_eager ?s ?n ?a ?b ?w] =>
             destruct (correct_eager_log s n a b w) as (redraws & Hr & Hlen)
           end.
           exists redraws. split; [exact Hr | exact Hlen].
        -- exists []. split; [reflexivity | cbn; lia].
    + exists []. split; [exact Hlog | cbn; lia].
  - rewrite rsample_zero.
    assert (Hlog := bartlett_sampling_log self sample_shape w).
    destruct (_bartlett_sampling self sample_shape w) as [[s0|e] w1];
      [|now repeat split].
    cbn [snd fst] in *.
    destruct (tracing_state w); [now repeat split|].
    destruct (tany _); now repeat split.
Qed.

End SamplingLog.

(** ** The Bartlett draw *)

Lemma expandable_rev_antisym r1 : forall r2,
  expandable_rev r1 r2 -> expandable_rev r2 r1 -> r1 = r2.
Proof.
  induction r1 as [|a r1 IH]; intros [|b r2] H12 H21; simpl in *;
    try reflexivity; try tauto.
  destruct H12 as [Hab H12], H21 as [Hba H21].
  f_equal; [|now apply IH]. destruct Hab as [->| ->]; [reflexivity|].
  destruct Hba as [->| ->]; reflexivity.
Qed.

Lemma expandable_broadcast s t :
  expandable s t -> broadcast_shapes s t = Some t.
Proof.
  intros He.
  destruct (broadcast_shapes_lub s t t He (expandable_refl t)) as (d & Hd & Hdt).
  rewrite Hd. f_equal.
  apply broadcast_shapes_expandable in Hd as [_ Htd].
  unfold expandable in *.
  rewrite <- (rev_involutive d), <- (rev_involutive t). f_equal.
  now apply expandable_rev_antisym.
Qed.

(** Positions in [tril_indices]. *)
Lemma in_tril_indices p i j :
  In (i, j) (tril_indices p) <-> (j < i < p)%nat.
Proof.
  unfold tril_indices. rewrite in_flat_map. split.
  - intros (a & Ha & Hin). apply in_map_iff in Hin as (b & [= <- <-] & Hb).
    apply in_seq in Ha, Hb. lia.
  - intros Hij. exists i. split; [apply in_seq; lia|].
    apply in_map_iff. exists j. split; [reflexivity | apply in_seq; lia].
Qed.

Lemma tril_indices_S p :
  tril_indices (S p) = tril_indices p ++ map (pair p) (seq 0 p).
Proof.
  unfold tril_indices. rewrite seq_S, flat_map_app. cbn [flat_map Nat.add].
  now rewrite app_nil_r.
Qed.

Lemma length_tril_indices p : length (tril_indices p) = (p * (p - 1) / 2)%nat.
Proof.
  assert (Hd : (2 * length (tril_indices p) = p * (p - 1))%nat).
  { induction p as [|p IH]; [reflexivity|].
    rewrite tril_indices_S, length_app, length_map, length_seq.
    destruct p as [|q]; [reflexivity|].
    cbn [Nat.sub] in *. rewrite Nat.sub_0_r in *. nia. }
  rewrite <- Hd, Nat.mul_comm. symmetry. now apply Nat.div_mul.
Qed.

Lemma position_of_in ij l :
  In ij l -> exists k, position_of ij l = Some k /\ (k < length l)%nat
                       /\ nth_error l k = Some ij.
Proof.
  induction l as [|x l IH]; intros Hin; [destruct Hin|].
  cbn [position_of]. destruct (bool_decide (x = ij)) eqn:Hx.
  - apply bool_decide_eq_true in Hx as ->. exists 0%nat. cbn. repeat split. lia.
  - apply bool_decide_eq_false in Hx.
    destruct Hin as [->|Hin]; [contradiction|].
    destruct (IH Hin) as (k & -> & Hk & Hnth). exists (S k). cbn.
    repeat split; [lia | assumption].
Qed.

Lemma position_of_not_in ij l : ~ In ij l -> position_of ij l = None.
Proof.
  induction l as [|x l IH]; intros Hin; [reflexivity|].
  cbn [position_of]. destruct (bool_decide (x = ij)) eqn:Hx.
  - apply bool_decide_eq_true in Hx as ->. contradict Hin. now left.
  - rewrite IH; [reflexivity|]. contradict Hin. now right.
Qed.

(** Random tensors: every entry is one variate of the generator. *)
Section Draws.
Context `{RandomSource}.

Lemma draw_list_nth {A} (f : A -> rng -> R * rng) (d : A) l : forall g vs g',
  draw_list f l g = (vs, g') ->
  length vs = length l /\
  forall k, (k < length l)%nat ->
    exists g1 g2, f (nth k l d) g1 = (nth k vs 0, g2).
Proof.
  induction l as [|a l IH]; intros g vs g' Hd; cbn [draw_list] in Hd.
  - injection Hd as <- <-. split; [reflexivity|]. intros k Hk. cbn in Hk. lia.
  - destruct (f a g) as [v g1] eqn:Hf.
    destruct (draw_list f l g1) as [vs' g2] eqn:Hl.
    injection Hd as <- <-. destruct (IH _ _ _ Hl) as [Hlen Hnth].
    split; [cbn; now rewrite Hlen|].
    intros [|k] Hk; cbn [nth].
    + eauto.
    + apply Hnth. cbn in Hk. lia.
Qed.

End Draws.

Lemma length_indices s : length (indices s) = numel s.
Proof.
  induction s as [|n s IH]; [reflexivity|]. cbn [indices numel fold_right].
  fold (numel s). rewrite <- IH. generalize 0%nat.
  induction n as [|n IHn]; intros a; [reflexivity|].
  cbn [seq flat_map]. rewrite length_app, length_map, IHn. cbn. lia.
Qed.

Lemma nth_flat_index s : forall idx,
  valid_index s idx ->
  (flat_index s idx < numel s)%nat /\
  nth (flat_index s idx) (indices s) [] = idx.
Proof.
  unfold valid_index. induction s as [|n s IH]; intros idx Hv.
  - inversion Hv. cbn. split; [lia | reflexivity].
  - inversion Hv as [|i n' idx' s' Hi Hv']; subst.
    destruct (IH idx' Hv') as [Hlt Hnth].
    cbn [flat_index numel fold_right indices]. fold (numel s). split; [nia|].
    assert (Hgen : forall a m, (i < m)%nat ->
              nth (i * numel s + flat_index s idx')
                  (flat_map (fun i0 => map (cons i0) (indices s)) (seq a m)) []
              = (a + i)%nat :: idx').
    { clear Hi Hv. induction i as [|i IHi]; intros a m Hm.
      - destruct m as [|m]; [lia|]. cbn [seq flat_map Nat.mul Nat.add].
        rewrite app_nth1 by (rewrite length_map, length_indices; exact Hlt).
        rewrite (nth_indep _ [] (a :: [])) by (rewrite length_map, length_indices; exact Hlt).
        change (a :: []) with (cons a []).
        rewrite (map_nth (cons a)), Hnth. now rewrite Nat.add_0_r.
      - destruct m as [|m]; [lia|]. cbn [seq flat_map].
        rewrite app_nth2 by (rewrite length_map, length_indices; nia).
        rewrite length_map, length_indices.
        replace (S i * numel s + flat_index s idx' - numel s)%nat
          with (i * numel s + flat_index s idx')%nat by nia.
        rewrite IHi by lia. f_equal. lia. }
    now rewrite (Hgen 0%nat n Hi).
Qed.

Section Draws2.
Context `{RandomSource}.

Lemma draw_tensor_entry (f : list nat -> rng -> R * rng) s g t g' :
  draw_tensor f s g = (t, g') ->
  shape t = s /\
  forall idx, valid_index s idx ->
    exists g1 g2, f idx g1 = (data t idx, g2).
Proof.
  unfold draw_tensor. destruct (draw_list f (indices s) g) as [vs g2] eqn:Hd.
  intros [= <- <-]. split; [reflexivity|]. intros idx Hv. cbn [data].
  destruct (nth_flat_index s idx Hv) as [Hlt Hnth].
  destruct (draw_list_nth f [] _ _ _ _ Hd) as [_ Hk].
  specialize (Hk (flat_index s idx)). rewrite Hnth in Hk. apply Hk.
  now rewrite length_indices.
Qed.

End Draws2.

Section Bartlett.
Context `{Numerics} `{RandomSource}.

Lemma matmul_ok (a b : tensor R) ba bb n k m :
  shape a = ba ++ [n; k] -> shape b = bb ++ [k; m] -> expandable ba bb ->
  exists c, matmul a b = Ok c /\
    shape c = bb ++ [n; m] /\
    forall idx i j,
      data c (idx ++ [i; j])
      = mmul k (mat_at a (bindex ba idx)) (mat_at b (bindex bb idx)) i j.
Proof.
  intros Ha Hb He. unfold matmul.
  rewrite Ha, Hb, !batch_of_app2, !row_of_app2, !col_of_app2, Nat.eqb_refl.
  cbn [negb]. rewrite (expandable_broadcast _ _ He).
  eexists. split; [reflexivity|]. split; [reflexivity|].
  intros idx i j. cbn [data].
  now rewrite batch_of_app2, row_of_app2, col_of_app2.
Qed.

(** The entries of the noise matrix built by lines 187-193. *)
Lemma noise_entries (chi normals : tensor R) p c :
  let noise := index_put_last2 (diag_embed (tmap sqrt chi)) (tril_indices p) normals in
  (forall i, mat_at noise c i i = sqrt (data chi (c ++ [i]))) /\
  (forall i j, (j < i < p)%nat ->
     exists k, nth_error (tril_indices p) k = Some (i, j)
               /\ (k < p * (p - 1) / 2)%nat
               /\ mat_at noise c i j = data normals (c ++ [k])) /\
  (forall i j, (i < j)%nat -> mat_at noise c i j = 0).
Proof.
  intros noise. unfold noise, mat_at, index_put_last2. cbn [data].
  repeat split.
  - intros i. rewrite row_of_app2, col_of_app2, batch_of_app2.
    rewrite position_of_not_in by (rewrite in_tril_indices; lia).
    cbn [diag_embed data tmap].
    now rewrite row_of_app2, col_of_app2, batch_of_app2, Nat.eqb_refl.
  - intros i j Hij. rewrite row_of_app2, col_of_app2, batch_of_app2.
    destruct (position_of_in (i, j) (tril_indices p)) as (k & Hk & Hlen & Hnth);
      [now apply in_tril_indices|].
    exists k. rewrite Hk, <- length_tril_indices. now repeat split.
  - intros i j Hij. rewrite row_of_app2, col_of_app2, batch_of_app2.
    rewrite position_of_not_in by (rewrite in_tril_indices; lia).
    cbn [diag_embed data tmap].
    rewrite row_of_app2, col_of_app2.
    destruct (Nat.eqb_spec i j); [lia | reflexivity].
Qed.

(** What one call of [_bartlett_sampling] returns, given the two random
    tensors it draws. *)
Lemma bartlett_sampling_spec self sample_shape w bL n chi g1 normals g2 :
  let p := event_dim self in
  let bs := _batch_shape self in
  let L := _unbroadcasted_scale_tril self in
  shape L = bL ++ [n; p] ->
  expandable bL bs ->
  shape (_dist_chi2 self) = bs ++ [p] ->
  draw_tensor (fun idx => chi2_variate
                            (data (_dist_chi2 self)
                                  (bindex (shape (_dist_chi2 self)) idx)))
              (sample_shape ++ shape (_dist_chi2 self)) (generator w)
  = (chi, g1) ->
  draw_tensor (fun _ => randn1)
              (sample_shape ++ bs ++ [(p * (p - 1) / 2)%nat]) g1
  = (normals, g2) ->
  let noise := index_put_last2 (diag_embed (tmap sqrt chi)) (tril_indices p) normals in
  exists sample,
    _bartlett_sampling self sample_shape w
    = (Ok sample,
       World g2 (tracing_state w) (default_validate_args w) (arg_constraints w)
             (warnings_log w) (sample_shape :: sampling_log w))
    /\ shape sample = (sample_shape ++ bs) ++ [n; n]
    /\ forall c, valid_index (sample_shape ++ bs) c ->
         let A := mat_at noise c in
         let Lc := mat_at L (bindex bL c) in
         forall i j,
           mat_at sample c i j
           = mmul p (mmul p Lc A) (transpose (mmul p Lc A)) i j.
Proof.
  intros p bs L HL HbL Hsdfs Hchi Hnorm noise.
  unfold _bartlett_sampling, mbind, M_bind, log_sampling, chi2_rsample,
    torch_randn, with_generator, lift.
  cbn [generator]. fold p. fold bs. fold L.
  rewrite Hchi. cbn [generator]. rewrite Hnorm. fold noise.
  apply draw_tensor_entry in Hchi as [Hschi _]. rewrite Hsdfs in Hschi.
  assert (Hsnoise : shape noise = (sample_shape ++ bs) ++ [p; p]).
  { unfold noise. cbn [shape index_put_last2 diag_embed tmap].
    rewrite Hschi. rewrite !app_assoc, col_of_app1. now rewrite <- !app_assoc. }
  destruct (matmul_ok L noise bL (sample_shape ++ bs) n p p HL Hsnoise)
    as (chol & Hchol & Hschol & Hdchol); [now apply expandable_app_pre|].
  rewrite Hchol.
  destruct (matmul_transpose_ok chol (sample_shape ++ bs) n p Hschol)
    as (sample & Hsample & Hssample & Hdsample).
  rewrite Hsample. exists sample. split; [reflexivity|]. split; [assumption|].
  intros c Hv. cbv zeta. intros i j. unfold mat_at at 1. rewrite Hdsample.
  rewrite (bindex_valid _ c Hv). apply mmul_ext.
  - intros k _. unfold mat_at at 1. rewrite Hdchol.
    now rewrite (bindex_valid _ c Hv).
  - intros k _. unfold transpose. unfold mat_at at 1. rewrite Hdchol.
    now rewrite (bindex_valid _ c Hv).
Qed.

(** C8. For a constructed distribution: the degrees of freedom of the
    chi-squared draws have shape [batch_shape + (p,)] and hold [df - i] at
    slot [i]. One call of [_bartlett_sampling] returns; every diagonal entry
    of its noise matrix [A] is the square root of a chi-squared variate
    drawn with the degrees of freedom of its slot, every entry strictly
    below the diagonal is a standard normal variate read at its own place
    among [p (p - 1) / 2], every entry above is zero; and the matrix
    returned at each index is [(L A) (L A)^T], which is symmetric. *)
Theorem bartlett_draw self sample_shape w :
  constructed self ->
  let p := event_dim self in
  let bs := _batch_shape self in
  let L := _unbroadcasted_scale_tril self in
  let bL := batch_of (shape L) in
  let df_at b := data (df self) (bindex (shape (df self)) b) in
  shape (_dist_chi2 self) = bs ++ [p]
  /\ (forall b i, (i < p)%nat -> data (_dist_chi2 self) (b ++ [i]) = df_at b - INR i)
  /\ exists chi normals noise sample w',
      _bartlett_sampling self sample_shape w = (Ok sample, w')
      /\ shape chi = sample_shape ++ bs ++ [p]
      /\ shape normals = sample_shape ++ bs ++ [(p * (p - 1) / 2)%nat]
      /\ (forall s b i,
            valid_index sample_shape s -> valid_index bs b -> (i < p)%nat ->
            exists g1 g2,
              chi2_variate (df_at b - INR i) g1 = (data chi (s ++ b ++ [i]), g2))
      /\ (forall idx, valid_index (shape normals) idx ->
            exists g1 g2, randn1 g1 = (data normals idx, g2))
      /\ length (tril_indices p) = (p * (p - 1) / 2)%nat
      /\ forall c, valid_index (sample_shape ++ bs) c ->
           let A := mat_at noise c in
           let Lc := mat_at L (bindex bL c) in
           (forall i, mat_at noise c i i = sqrt (data chi (c ++ [i])))
           /\ (forall i j, (j < i < p)%nat ->
                 exists k, nth_error (tril_indices p) k = Some (i, j)
                           /\ (k < p * (p - 1) / 2)%nat
                           /\ A i j = data normals (c ++ [k]))
           /\ (forall i j, (i < j)%nat -> A i j = 0)
           /\ (forall i j,
                 mat_at sample c i j
                 = mmul p (mmul p Lc A) (transpose (mmul p Lc A)) i j)
           /\ (forall i j, mat_at sample c i j = mat_at sample c j i).
Proof.
  intros Hc p bs L bL df_at.
  destruct (constructed_facts self Hc)
    as (bL' & n & HL & Hev & HbL & Hdf & _ & Hsdfs & Hdfs).
  fold p in HL, Hsdfs, Hdfs. fold L in HL. fold bs in HbL, Hsdfs.
  assert (HbL' : bL = bL') by (unfold bL; now rewrite HL, batch_of_app2).
  subst bL'.
  split; [assumption|]. split; [assumption|].
  destruct (draw_tensor
              (fun idx => chi2_variate
                            (data (_dist_chi2 self)
                                  (bindex (shape (_dist_chi2 self)) idx)))
              (sample_shape ++ shape (_dist_chi2 self)) (generator w))
    as [chi g1] eqn:Hchi.
  destruct (draw_tensor (fun _ => randn1)
              (sample_shape ++ bs ++ [(p * (p - 1) / 2)%nat]) g1)
    as [normals g2] eqn:Hnorm.
  destruct (bartlett_sampling_spec self sample_shape w bL n chi g1 normals g2
              HL HbL Hsdfs Hchi Hnorm)
    as (sample & Hsample & _ & Hentry).
  apply draw_tensor_entry in Hchi as [Hschi Hchi].
  apply draw_tensor_entry in Hnorm as [Hsnorm Hnorm].
  rewrite Hsdfs in Hschi, Hchi.
  set (noise := index_put_last2 (diag_embed (tmap sqrt chi)) (tril_indices p) normals)
    in *.
  exists chi, normals, noise, sample. eexists. split; [exact Hsample|].
  split; [assumption|]. split; [assumption|]. split; [|split; [|split]].
  - intros s b i Hs Hb Hi.
    destruct (Hchi (s ++ b ++ [i])) as (ga & gb & Hdraw).
    { unfold valid_index. apply Forall2_app; [assumption|].
      apply Forall2_app; [assumption | now repeat constructor]. }
    exists ga, gb. rewrite <- Hdraw. f_equal.
    rewrite app_assoc, bindex_app1, bdim_lt by assumption.
    rewrite bindex_app_l by (now apply Forall2_length in Hb).
    rewrite (bindex_valid bs b Hb). symmetry. now apply Hdfs.
  - intros idx Hv. apply Hnorm. now rewrite Hsnorm in Hv.
  - apply length_tril_indices.
  - intros c Hv.
    destruct (noise_entries chi normals p c) as (Hdiag & Hlow & Hup).
    fold noise in Hdiag, Hlow, Hup.
    split; [assumption|]. split; [assumption|]. split; [assumption|].
    split; [now apply Hentry|].
    intros i j. rewrite !(Hentry c Hv). apply mmul_transpose_sym.
Qed.

End Bartlett.

Lemma bartlett_draw_witness :
  exists self sample w',
    @constructed example_numerics replay self
    /\ @_bartlett_sampling replay self [] (fresh_world [1; 4; 3])
       = (Ok sample, w')
    /\ shape (_dist_chi2 self) = [2%nat]
    /\ data (_dist_chi2 self) [1%nat] = 2 - 1
    /\ mat_at sample [] 0%nat 1%nat = mat_at sample [] 1%nat 0%nat.
Proof.
  destruct (@init_scale_tril_number example_numerics replay 2 (torch_eye 2)
              (fresh_world [])) as (self & Hinit & Hdf & Hbs & Hev & _);
    [cbn; lia | cbn; lra |].
  assert (Hc : @constructed example_numerics replay self)
    by (repeat eexists; exact Hinit).
  assert (Hp : event_dim self = 2%nat) by (unfold event_dim; now rewrite Hev).
  destruct (@bartlett_draw example_numerics replay self [] (fresh_world [1; 4; 3]) Hc)
    as (Hshape & Hdata & chi & normals & noise & sample & w' & Hdraw & _ & _ & _ & _ & _ & Hsample).
  exists self, sample, w'. split; [assumption|]. split; [assumption|].
  rewrite Hp, Hbs in Hshape. split; [exact Hshape|]. split.
  - change [1%nat] with ([] ++ [1%nat]).
    rewrite (Hdata [] 1%nat) by (rewrite Hp; lia). rewrite Hdf. cbn. lra.
  - destruct (Hsample []) as (_ & _ & _ & _ & Hsym).
    + rewrite Hbs. constructor.
    + apply Hsym.
Defined.

(** ** Sampling: which slots are redrawn *)

Section Correction.
Context `{Numerics} `{RandomSource}.

(** Without tracing: when some entry of the mask computed at line 214 is
    set and the mask is clear after one redraw, [rsample] returns the
    candidate with the rows selected by that mask replaced. *)
Lemma rsample_eager_one_redraw self sample_shape (m : option Z) w s0 w1 s1 w2 :
  tracing_state w = false ->
  (0 < default 10 m)%Z ->
  _bartlett_sampling self sample_shape w = (Ok s0, w1) ->
  let mask := reduce_batch self (support_check s0) in
  tany mask = true ->
  _bartlett_sampling self [mask_count mask] (snd (warn singular_warning w1))
  = (Ok s1, w2) ->
  tany (masked_assign mask mask
          (reduce_batch self (tmap negb (support_check s1)))) = false ->
  rsample self sample_shape m w = (Ok (masked_assign s0 mask s1), w2).
Proof.
  intros Htr Hk Hs0 mask Hany Hs1 Hdone.
  unfold rsample, mbind, M_bind, get_world. rewrite Hs0, Htr. fold mask.
  rewrite Hany. unfold warn at 1.
  replace (match m with Some k => k | None => 10%Z end) with (default 10%Z m)
    by now destruct m.
  destruct (Z.to_nat (default 10%Z m)) as [|n] eqn:Hn; [lia|].
  cbn [correct_eager]. unfold mbind, M_bind.
  unfold warn in Hs1. cbn [snd] in Hs1. rewrite Hs1, Hdone. reflexivity.
Qed.

(** Without tracing: when no entry of that mask is set, the candidate is
    returned as it is and nothing is redrawn, whatever the number of tries
    allowed. *)
Lemma rsample_eager_no_redraw self sample_shape (m : option Z) w s0 w1 :
  tracing_state w = false ->
  _bartlett_sampling self sample_shape w = (Ok s0, w1) ->
  tany (reduce_batch self (support_check s0)) = false ->
  rsample self sample_shape m w = (Ok s0, w1).
Proof.
  intros Htr Hs0 Hnone.
  unfold rsample, mbind, M_bind, get_world. now rewrite Hs0, Htr, Hnone.
Qed.

End Correction.

Lemma positive_definite_check_1x1 (M : matrix) :
  @positive_definite_check example_numerics 1 M = Rltb 0 (M 0%nat 0%nat).
Proof.
  cbn [positive_definite_check example_numerics]. unfold symmetric_b.
  cbn [seq forallb]. rewrite bool_decide_eq_true_2 by reflexivity. cbn [andb].
  unfold Rltb. destruct (bool_decide (0 < M 0%nat 0%nat)) eqn:Hpos.
  - apply bool_decide_eq_true in Hpos.
    rewrite cholesky_factor_1x1 by assumption.
    apply bool_decide_eq_true. eauto.
  - apply bool_decide_eq_false in Hpos. apply bool_decide_eq_false.
    unfold cholesky_factor, lower_positions.
    cbn [seq flat_map map app fold_left]. unfold cholesky_step, cholesky_entry.
    cbn [fst snd Nat.eqb rsum]. rewrite bool_decide_eq_false_2 by lra.
    intros [x Hx]. discriminate.
Qed.

Lemma bartlett_entry_1x1 (chi normals : tensor R) c b :
  0 <= data chi (c ++ [0%nat]) ->
  let noise := index_put_last2 (diag_embed (tmap sqrt chi)) (tril_indices 1) normals in
  let LA := mmul 1 (mat_at (torch_eye 1) b) (mat_at noise c) in
  mmul 1 LA (transpose LA) 0%nat 0%nat = data chi (c ++ [0%nat]).
Proof.
  intros Hpos noise LA. unfold LA, mmul, transpose. cbn [rsum].
  destruct (noise_entries chi normals 1 c) as (Hdiag & _). fold noise in Hdiag.
  rewrite Hdiag. unfold mat_at, torch_eye. cbn [data].
  rewrite row_of_app2, col_of_app2. unfold eye. cbn [Nat.eqb].
  rewrite !Rplus_0_l, !Rmult_1_l. now apply sqrt_sqrt.
Qed.

(** The constructor returns [wishart_1x1] and leaves a fresh interpreter as
    it is: the constraint it writes is the one the class starts with, and
    [df = 1] is not below the dimension. *)
Lemma wishart_1x1_init tape :
  @Wishart_init example_numerics replay (DfNumber 1) None None
                (Some (torch_eye 1)) (Some false) (fresh_world tape)
  = (Ok wishart_1x1, fresh_world tape).
Proof.
  rewrite (@Wishart_init_ok example_numerics replay (DfNumber 1) None None
             (Some (torch_eye 1)) (Some false) (fresh_world tape) (torch_eye 1)
             [] (scalar 1) (torch_eye 1) (_dist_chi2 wishart_1x1));
    try reflexivity.
  - cbv zeta.
    replace (tany (tmap (fun x => Rltb x (IZR (Z.of_nat
               (List.last (drop (length (shape (torch_eye 1)) - 2)
                                (shape (torch_eye 1))) 0%nat)))) (scalar 1)))
      with false.
    + reflexivity.
    + symmetry. apply tany_false. intros idx _. cbn. apply Rltb_false.
      change (IZR (Z.of_nat 1)) with 1. lra.
  - apply df_bound_iff. intros idx _. cbn. lra.
  - discriminate.
Qed.

(** C1, on the code. A distribution of dimension 1 with [scale_tril = [[1]]]
    and [df = 1], two samples, no tracing, the default number of tries; the
    generator yields the chi-squared variates 1, 4, 9, 16. The candidate is
    [[[1]], [[4]]]: both slots are positive definite. [rsample] nevertheless
    warns of a singular sample, redraws both slots and returns
    [[[9]], [[16]]]. *)
Theorem rsample_redraws_accepted_slots :
  let w0 := fresh_world [1; 4; 9; 16] in
  exists s0 w1 sample w2,
    @Wishart_init example_numerics replay (DfNumber 1) None None
                  (Some (torch_eye 1)) (Some false) w0 = (Ok wishart_1x1, w0)
    /\ @_bartlett_sampling replay wishart_1x1 [2%nat] w0 = (Ok s0, w1)
    /\ data s0 [0; 0; 0]%nat = 1
    /\ data s0 [1; 0; 0]%nat = 4
    /\ data (@support_check example_numerics s0) [0%nat] = true
    /\ data (@support_check example_numerics s0) [1%nat] = true
    /\ @rsample example_numerics replay wishart_1x1 [2%nat] None w0 = (Ok sample, w2)
    /\ data sample [0; 0; 0]%nat = 9
    /\ data sample [1; 0; 0]%nat = 16
    /\ warnings_log w2 = [singular_warning]
    /\ sampling_log w2 = [[2%nat]; [2%nat]].
Proof.
  intros w0.
  (* the candidate *)
  edestruct (@bartlett_sampling_spec replay wishart_1x1 [2%nat] w0 [] 1%nat)
    as (s0 & Hs0 & Hshape0 & Hentry0);
    [reflexivity | exact I | reflexivity | reflexivity | reflexivity |].
  cbv zeta in Hentry0.
  assert (H00 : mat_at s0 [0%nat] 0%nat 0%nat = 1).
  { rewrite Hentry0 by (repeat constructor).
    change (event_dim wishart_1x1) with 1%nat.
    rewrite bartlett_entry_1x1; cbn; lra. }
  assert (H01 : mat_at s0 [1%nat] 0%nat 0%nat = 4).
  { rewrite Hentry0 by (repeat constructor).
    change (event_dim wishart_1x1) with 1%nat.
    rewrite bartlett_entry_1x1; cbn; lra. }
  set (mask := @reduce_batch wishart_1x1 (@support_check example_numerics s0)).
  assert (Hmshape : shape mask = [2%nat]).
  { unfold mask. cbn [reduce_batch wishart_1x1 _batch_shape support_check
                      lift_check shape]. now rewrite Hshape0. }
  assert (Hmask : forall k, (k < 2)%nat -> data mask [k] = true).
  { intros k Hk. unfold mask.
    cbn [reduce_batch wishart_1x1 _batch_shape support_check lift_check data].
    rewrite Hshape0. change (col_of _) with 1%nat.
    rewrite positive_definite_check_1x1. apply Rltb_true.
    destruct k as [|[|k]]; [rewrite H00 | rewrite H01 | lia]; lra. }
  assert (Hcount : mask_count mask = 2%nat).
  { unfold mask_count. rewrite Hmshape. cbn [indices seq flat_map map app List.filter].
    now rewrite !Hmask by lia. }
  (* the redraw *)
  match type of Hs0 with _ = (_, ?w) => set (w1 := w) in * end.
  edestruct (@bartlett_sampling_spec replay wishart_1x1 [mask_count mask]
               (snd (warn singular_warning w1)) [] 1%nat)
    as (s1 & Hs1 & Hshape1 & Hentry1);
    [reflexivity | exact I | reflexivity | rewrite Hcount; reflexivity
     | rewrite Hcount; reflexivity |].
  cbv zeta in Hentry1. rewrite Hcount in Hshape1, Hentry1.
  assert (H10 : mat_at s1 [0%nat] 0%nat 0%nat = 9).
  { rewrite Hentry1 by (repeat constructor).
    change (event_dim wishart_1x1) with 1%nat.
    rewrite bartlett_entry_1x1; cbn; lra. }
  assert (H11 : mat_at s1 [1%nat] 0%nat 0%nat = 16).
  { rewrite Hentry1 by (repeat constructor).
    change (event_dim wishart_1x1) with 1%nat.
    rewrite bartlett_entry_1x1; cbn; lra. }
  assert (Hrank : mask_rank mask [0%nat] = 0%nat /\ mask_rank mask [1%nat] = 1%nat).
  { unfold mask_rank. rewrite Hmshape.
    cbn [indices seq flat_map map app flat_index numel fold_right Nat.mul Nat.add
         take List.filter].
    now rewrite !Hmask by lia. }
  destruct Hrank as [Hr0 Hr1].
  match type of Hs1 with _ = (_, ?w) => set (w2 := w) in * end.
  exists s0, w1, (masked_assign s0 mask s1), w2.
  split; [apply wishart_1x1_init|]. split; [exact Hs0|].
  split; [exact H00|]. split; [exact H01|].
  split; [apply (Hmask 0%nat); lia|]. split; [apply (Hmask 1%nat); lia|].
  split; [|split; [|split; [|split]]].
  - apply (@rsample_eager_one_redraw example_numerics replay wishart_1x1
             [2%nat] None w0 s0 w1 s1 w2);
      [reflexivity | cbn; lia | exact Hs0 | | exact Hs1 | ].
    + fold mask. apply tany_true. exists [0%nat]. rewrite Hmshape.
      split; [repeat constructor | apply Hmask; lia].
    + apply tany_false. fold mask. cbn [masked_assign shape data].
      rewrite Hmshape. intros idx Hv.
      assert (Hidx : idx = [0%nat] \/ idx = [1%nat]).
      { inversion Hv as [|i n idx' s' Hi Hv']; subst. inversion Hv'; subst.
        destruct i as [|[|i]]; [now left | now right | lia]. }
      unfold dim. rewrite Hmshape.
      destruct Hidx as [-> | ->]; cbn [take drop length];
        rewrite Hmask by lia; [rewrite Hr0 | rewrite Hr1];
        cbn [reduce_batch wishart_1x1 _batch_shape support_check lift_check
             data tmap];
        rewrite Hshape1; change (col_of _) with 1%nat;
        rewrite positive_definite_check_1x1;
        [rewrite H10 | rewrite H11];
        apply negb_false_iff, Rltb_true; lra.
  - cbn [masked_assign data]. unfold dim. rewrite Hmshape. cbn [take drop length].
    rewrite Hmask, Hr0 by lia. exact H10.
  - cbn [masked_assign data]. unfold dim. rewrite Hmshape. cbn [take drop length].
    rewrite Hmask, Hr1 by lia. exact H11.
  - reflexivity.
  - unfold w2, w1. cbn [sampling_log warn snd]. now rewrite Hcount.
Qed.

(** * Further properties of the module *)

(** ** Reshaping and the checked [expand] *)

Lemma unravel_flat_index s : forall idx,
  valid_index s idx -> unravel s (flat_index s idx) = idx.
Proof.
  unfold valid_index. induction s as [|n s IH]; intros idx Hv.
  - inversion Hv. reflexivity.
  - inversion Hv as [|i n' idx' s' Hi Hv']; subst.
    destruct (nth_flat_index s idx' Hv') as [Hlt _].
    cbn [flat_index unravel].
    rewrite Nat.div_add_l by lia. rewrite Nat.div_small by exact Hlt.
    rewrite (Nat.add_comm (i * numel s)), Nat.Div0.mod_add, Nat.mod_small
      by exact Hlt.
    rewrite (IH idx' Hv'). f_equal. lia.
Qed.

Lemma numel_app s t : numel (s ++ t) = (numel s * numel t)%nat.
Proof.
  induction s as [|n s IH]; [cbn [app]; change (numel []) with 1%nat; lia|].
  change (numel ((n :: s) ++ t)) with (n * numel (s ++ t))%nat.
  change (numel (n :: s)) with (n * numel s)%nat. rewrite IH. lia.
Qed.

Lemma flat_index_app_zeros s : forall b,
  valid_index s b -> flat_index (s ++ [1; 1]%nat) (b ++ [0; 0]%nat) = flat_index s b.
Proof.
  unfold valid_index. induction s as [|n s IH]; intros b Hv.
  - inversion Hv. reflexivity.
  - inversion Hv as [|i n' b' s' Hi Hv']; subst.
    cbn [app flat_index]. rewrite (IH b' Hv'), numel_app. cbn. lia.
Qed.

(** Viewing a tensor under its own shape followed by [(1, 1)] succeeds and
    keeps every element in place. *)
Lemma view_unit2 {A} (t : tensor A) :
  exists v, view t (shape t ++ [1; 1]%nat) = Ok v /\
    shape v = shape t ++ [1; 1]%nat /\
    forall b, valid_index (shape t) b -> data v (b ++ [0; 0]%nat) = data t b.
Proof.
  unfold view. rewrite numel_app.
  replace (numel (shape t) * numel [1; 1])%nat with (numel (shape t)) by (cbn; lia).
  rewrite Nat.eqb_refl. cbn [negb]. eexists. split; [reflexivity|].
  split; [reflexivity|]. intros b Hv. cbn [data].
  now rewrite flat_index_app_zeros, unravel_flat_index.
Qed.

Lemma view_numel {A} (t : tensor A) s :
  numel (shape t) <> numel s -> view t s = Raise RuntimeError.
Proof.
  intros Hne. unfold view. now apply Nat.eqb_neq in Hne as ->.
Qed.

Lemma expandable_revb_spec r1 : forall r2,
  expandable_revb r1 r2 = true <-> expandable_rev r1 r2.
Proof.
  induction r1 as [|a r1 IH]; intros [|b r2]; cbn [expandable_revb expandable_rev];
    try easy.
  rewrite andb_true_iff, orb_true_iff, !Nat.eqb_eq, IH. reflexivity.
Qed.

Lemma expandableb_spec s t : expandableb s t = true <-> expandable s t.
Proof. apply expandable_revb_spec. Qed.

Lemma expand_checked_ok {A} (t : tensor A) s :
  expandable (shape t) s -> expand_checked t s = Ok (expand t s).
Proof.
  intros He. unfold expand_checked. now apply expandableb_spec in He as ->.
Qed.

Lemma expand_checked_inv {A} (t t' : tensor A) s :
  expand_checked t s = Ok t' -> expandable (shape t) s /\ t' = expand t s.
Proof.
  unfold expand_checked. destruct (expandableb (shape t) s) eqn:He; [|discriminate].
  intros [= <-]. split; [now apply expandableb_spec | reflexivity].
Qed.

Lemma expand_checked_fail {A} (t : tensor A) s :
  ~ expandable (shape t) s -> expand_checked t s = Raise RuntimeError.
Proof.
  intros Hne. unfold expand_checked.
  destruct (expandableb (shape t) s) eqn:He; [|reflexivity].
  now apply expandableb_spec in He.
Qed.

(** ** Mean and variance *)

Lemma expandable_unit2 bs n p :
  expandable (bs ++ [1; 1]%nat) (bs ++ [n; p]).
Proof.
  change [1; 1]%nat with ([1%nat] ++ [1%nat]). change [n; p] with ([n] ++ [p]).
  rewrite !app_assoc.
  apply expandable_app1; [|now right].
  apply expandable_app1; [apply expandable_refl | now right].
Qed.

Lemma valid_index_app2 bs n p b i j :
  valid_index (bs ++ [n; p]) (b ++ [i; j]) <->
  valid_index bs b /\ (i < n)%nat /\ (j < p)%nat.
Proof.
  unfold valid_index. split.
  - intros Hv. assert (Hlen : length b = length bs).
    { apply Forall2_length in Hv. rewrite !length_app in Hv. cbn in Hv. lia. }
    apply Forall2_app_inv in Hv as [Hb Hij]; [|exact Hlen].
    inversion Hij as [|? ? ? ? Hi Hj']; subst. inversion Hj'; subst. auto.
  - intros (Hb & Hi & Hj). apply Forall2_app; [exact Hb|]. now repeat constructor.
Qed.

Lemma stored_attrs_lookup tril cov prec (st t : tensor R) k :
  stored_attrs tril cov prec st !! k = Some t -> t = st.
Proof.
  unfold stored_attrs.
  destruct tril; [|destruct cov; [|destruct prec]];
    try (intros Hk; apply lookup_singleton_Some in Hk as [_ Hk]; now symmetry).
  now rewrite lookup_empty.
Qed.

Section Moments.
Context `{Numerics} `{RandomSource}.

Lemma constructed_df_shape self :
  constructed self ->
  shape (df self) = [] \/ shape (df self) = _batch_shape self.
Proof.
  intros (df_in & cov & prec & tril & va & w & w' & Hinit).
  apply Wishart_init_inv in Hinit as (param & _ & _ & _ & Hbatch & _).
  now apply resolve_batch_inv in Hbatch as [_ Hsdf].
Qed.

Lemma constructed_stored self k t :
  constructed self -> __dict__ self !! k = Some t ->
  shape t = _batch_shape self ++ _event_shape self.
Proof.
  intros (df_in & cov & prec & tril & va & w & w' & Hinit) Hk.
  apply Wishart_init_inv in Hinit
    as (param & _ & _ & _ & _ & _ & _ & Hdict & _).
  rewrite Hdict in Hk. now apply stored_attrs_lookup in Hk as ->.
Qed.

Lemma covariance_matrix_shape self V :
  constructed self -> covariance_matrix_of self = Ok V ->
  shape V = _batch_shape self ++ _event_shape self.
Proof.
  intros Hc. unfold covariance_matrix_of.
  destruct (__dict__ self !! "covariance_matrix") as [t|] eqn:Hk.
  - intros [= <-]. now apply (constructed_stored self "covariance_matrix").
  - destruct (matmul _ _); cbn [mbind result_bind]; [|discriminate].
    now intros [= <-].
Qed.

Lemma product_with_df (d V : tensor R) bs n p :
  shape d = bs ++ [1; 1]%nat -> shape V = bs ++ [n; p] ->
  exists t, tzip Rmult d V = Ok t /\ shape t = bs ++ [n; p] /\
    forall b i j, valid_index bs b -> (i < n)%nat -> (j < p)%nat ->
      data t (b ++ [i; j]) = data d (b ++ [0; 0]%nat) * data V (b ++ [i; j]).
Proof.
  intros Hd HV. unfold tzip.
  rewrite Hd, HV, (expandable_broadcast _ _ (expandable_unit2 bs n p)).
  eexists. split; [reflexivity|]. split; [reflexivity|].
  intros b i j Hb Hi Hj. cbn [data].
  rewrite !bindex_app2, (bindex_valid bs b Hb), (bdim_lt n i Hi), (bdim_lt p j Hj).
  reflexivity.
Qed.


Lemma einsum_outer_diag (D : tensor R) bs p :
  shape D = bs ++ [p] ->
  exists E, einsum_outer D D = Ok E /\ shape E = bs ++ [p; p] /\
    forall b i j, valid_index bs b ->
      data E (b ++ [i; j]) = data D (b ++ [i]) * data D (b ++ [j]).
Proof.
  intros HD. unfold einsum_outer, dim. rewrite HD, take_pred_app1, col_of_app1.
  replace (length (bs ++ [p]) <? 1)%nat with false
    by (symmetry; apply Nat.ltb_ge; rewrite length_app; cbn; lia).
  cbn [orb]. rewrite broadcast_shapes_refl.
  eexists. split; [reflexivity|]. split; [reflexivity|].
  intros b i j Hb. cbn [data].
  now rewrite batch_of_app2, row_of_app2, col_of_app2, (bindex_valid bs b Hb).
Qed.

Lemma variance_entries self :
  constructed self ->
  shape (df self) = _batch_shape self ->
  _event_shape self = [event_dim self; event_dim self] ->
  exists V t,
    covariance_matrix_of self = Ok V /\
    variance self = Ok t /\
    shape t = _batch_shape self ++ _event_shape self /\
    forall b i j,
      valid_index (_batch_shape self ++ _event_shape self) (b ++ [i; j]) ->
      data t (b ++ [i; j])
      = data (df self) b
        * (data V (b ++ [i; j]) ^ 2 + data V (b ++ [i; i]) * data V (b ++ [j; j])).
Proof.
  intros Hc Hdf Hev.
  destruct (covariance_matrix_ok self Hc) as [V HV].
  assert (HsV := covariance_matrix_shape self V Hc HV).
  destruct (view_unit2 (df self)) as (d & Hview & Hsd & Hd).
  rewrite Hdf in Hview, Hsd, Hd. rewrite Hev in HsV |- *.
  set (p := event_dim self) in *. set (bs := _batch_shape self) in *.
  destruct (einsum_outer_diag (diagonal V) bs p (diagonal_shape V bs p HsV))
    as (E & HE & HsE & HdE).
  assert (Hsum : exists S, tzip Rplus (tmap (fun v => v ^ 2) V) E = Ok S /\
            shape S = bs ++ [p; p] /\
            forall b i j, valid_index bs b -> (i < p)%nat -> (j < p)%nat ->
              data S (b ++ [i; j])
              = data V (b ++ [i; j]) ^ 2
                + data V (b ++ [i; i]) * data V (b ++ [j; j])).
  { unfold tzip. cbn [shape tmap]. rewrite HsV, HsE, broadcast_shapes_refl.
    eexists. split; [reflexivity|]. split; [reflexivity|].
    intros b i j Hb Hi Hj. cbn [data].
    rewrite bindex_valid by (apply valid_index_app2; auto).
    now rewrite HdE, !diagonal_data. }
  destruct Hsum as (S & HS & HsS & HdS).
  destruct (product_with_df d S _ _ _ Hsd HsS) as (t & Ht & Hst & Hdata).
  exists V, t. split; [exact HV|]. split; [|split; [exact Hst|]].
  - unfold variance, tbin. fold bs. rewrite HV. cbn [mbind result_bind].
    rewrite Hview, HE. cbn [mbind result_bind]. rewrite HS. exact Ht.
  - intros b i j Hv. apply valid_index_app2 in Hv as (Hb & Hi & Hj).
    rewrite Hdata, HdS, Hd by assumption. reflexivity.
Qed.

(** X2. For a constructed distribution of square event shape whose [df]
    has the batch shape, the entry [(i, j)] of [variance] is
    [df * (V_ij ^ 2 + V_ii * V_jj)] with [V] the covariance accessor's
    matrix; on the diagonal this is [2 * df * V_ii ^ 2]. *)
Theorem variance_formula self :
  constructed self ->
  shape (df self) = _batch_shape self ->
  _event_shape self = [event_dim self; event_dim self] ->
  exists V t,
    covariance_matrix_of self = Ok V /\
    variance self = Ok t /\
    shape t = _batch_shape self ++ _event_shape self /\
    (forall b i j,
       valid_index (_batch_shape self ++ _event_shape self) (b ++ [i; j]) ->
       data t (b ++ [i; j])
       = data (df self) b
         * (data V (b ++ [i; j]) ^ 2 + data V (b ++ [i; i]) * data V (b ++ [j; j])))
    /\
    (forall b i,
       valid_index (_batch_shape self ++ _event_shape self) (b ++ [i; i]) ->
       data t (b ++ [i; i]) = 2 * data (df self) b * data V (b ++ [i; i]) ^ 2)
    /\
    (forall b i j,
       valid_index (_batch_shape self ++ _event_shape self) (b ++ [i; j]) ->
       data V (b ++ [i; j]) = data V (b ++ [j; i]) ->
       data t (b ++ [i; j]) = data t (b ++ [j; i])).
Proof.
  intros Hc Hdf Hev.
  destruct (variance_entries self Hc Hdf Hev) as (V & t & HV & Ht & Hst & Hdata).
  exists V, t. repeat (split; [assumption|]). split.
  - intros b i Hv. rewrite (Hdata b i i Hv). ring.
  - intros b i j Hv Hsym. rewrite (Hdata b i j Hv), (Hdata b j i), Hsym; [ring|].
    rewrite Hev in Hv |- *. apply valid_index_app2 in Hv as (Hb & Hi & Hj).
    now apply valid_index_app2.
Qed.

Lemma rsum_square_nonneg n (f : nat -> R) : 0 <= rsum n (fun k => f k * f k).
Proof.
  induction n as [|n IH]; cbn [rsum]; [lra|]. nra.
Qed.

(** X3. When the covariance is derived from the scale factor, no entry of
    [variance] is negative. *)
Theorem variance_nonneg self :
  constructed self ->
  shape (df self) = _batch_shape self ->
  _event_shape self = [event_dim self; event_dim self] ->
  __dict__ self !! "covariance_matrix" = None ->
  exists t,
    variance self = Ok t /\
    forall idx, valid_index (shape t) idx -> 0 <= data t idx.
Proof.
  intros Hc Hdf Hev Hnone.
  destruct (variance_entries self Hc Hdf Hev) as (V & t & HV & Ht & Hst & Hdata).
  exists t. split; [exact Ht|]. intros idx Hv. rewrite Hst, Hev in Hv.
  assert (Hsplit : exists b i j, idx = b ++ [i; j]).
  { assert (Hlen : (2 <= length idx)%nat).
    { apply Forall2_length in Hv. rewrite length_app in Hv. cbn in Hv. lia. }
    exists (batch_of idx), (row_of idx), (col_of idx). now apply shape_split2. }
  destruct Hsplit as (b & i & j & ->).
  rewrite <- Hev in Hv. rewrite (Hdata b i j Hv). rewrite Hev in Hv.
  apply valid_index_app2 in Hv as (Hb & Hi & Hj).
  destruct (constructed_facts self Hc) as (bL & n & HL & Hev' & _ & _ & Hbound & _).
  assert (Hn : n = event_dim self) by (rewrite Hev in Hev'; now injection Hev').
  subst n.
  assert (Hdiag : forall k, (k < event_dim self)%nat -> 0 <= data V (b ++ [k; k])).
  { intros k Hk. unfold covariance_matrix_of in HV. rewrite Hnone in HV.
    destruct (matmul_transpose_ok _ _ _ _ HL) as (c & Hc' & Hsc & Hdc).
    rewrite Hc' in HV. cbn [mbind result_bind] in HV. injection HV as <-.
    cbn [expand data]. rewrite Hsc, bindex_app2, !(bdim_lt _ k Hk), Hdc.
    unfold mmul, transpose. apply rsum_square_nonneg. }
  assert (Hpos : 0 < data (df self) b).
  { rewrite <- Hdf in Hb. specialize (Hbound b Hb).
    assert (1 <= INR (event_dim self)); [|lra].
    change 1 with (INR 1). apply le_INR. lia. }
  apply Rmult_le_pos; [lra|].
  apply Rplus_le_le_0_compat; [apply pow2_ge_0|].
  apply Rmult_le_pos; now apply Hdiag.
Qed.

(** X4. When [df] is passed as a number, [self.df] has no axis whatever the
    batch shape of the parameter; [mean] and [variance] then raise
    [RuntimeError] in [view] unless the batch shape holds exactly one
    element. *)
Theorem moments_number_df_batched x cov prec tril va w self w' :
  Wishart_init (DfNumber x) cov prec tril va w = (Ok self, w') ->
  numel (_batch_shape self) <> 1%nat ->
  shape (df self) = []
  /\ mean self = Raise RuntimeError
  /\ variance self = Raise RuntimeError.
Proof.
  intros Hinit Hne.
  assert (Hc : constructed self) by (repeat eexists; exact Hinit).
  apply Wishart_init_inv in Hinit as (param & _ & _ & _ & Hbatch & _).
  cbn [resolve_batch] in Hbatch. injection Hbatch as _ Hdf.
  assert (Hview : view (df self) (_batch_shape self ++ [1; 1]%nat)
                  = Raise RuntimeError).
  { apply view_numel. rewrite <- Hdf, numel_app. cbn. cbn in Hne. lia. }
  split; [now rewrite <- Hdf|]. split.
  - unfold mean, tbin. now rewrite Hview.
  - unfold variance, tbin. destruct (covariance_matrix_ok self Hc) as [V ->].
    cbn [mbind result_bind]. now rewrite Hview.
Qed.

End Moments.

Lemma wishart_1x1_constructed : @constructed example_numerics replay wishart_1x1.
Proof.
  exists (DfNumber 1), None, None, (Some (torch_eye 1)), (Some false),
         (fresh_world []), (fresh_world []).
  apply wishart_1x1_init.
Qed.


Lemma variance_formula_witness :
  exists V t,
    covariance_matrix_of wishart_1x1 = Ok V
    /\ variance wishart_1x1 = Ok t
    /\ data t [0; 0]%nat = 2 * 1 * data V [0; 0]%nat ^ 2.
Proof.
  destruct (@variance_formula example_numerics replay wishart_1x1
              wishart_1x1_constructed eq_refl eq_refl)
    as (V & t & HV & Ht & _ & _ & Hd & _).
  exists V, t. split; [exact HV|]. split; [exact Ht|].
  apply (Hd [] 0%nat). repeat constructor.
Defined.

Lemma variance_nonneg_witness :
  exists t, variance wishart_1x1 = Ok t /\ 0 <= data t [0; 0]%nat.
Proof.
  destruct (@variance_nonneg example_numerics replay wishart_1x1
              wishart_1x1_constructed eq_refl eq_refl eq_refl) as (t & Ht & Hpos).
  exists t. split; [exact Ht|]. apply Hpos.
  unfold variance in Ht. cbn in Ht. injection Ht as <-. cbn. repeat constructor.
Defined.

Lemma moments_number_df_batched_witness :
  exists self w',
    @Wishart_init example_numerics replay (DfNumber 2) None None
                  (Some eye_batch) (Some false) (fresh_world [])
    = (Ok self, w')
    /\ mean self = Raise RuntimeError
    /\ variance self = Raise RuntimeError.
Proof.
  destruct (@init_scale_tril_number example_numerics replay 2 eye_batch
              (fresh_world [])) as (self & Hinit & _ & Hbs & _);
    [cbn; lia | cbn; lra |].
  eexists self, _. split; [exact Hinit|].
  eapply (@moments_number_df_batched example_numerics replay); [exact Hinit|].
  rewrite Hbs. cbn. lia.
Defined.

(** ** The constructor: stored arguments, batch shape, failures *)

Section ConstructorMore.
Context `{Numerics} `{RandomSource}.

(** X5. The accessor named like the argument that was passed returns that
    argument expanded to [batch_shape + event_shape]: each of its batch
    elements is the batch element of the argument it is broadcast from. *)
Theorem accessor_returns_argument df_in cov prec tril va w self w' :
  Wishart_init df_in cov prec tril va w = (Ok self, w') ->
  let target := _batch_shape self ++ _event_shape self in
  (forall t, tril = Some t -> scale_tril_of self = expand t target)
  /\ (forall c, cov = Some c -> covariance_matrix_of self = Ok (expand c target))
  /\ (forall q, prec = Some q -> precision_matrix_of self = Ok (expand q target))
  /\ (forall param, next_not_none [cov; prec; tril] = Ok param ->
        forall b i j, valid_index target (b ++ [i; j]) ->
          mat_at (expand param target) b i j
          = mat_at param (bindex (batch_of (shape param)) b) i j).
Proof.
  intros Hinit target.
  apply Wishart_init_inv in Hinit
    as (param & Hcount & Hparam & Hdim & _ & Hev & _ & Hdict & _).
  fold target in Hdict.
  split; [|split; [|split]].
  - intros t ->. destruct cov, prec; try (cbn in Hcount; lia).
    cbn in Hparam. injection Hparam as <-.
    unfold scale_tril_of. rewrite Hdict. cbn [stored_attrs].
    now rewrite lookup_singleton.
  - intros c ->. destruct tril, prec; try (cbn in Hcount; lia).
    cbn in Hparam. injection Hparam as <-.
    unfold covariance_matrix_of. rewrite Hdict. cbn [stored_attrs].
    now rewrite lookup_singleton.
  - intros q ->. destruct tril, cov; try (cbn in Hcount; lia).
    cbn in Hparam. injection Hparam as <-.
    unfold precision_matrix_of. rewrite Hdict. cbn [stored_attrs].
    now rewrite lookup_singleton.
  - intros param' Hparam' b i j Hv. rewrite Hparam in Hparam'.
    injection Hparam' as <-.
    destruct (last_drop2 (shape param) Hdim) as [Hdrop _].
    unfold target in Hv. rewrite Hev, Hdrop in Hv.
    apply valid_index_app2 in Hv as (_ & Hi & Hj).
    apply (mat_at_expand param _ _ _ _ _ _ _ (shape_split2 _ Hdim) Hi Hj).
Qed.

(** X6. Line 92 runs before the base-class constructor and the
    factorization: a construction that fails after the check of [df] has
    already overwritten the ["df"] entry of the class-level
    [arg_constraints]. *)
Theorem failed_init_overwrites_constraint df_in cov prec tril va w param bs sdf e w' :
  (is_not_None cov + is_not_None tril + is_not_None prec = 1)%nat ->
  next_not_none [cov; prec; tril] = Ok param ->
  (2 <= dim param)%nat ->
  resolve_batch df_in param = Ok (bs, sdf) ->
  let p := col_of (shape param) in
  (forall idx, valid_index (shape sdf) idx -> INR p - 1 < data sdf idx) ->
  Wishart_init df_in cov prec tril va w = (Raise e, w') ->
  arg_constraints w'
  = <["df" := greater_than (Z.of_nat p - 1)]> (arg_constraints w)
  /\ generator w' = generator w.
Proof.
  intros Hcount Hparam Hdim Hbatch p Hbound.
  destruct (last_drop2 (shape param) Hdim) as [_ Hlast].
  apply df_bound_iff in Hbound.
  unfold Wishart_init. rewrite Hcount. cbn [Nat.eqb negb].
  unfold mbind, M_bind, lift. rewrite Hparam.
  destruct (Nat.ltb_spec (dim param) 2) as [|_]; [lia|].
  rewrite Hbatch. cbn [fst snd]. rewrite Hlast. fold p. rewrite Hbound.
  unfold set_arg_constraint at 1.
  destruct (tany (tmap (fun x => Rltb x _) sdf)).
  - unfold warn, Distribution_init, mbind, M_bind, get_world, mret, M_ret, raise.
    cbn [default_validate_args arg_constraints].
    destruct (_ && _); [now intros [= <- <-]|].
    destruct (resolve_scale_tril tril cov prec); [|now intros [= <- <-]].
    destruct (chi2_df sdf bs p); [discriminate | now intros [= <- <-]].
  - unfold Distribution_init, mbind, M_bind, get_world, mret, M_ret, raise.
    cbn [default_validate_args arg_constraints].
    destruct (_ && _); [now intros [= <- <-]|].
    destruct (resolve_scale_tril tril cov prec); [|now intros [= <- <-]].
    destruct (chi2_df sdf bs p); [discriminate | now intros [= <- <-]].
Qed.

(** X7. With a tensor [df], the batch shape is the least shape to which
    both the batch shape of the parameter and the shape of [df] expand, and
    [self.df] has that shape; when no such shape exists the constructor
    raises [RuntimeError] and leaves the interpreter state as it was. *)
Theorem init_batch_shape t cov prec tril va w param :
  (is_not_None cov + is_not_None tril + is_not_None prec = 1)%nat ->
  next_not_none [cov; prec; tril] = Ok param ->
  (2 <= dim param)%nat ->
  (forall self w',
     Wishart_init (DfTensor t) cov prec tril va w = (Ok self, w') ->
     let bs := _batch_shape self in
     expandable (batch_of (shape param)) bs
     /\ expandable (shape t) bs
     /\ (forall s, expandable (batch_of (shape param)) s -> expandable (shape t) s ->
                   expandable bs s)
     /\ shape (df self) = bs
     /\ forall idx, data (df self) idx = data t (bindex (shape t) idx))
  /\
  ((forall s, ~ (expandable (batch_of (shape param)) s /\ expandable (shape t) s)) ->
   Wishart_init (DfTensor t) cov prec tril va w = (Raise RuntimeError, w)).
Proof.
  intros Hcount Hparam Hdim. split.
  - intros self w' Hinit bs.
    apply Wishart_init_inv in Hinit as (param' & _ & Hparam' & _ & Hbatch & _).
    rewrite Hparam in Hparam'. injection Hparam' as <-.
    cbn [resolve_batch] in Hbatch.
    destruct (broadcast_shapes _ _) as [s0|] eqn:Hs0; [|discriminate].
    injection Hbatch as Hbs Hdf. fold bs in Hbs. subst s0.
    destruct (broadcast_shapes_expandable _ _ _ Hs0) as [Hp Ht].
    split; [exact Hp|]. split; [exact Ht|]. split; [|split].
    + intros s H1 H2.
      destruct (broadcast_shapes_lub _ _ _ H1 H2) as (s' & Hs' & He).
      rewrite Hs0 in Hs'. now injection Hs' as <-.
    + now rewrite <- Hdf.
    + intros idx. now rewrite <- Hdf.
  - intros Hnone. unfold Wishart_init. rewrite Hcount. cbn [Nat.eqb negb].
    unfold mbind, M_bind, lift. rewrite Hparam.
    destruct (Nat.ltb_spec (dim param) 2) as [|_]; [lia|].
    cbn [resolve_batch].
    destruct (broadcast_shapes _ _) as [s0|] eqn:Hs0; [|reflexivity].
    destruct (Hnone s0). now apply broadcast_shapes_expandable.
Qed.

End ConstructorMore.

(** ** Sampling: what a draw and the correction loop leave unchanged *)

Section SamplingMore.
Context `{Numerics} `{RandomSource}.

Lemma same_settings_refl w : same_settings w w.
Proof. now repeat split. Qed.

Lemma same_settings_trans w1 w2 w3 :
  same_settings w1 w2 -> same_settings w2 w3 -> same_settings w1 w3.
Proof.
  unfold same_settings. intros (? & ? & ? & ?) (? & ? & ? & ?).
  repeat split; congruence.
Qed.

Lemma bartlett_sampling_settings self sample_shape w :
  same_settings w (snd (_bartlett_sampling self sample_shape w)).
Proof.
  unfold _bartlett_sampling, mbind, M_bind, log_sampling, chi2_rsample,
    torch_randn, with_generator, lift.
  cbn [generator].
  destruct (draw_tensor _ _ _) as [chi g1]. cbn [generator].
  destruct (draw_tensor _ _ _) as [normals g2].
  destruct (matmul _ _) as [chol|e]; [|now repeat split].
  destruct (matmul _ _); now repeat split.
Qed.

Lemma bartlett_sampling_ok self sample_shape w :
  constructed self ->
  exists bL n sample w',
    shape (_unbroadcasted_scale_tril self) = bL ++ [n; event_dim self]
    /\ _event_shape self = [n; event_dim self]
    /\ expandable bL (_batch_shape self)
    /\ _bartlett_sampling self sample_shape w = (Ok sample, w')
    /\ shape sample = (sample_shape ++ _batch_shape self) ++ [n; n]
    /\ exists noise : tensor R,
         forall c, valid_index (sample_shape ++ _batch_shape self) c ->
           let C := mmul (event_dim self)
                         (mat_at (_unbroadcasted_scale_tril self) (bindex bL c))
                         (mat_at noise c) in
           forall i j,
             mat_at sample c i j = mmul (event_dim self) C (transpose C) i j.
Proof.
  intros Hc.
  destruct (constructed_facts self Hc)
    as (bL & n & HL & Hev & HbL & _ & _ & Hsdfs & _).
  destruct (draw_tensor
              (fun idx => chi2_variate
                            (data (_dist_chi2 self)
                                  (bindex (shape (_dist_chi2 self)) idx)))
              (sample_shape ++ shape (_dist_chi2 self)) (generator w))
    as [chi g1] eqn:Hchi.
  destruct (draw_tensor (fun _ => randn1)
              (sample_shape ++ _batch_shape self
                 ++ [(event_dim self * (event_dim self - 1) / 2)%nat]) g1)
    as [normals g2] eqn:Hnorm.
  destruct (bartlett_sampling_spec self sample_shape w bL n chi g1 normals g2
              HL HbL Hsdfs Hchi Hnorm) as (sample & Hsample & Hshape & Hentry).
  exists bL, n, sample. eexists. repeat (split; [eassumption|]).
  eexists. exact Hentry.
Qed.

Lemma quadratic_form_gram n p (C : matrix) (x : nat -> R) :
  rsum n (fun i => rsum n (fun j => x i * mmul p C (transpose C) i j * x j))
  = rsum p (fun k => rsum n (fun i => x i * C i k) * rsum n (fun i => x i * C i k)).
Proof.
  transitivity
    (rsum n (fun i => rsum n (fun j =>
       rsum p (fun k => x i * C i k * (x j * C j k))))).
  - apply rsum_ext; intros i _. apply rsum_ext; intros j _.
    unfold mmul, transpose. rewrite <- rsum_scal_l, <- rsum_scal_r.
    apply rsum_ext; intros k _. ring.
  - transitivity
      (rsum n (fun i => rsum p (fun k =>
         rsum n (fun j => x i * C i k * (x j * C j k))))).
    + apply rsum_ext; intros i _.
      apply (rsum_swap n p (fun j k => x i * C i k * (x j * C j k))).
    + rewrite (rsum_swap n p
                 (fun i k => rsum n (fun j => x i * C i k * (x j * C j k)))).
      apply rsum_ext; intros k _. rewrite <- rsum_scal_r.
      apply rsum_ext; intros i _. now rewrite <- rsum_scal_l.
Qed.

(** X8. Every matrix drawn by [_bartlett_sampling] is positive
    semi-definite: its quadratic form takes no negative value, and in
    particular no diagonal entry is negative. *)
Theorem bartlett_draw_psd self sample_shape w :
  constructed self ->
  exists n sample w',
    _event_shape self = [n; event_dim self]
    /\ _bartlett_sampling self sample_shape w = (Ok sample, w')
    /\ shape sample = (sample_shape ++ _batch_shape self) ++ [n; n]
    /\ forall c, valid_index (sample_shape ++ _batch_shape self) c ->
         (forall i, 0 <= mat_at sample c i i)
         /\ (forall x : nat -> R,
               0 <= rsum n (fun i => rsum n (fun j =>
                                x i * mat_at sample c i j * x j))).
Proof.
  intros Hc.
  destruct (bartlett_sampling_ok self sample_shape w Hc)
    as (bL & n & sample & w' & _ & Hev & _ & Hsample & Hshape & noise & Hentry).
  exists n, sample, w'. repeat (split; [assumption|]).
  intros c Hv. specialize (Hentry c Hv). cbv zeta in Hentry. split.
  - intros i. rewrite Hentry. unfold mmul at 1, transpose.
    apply rsum_square_nonneg.
  - intros x.
    rewrite (rsum_ext n _ (fun i => rsum n (fun j =>
               x i * mmul (event_dim self)
                       (mmul (event_dim self)
                          (mat_at (_unbroadcasted_scale_tril self) (bindex bL c))
                          (mat_at noise c))
                       (transpose
                          (mmul (event_dim self)
                             (mat_at (_unbroadcasted_scale_tril self) (bindex bL c))
                             (mat_at noise c))) i j * x j))).
    + rewrite quadratic_form_gram. apply rsum_square_nonneg.
    + intros i _. apply rsum_ext; intros j _. now rewrite Hentry.
Qed.

Lemma correct_eager_settings self n : forall sample mask w,
  same_settings w (snd (correct_eager self n sample mask w)).
Proof.
  induction n as [|n IH]; intros sample mask w; [apply same_settings_refl|].
  cbn [correct_eager]. unfold mbind at 1, M_bind at 1.
  assert (Hs := bartlett_sampling_settings self [mask_count mask] w).
  destruct (_bartlett_sampling self [mask_count mask] w) as [[s1|e] w1];
    [|exact Hs].
  cbn [snd] in Hs. destruct (negb (tany _)); [exact Hs|].
  eapply same_settings_trans; [exact Hs | apply IH].
Qed.

Lemma correct_traced_settings self sample_shape n : forall sample mask w,
  same_settings w (snd (correct_traced self sample_shape n sample mask w)).
Proof.
  induction n as [|n IH]; intros sample mask w; [apply same_settings_refl|].
  cbn [correct_traced]. unfold mbind at 1, M_bind at 1.
  assert (Hs := bartlett_sampling_settings self sample_shape w).
  destruct (_bartlett_sampling self sample_shape w) as [[s1|e] w1]; [|exact Hs].
  cbn [snd] in Hs. unfold mbind at 1, M_bind at 1, lift at 1.
  destruct (twhere mask s1 sample) as [s2|e]; [|exact Hs].
  eapply same_settings_trans; [exact Hs | apply IH].
Qed.

(** X9. [rsample] leaves the class-level constraints and the interpreter
    settings as they are. It emits the warning about singular samples at
    most once per call, and never under tracing. *)
Theorem rsample_warns_at_most_once self sample_shape (m : option Z) w :
  let w' := snd (rsample self sample_shape m w) in
  tracing_state w' = tracing_state w
  /\ default_validate_args w' = default_validate_args w
  /\ arg_constraints w' = arg_constraints w
  /\ (warnings_log w' = warnings_log w
      \/ tracing_state w = false
         /\ warnings_log w' = singular_warning :: warnings_log w).
Proof.
  unfold rsample, mbind, M_bind, get_world.
  assert (Hs := bartlett_sampling_settings self sample_shape w).
  destruct (_bartlett_sampling self sample_shape w) as [[s0|e] w1];
    cbn [snd] in Hs |- *.
  2:{ destruct Hs as (? & ? & ? & ?). auto. }
  destruct Hs as (Htr & Hva & Hac & Hwl).
  destruct (tracing_state w) eqn:Ht.
  - destruct (correct_traced_settings self sample_shape
                (Z.to_nat match m with Some m0 => m0 | None => 3%Z end)
                s0 (reduce_batch self (support_check s0)) w1)
      as (? & ? & ? & ?).
    repeat split; try congruence. left. congruence.
  - destruct (tany _).
    + unfold warn. cbv beta iota.
      match goal with |- context [correct_eager self ?n ?s ?k ?w2] =>
        destruct (correct_eager_settings self n s k w2) as (H1 & H2 & H3 & H4)
      end.
      cbn [tracing_state default_validate_args arg_constraints warnings_log]
        in H1, H2, H3, H4.
      repeat split; try congruence. right. split; [reflexivity | congruence].
    + cbn [snd]. auto.
Qed.

End SamplingMore.

(** ** The reduction of the mask over the batch axes *)

Lemma amax_at_last (t : tensor bool) s n :
  shape t = s ++ [n] ->
  shape (amax_at (length s) t) = s
  /\ forall idx, length idx = length s ->
       (data (amax_at (length s) t) idx = true
        <-> exists i, (i < n)%nat /\ data t (idx ++ [i]) = true).
Proof.
  intros Hs. unfold amax_at. cbn [shape data]. rewrite Hs. split.
  - rewrite take_app_length, drop_ge by (rewrite length_app; cbn; lia).
    apply app_nil_r.
  - intros idx Hlen. rewrite nth_middle, <- Hlen.
    rewrite take_ge, drop_ge by lia. rewrite existsb_exists. split.
    + intros (i & Hin & Hi). apply in_seq in Hin. exists i. split; [lia | exact Hi].
    + intros (i & Hlt & Hi). exists i. split; [apply in_seq; lia | exact Hi].
Qed.

Lemma fold_amax_skip (P : list nat) (l : list nat) (t : tensor bool) :
  (forall pos, In pos l -> pos ∉ P) ->
  fold_left (fun acc pos => if bool_decide (pos ∈ P) then amax_at pos acc else acc)
            l t = t.
Proof.
  revert t. induction l as [|pos l IH]; intros t Hout; [reflexivity|].
  cbn [fold_left]. rewrite bool_decide_eq_false_2 by (apply Hout; now left).
  apply IH. intros q Hq. apply Hout. now right.
Qed.

Lemma fold_amax_all (P : list nat) (l : list nat) (t : tensor bool) :
  (forall pos, In pos l -> pos ∈ P) ->
  fold_left (fun acc pos => if bool_decide (pos ∈ P) then amax_at pos acc else acc)
            l t
  = fold_left (fun acc pos => amax_at pos acc) l t.
Proof.
  revert t. induction l as [|pos l IH]; intros t Hin; [reflexivity|].
  cbn [fold_left]. rewrite bool_decide_eq_true_2 by (apply Hin; now left).
  apply IH. intros q Hq. apply Hin. now right.
Qed.

(** Reducing the trailing axes one after the other, the last one first,
    leaves the leading axes, and an entry is set when some entry below it
    was. *)
Lemma fold_amax_trailing ss : forall bs (t : tensor bool),
  shape t = ss ++ bs ->
  let r := fold_left (fun acc pos => amax_at pos acc)
                     (rev (seq (length ss) (length bs))) t in
  shape r = ss
  /\ forall s, length s = length ss ->
       (data r s = true
        <-> exists b, valid_index bs b /\ data t (s ++ b) = true).
Proof.
  induction bs as [|n bs IH] using rev_ind; intros t Hs r.
  - unfold r. cbn [length seq rev fold_left]. rewrite app_nil_r in Hs.
    split; [exact Hs|]. intros s _. split.
    + intros Hd. exists []. split; [constructor | now rewrite app_nil_r].
    + intros (b & Hb & Hd). inversion Hb; subst. now rewrite app_nil_r in Hd.
  - unfold r. rewrite length_app, Nat.add_comm. cbn [length Nat.add].
    rewrite seq_S, rev_app_distr. cbn [rev app fold_left].
    rewrite app_assoc in Hs.
    destruct (amax_at_last t (ss ++ bs) n Hs) as [Hshape Hdata].
    rewrite length_app in Hshape, Hdata.
    destruct (IH (amax_at (length ss + length bs) t) Hshape) as [Hs' Hd'].
    split; [exact Hs'|]. intros s Hlen. rewrite (Hd' s Hlen). split.
    + intros (b & Hb & Hd).
      apply Hdata in Hd as (i & Hi & Hd).
      * exists (b ++ [i]). split; [|now rewrite app_assoc].
        apply Forall2_app; [exact Hb | now repeat constructor].
      * rewrite length_app. apply Forall2_length in Hb. lia.
    + intros (b & Hb & Hd).
      apply Forall2_app_inv_r in Hb as (b' & l & Hb' & Hl & ->).
      inversion Hl as [|i ? ? ? Hi Hnil]; subst. inversion Hnil; subst.
      exists b'. split; [exact Hb'|]. apply Hdata.
      * rewrite length_app. apply Forall2_length in Hb'. lia.
      * exists i. split; [exact Hi|]. now rewrite <- app_assoc.
Qed.

Lemma normalize_batch_dim r x :
  (x < r)%nat -> normalize_dim r (- (Z.of_nat x + 1))%Z = (r - 1 - x)%nat.
Proof.
  intros Hx. unfold normalize_dim.
  destruct (Z.ltb_spec (- (Z.of_nat x + 1)) 0); lia.
Qed.

Lemma amax_batch_dims (t : tensor bool) ss bs :
  shape t = ss ++ bs ->
  let r := amax t (map (fun x => (- (Z.of_nat x + 1))%Z) (seq 0 (length bs))) in
  shape r = ss
  /\ forall s, length s = length ss ->
       (data r s = true
        <-> exists b, valid_index bs b /\ data t (s ++ b) = true).
Proof.
  intros Hs. unfold amax, dim. rewrite Hs, length_app.
  set (a := length ss). set (k := length bs).
  set (P := map (normalize_dim (a + k)) _).
  assert (HP : forall pos, pos ∈ P <-> (a <= pos < a + k)%nat).
  { intros pos. unfold P. rewrite list_elem_of_In, map_map, in_map_iff. split.
    - intros (x & <- & Hx). apply in_seq in Hx.
      rewrite normalize_batch_dim by lia. lia.
    - intros Hpos. exists (a + k - 1 - pos)%nat. split.
      + rewrite normalize_batch_dim by lia. lia.
      + apply in_seq. lia. }
  rewrite seq_app, rev_app_distr, fold_left_app. cbn [Nat.add].
  rewrite (fold_amax_skip P (rev (seq 0 a))).
  2:{ intros pos Hin. apply in_rev, in_seq in Hin. rewrite HP. lia. }
  rewrite (fold_amax_all P (rev (seq a k))).
  2:{ intros pos Hin. apply in_rev, in_seq in Hin. apply HP. lia. }
  now apply fold_amax_trailing.
Qed.

Section MaskReduction.
Context `{Numerics} `{RandomSource}.

(** X10. Lines 215-216 reduce the mask over the batch axes: for a
    constructed distribution and a mask of shape
    [sample_shape + batch_shape], the reduced mask has shape [sample_shape]
    and selects a slot exactly when the mask selects one of the batch
    elements of that slot. *)
Theorem reduce_batch_any self (m : tensor bool) sample_shape :
  constructed self ->
  shape m = sample_shape ++ _batch_shape self ->
  shape (reduce_batch self m) = sample_shape
  /\ forall s, length s = length sample_shape ->
       (data (reduce_batch self m) s = true
        <-> exists b, valid_index (_batch_shape self) b /\ data m (s ++ b) = true).
Proof.
  intros (df_in & cov & prec & tril & va & w & w' & Hinit) Hs.
  apply Wishart_init_inv in Hinit
    as (param & _ & _ & _ & _ & _ & _ & _ & _ & _ & Hdims & _).
  unfold reduce_batch. rewrite Hdims.
  destruct (_batch_shape self) as [|n bs] eqn:Hbs.
  - rewrite app_nil_r in Hs. split; [exact Hs|]. intros s _. split.
    + intros Hd. exists []. split; [constructor | now rewrite app_nil_r].
    + intros (b & Hb & Hd). inversion Hb; subst. now rewrite app_nil_r in Hd.
  - now apply amax_batch_dims.
Qed.

Lemma reduce_batch_shape self (m : tensor bool) sample_shape :
  constructed self ->
  shape m = sample_shape ++ _batch_shape self ->
  shape (reduce_batch self m) = sample_shape.
Proof.
  intros (df_in & cov & prec & tril & va & w & w' & Hinit) Hs.
  apply Wishart_init_inv in Hinit
    as (param & _ & _ & _ & _ & _ & _ & _ & _ & _ & Hdims & _).
  unfold reduce_batch. rewrite Hdims.
  destruct (_batch_shape self) as [|n bs] eqn:Hbs.
  - now rewrite app_nil_r in Hs.
  - now apply amax_batch_dims.
Qed.

End MaskReduction.

(** ** Sampling: the correction loops *)

Section CorrectionLoops.
Context `{Numerics} `{RandomSource}.

(** The loop of lines 233-243 on a constructed distribution: it returns,
    it keeps the shape of the sample, and it writes only to the slots that
    the mask it starts from selects. *)
Lemma correct_eager_ok self n :
  constructed self ->
  forall sample mask w,
  exists s w',
    correct_eager self n sample mask w = (Ok s, w')
    /\ shape s = shape sample
    /\ forall idx, data mask (take (dim mask) idx) = false ->
                   data s idx = data sample idx.
Proof.
  intros Hc. induction n as [|n IH]; intros sample mask w.
  - exists sample, w. now repeat split.
  - cbn [correct_eager]. unfold mbind at 1, M_bind at 1.
    destruct (bartlett_sampling_ok self [mask_count mask] w Hc)
      as (bL & n0 & s1 & w1 & _ & _ & _ & Hs1 & _).
    rewrite Hs1. destruct (negb (tany _)).
    + eexists _, _. split; [reflexivity|]. split; [reflexivity|].
      intros idx Hf. cbn [masked_assign data]. now rewrite Hf.
    + destruct (IH (masked_assign sample mask s1)
                   (masked_assign mask mask
                      (reduce_batch self (tmap negb (support_check s1)))) w1)
        as (s & w' & Hs & Hshape & Hdata).
      exists s, w'. split; [exact Hs|]. split; [now rewrite Hshape|].
      intros idx Hf. rewrite Hdata.
      * cbn [masked_assign data]. now rewrite Hf.
      * unfold dim. cbn [masked_assign shape data]. fold (dim mask).
        now rewrite take_idemp, Hf.
Qed.

(** X11. Outside tracing, [rsample] on a constructed distribution always
    returns a sample; it has the shape of the candidate, and every slot
    that the mask computed from the candidate at lines 214-216 does not
    select holds the value the candidate has there. When that mask selects
    nothing the candidate itself is returned. *)
Theorem rsample_eager_frame self sample_shape (m : option Z) w :
  constructed self ->
  tracing_state w = false ->
  exists n s0 w1 s w',
    _event_shape self = [n; event_dim self]
    /\ _bartlett_sampling self sample_shape w = (Ok s0, w1)
    /\ rsample self sample_shape m w = (Ok s, w')
    /\ shape s0 = (sample_shape ++ _batch_shape self) ++ [n; n]
    /\ shape s = shape s0
    /\ let mask := reduce_batch self (support_check s0) in
       (forall idx, data mask (take (dim mask) idx) = false ->
                    data s idx = data s0 idx)
       /\ (tany mask = false -> s = s0).
Proof.
  intros Hc Htr.
  destruct (bartlett_sampling_ok self sample_shape w Hc)
    as (bL & n0 & s0 & w1 & _ & Hev & _ & Hs0 & Hshape0 & _).
  unfold rsample, mbind, M_bind, get_world. rewrite Hs0, Htr.
  destruct (tany (reduce_batch self (support_check s0))) eqn:Hany.
  - unfold warn. cbv beta iota.
    match goal with |- context [correct_eager self ?n0 ?c0 ?k0 ?w2] =>
      destruct (correct_eager_ok self n0 Hc c0 k0 w2)
        as (s & w' & Hs & Hshape & Hdata)
    end.
    exists n0, s0, w1, s, w'. rewrite Hs.
    split; [exact Hev|]. split; [reflexivity|]. split; [reflexivity|].
    split; [exact Hshape0|]. split; [exact Hshape|].
    cbv zeta. split; [exact Hdata|]. rewrite Hany. discriminate.
  - exists n0, s0, w1, s0, w1. now repeat split.
Qed.

(** [torch.where] on a mask and two tensors of one shape. *)
Lemma twhere_same_shape (mask : tensor bool) (a b : tensor R) full :
  shape a = full -> shape b = full ->
  twhere mask a b
  = match broadcast_shapes (shape mask) full with
    | Some s =>
        Ok (Tensor s (fun idx =>
                        if data mask (bindex (shape mask) idx)
                        then data a (bindex full idx)
                        else data b (bindex full idx)))
    | None => Raise RuntimeError
    end.
Proof.
  intros Ha Hb. unfold twhere. now rewrite Ha, Hb, broadcast_shapes_refl.
Qed.

(** The loop of lines 220-226 on a constructed distribution, when the
    mask broadcasts against the sample. *)
Lemma correct_traced_ok self sample_shape n0 :
  constructed self ->
  _event_shape self = [n0; event_dim self] ->
  let full := (sample_shape ++ _batch_shape self) ++ [n0; n0] in
  broadcast_shapes sample_shape full = Some full ->
  forall n sample mask w,
    shape sample = full -> shape mask = sample_shape ->
    exists s w',
      correct_traced self sample_shape n sample mask w = (Ok s, w')
      /\ shape s = full.
Proof.
  intros Hc Hev full Hbr. induction n as [|n IH]; intros sample mask w Hss Hsm.
  - exists sample, w. now split.
  - cbn [correct_traced]. unfold mbind at 1, M_bind at 1.
    destruct (bartlett_sampling_ok self sample_shape w Hc)
      as (bL & n1 & s1 & w1 & _ & Hev1 & _ & Hs1 & Hshape1 & _).
    rewrite Hev in Hev1. injection Hev1 as <-. fold full in Hshape1.
    rewrite Hs1. unfold mbind at 1, M_bind at 1, lift at 1.
    rewrite (twhere_same_shape mask s1 sample full Hshape1 Hss), Hsm, Hbr.
    apply IH; [reflexivity|].
    apply (reduce_batch_shape self _ sample_shape Hc).
    cbn [tmap support_check lift_check shape]. unfold full. apply batch_of_app2.
Qed.

Lemma correct_traced_fail self sample_shape n0 :
  constructed self ->
  _event_shape self = [n0; event_dim self] ->
  let full := (sample_shape ++ _batch_shape self) ++ [n0; n0] in
  broadcast_shapes sample_shape full = None ->
  forall n sample mask w,
    shape sample = full -> shape mask = sample_shape ->
    fst (correct_traced self sample_shape (S n) sample mask w) = Raise RuntimeError.
Proof.
  intros Hc Hev full Hbr n sample mask w Hss Hsm.
  cbn [correct_traced]. unfold mbind at 1, M_bind at 1.
  destruct (bartlett_sampling_ok self sample_shape w Hc)
    as (bL & n1 & s1 & w1 & _ & Hev1 & _ & Hs1 & Hshape1 & _).
  rewrite Hev in Hev1. injection Hev1 as <-. fold full in Hshape1.
  rewrite Hs1. unfold mbind at 1, M_bind at 1, lift at 1.
  now rewrite (twhere_same_shape mask s1 sample _ Hshape1 Hss), Hsm, Hbr.
Qed.

Lemma correct_traced_count self sample_shape n : forall sample mask w s w',
  correct_traced self sample_shape n sample mask w = (Ok s, w') ->
  sampling_log w' = replicate n sample_shape ++ sampling_log w.
Proof.
  induction n as [|n IH]; intros sample mask w s w'.
  - now intros [= _ <-].
  - cbn [correct_traced]. unfold mbind at 1, M_bind at 1.
    assert (Hlog := bartlett_sampling_log self sample_shape w).
    destruct (_bartlett_sampling self sample_shape w) as [[s1|e] w1];
      [|discriminate].
    cbn [snd] in Hlog. unfold mbind at 1, M_bind at 1, lift at 1.
    destruct (twhere mask s1 sample) as [s2|e]; [|discriminate].
    intros Hrec. apply IH in Hrec. rewrite Hrec, Hlog.
    change (replicate (S n) sample_shape)
      with (sample_shape :: replicate n sample_shape).
    rewrite replicate_cons_app, <- app_assoc. reflexivity.
Qed.

(** X12. Under tracing the loop has no early exit: a call of [rsample]
    that returns a sample has drawn the candidate and then exactly
    [max_try_correction] further samples (3 by default), each of the full
    sample shape, and has emitted no warning. *)
Theorem rsample_traced_draws self sample_shape (m : option Z) w s w' :
  tracing_state w = true ->
  rsample self sample_shape m w = (Ok s, w') ->
  sampling_log w'
  = replicate (S (Z.to_nat (default 3%Z m))) sample_shape ++ sampling_log w
  /\ warnings_log w' = warnings_log w.
Proof.
  intros Htr. unfold rsample, mbind, M_bind, get_world. rewrite Htr.
  assert (Hlog := bartlett_sampling_log self sample_shape w).
  assert (Hset := bartlett_sampling_settings self sample_shape w).
  destruct (_bartlett_sampling self sample_shape w) as [[s0|e] w1];
    [|discriminate].
  cbn [snd] in Hlog, Hset. intros Hrec.
  replace (match m with Some m0 => m0 | None => 3%Z end) with (default 3%Z m)
    in Hrec by now destruct m.
  split.
  - apply correct_traced_count in Hrec. rewrite Hrec, Hlog.
    set (n := Z.to_nat (default 3%Z m)).
    change (replicate (S n) sample_shape)
      with (sample_shape :: replicate n sample_shape).
    rewrite replicate_cons_app, <- app_assoc. reflexivity.
  - match type of Hrec with correct_traced self ?ss ?n0 ?c0 ?k0 ?w2 = _ =>
      destruct (correct_traced_settings self ss n0 c0 k0 w2) as (_ & _ & _ & Hw)
    end.
    rewrite Hrec in Hw. cbn [snd] in Hw. destruct Hset as (_ & _ & _ & Hw1).
    congruence.
Qed.

(** X13. Under tracing, on a constructed distribution of dimension [p],
    the mask has the sample shape and [torch.where] broadcasts it against
    tensors of shape [sample_shape + batch_shape + (p, p)]. With at least
    one correction try, [rsample] raises [RuntimeError] when the two shapes
    do not broadcast, and returns a sample of the full shape when they
    broadcast to the full shape. *)
Theorem rsample_traced_broadcast self sample_shape (m : option Z) w :
  constructed self ->
  _event_shape self = [event_dim self; event_dim self] ->
  tracing_state w = true ->
  (0 < default 3 m)%Z ->
  let full := (sample_shape ++ _batch_shape self) ++ _event_shape self in
  (broadcast_shapes sample_shape full = None ->
   fst (rsample self sample_shape m w) = Raise RuntimeError)
  /\
  (broadcast_shapes sample_shape full = Some full ->
   exists s w', rsample self sample_shape m w = (Ok s, w') /\ shape s = full).
Proof.
  intros Hc Hev Htr Hm full.
  destruct (bartlett_sampling_ok self sample_shape w Hc)
    as (bL & n1 & s0 & w1 & _ & Hev1 & _ & Hs0 & Hshape0 & _).
  assert (Hn1 : n1 = event_dim self) by (rewrite Hev in Hev1; now injection Hev1).
  subst n1.
  assert (Hmask : shape (reduce_batch self (support_check s0)) = sample_shape).
  { apply (reduce_batch_shape self _ sample_shape Hc).
    cbn [support_check lift_check shape]. rewrite Hshape0. apply batch_of_app2. }
  unfold rsample, mbind, M_bind, get_world. rewrite Hs0, Htr.
  replace (match m with Some m0 => m0 | None => 3%Z end) with (default 3%Z m)
    by now destruct m.
  unfold full. rewrite Hev. split.
  - intros Hbr. destruct (Z.to_nat (default 3%Z m)) as [|n] eqn:Hn; [lia|].
    now apply (correct_traced_fail self sample_shape (event_dim self)).
  - intros Hbr.
    now apply (correct_traced_ok self sample_shape (event_dim self)).
Qed.

End CorrectionLoops.

(** ** [expand] *)

Lemma expandable_app2_inv s t n m :
  expandable (s ++ [n; m]) (t ++ [n; m]) -> expandable s t.
Proof.
  unfold expandable. rewrite !rev_app_distr. cbn [rev app expandable_rev].
  tauto.
Qed.

Section ExpandFacts.
Context `{Numerics} `{RandomSource}.

(** The shapes an instance holds, as the constructor and [expand] leave
    them. *)
Lemma constructed_well_shaped self : constructed self -> well_shaped self.
Proof.
  intros Hc.
  destruct (constructed_facts self Hc) as (bL & n & HL & Hev & HbL & _).
  exists bL, n. split; [exact HL|]. split; [exact Hev|]. split; [exact HbL|].
  split; [apply (constructed_df_shape self Hc)|].
  intros k t. apply (constructed_stored self k t Hc).
Qed.

Lemma expand_stored_ok self name s acc :
  (forall t, __dict__ self !! name = Some t -> expandable (shape t) s) ->
  expand_stored self name s acc
  = Ok (match __dict__ self !! name with
        | Some t => <[name := expand t s]> acc
        | None => acc
        end).
Proof.
  intros He. unfold expand_stored.
  destruct (__dict__ self !! name) as [t|]; [|reflexivity].
  now rewrite (expand_checked_ok t s (He t eq_refl)).
Qed.

Lemma expanded_dict_lookup self s k :
  k = "covariance_matrix" \/ k = "scale_tril" \/ k = "precision_matrix" ->
  expanded_dict self s !! k = (fun t => expand t s) <$> (__dict__ self !! k).
Proof.
  unfold expanded_dict.
  intros [-> | [-> | ->]];
    destruct (__dict__ self !! "covariance_matrix"),
             (__dict__ self !! "scale_tril"),
             (__dict__ self !! "precision_matrix");
    cbn [fmap option_fmap option_map];
    repeat first [ rewrite lookup_insert | rewrite lookup_insert_ne by discriminate
                 | rewrite lookup_empty ];
    reflexivity.
Qed.

Lemma expanded_dict_shape self s k t :
  expanded_dict self s !! k = Some t -> shape t = s.
Proof.
  unfold expanded_dict.
  destruct (__dict__ self !! "covariance_matrix"),
           (__dict__ self !! "scale_tril"),
           (__dict__ self !! "precision_matrix");
    intros Hk;
    repeat match type of Hk with
           | <[_ := _]> _ !! _ = Some _ =>
               apply lookup_insert_Some in Hk as [[_ <-] | [_ Hk]]; [reflexivity|]
           end;
    now rewrite lookup_empty in Hk.
Qed.

(** What [expand] returns when the requested batch shape can be reached
    from the current one. *)
Lemma Wishart_expand_spec self batch_shape w :
  well_shaped self ->
  expandable (_batch_shape self) batch_shape ->
  let cov_shape := batch_shape ++ _event_shape self in
  exists dfs,
    chi2_df (expand (df self) batch_shape) batch_shape (event_dim self) = Ok dfs
    /\ Wishart_expand self batch_shape w
       = (Ok {| df := expand (df self) batch_shape;
                _batch_shape := batch_shape;
                _event_shape := _event_shape self;
                _validate_args := _validate_args self;
                _batch_dims := map (fun x => (- (Z.of_nat x + 1))%Z)
                                   (seq 0 (length batch_shape));
                _unbroadcasted_scale_tril :=
                  expand (_unbroadcasted_scale_tril self) cov_shape;
                _dist_chi2 := dfs;
                __dict__ := expanded_dict self cov_shape |},
          w).
Proof.
  intros (bL & n & HL & Hev & HbL & Hdf & Hstored) Hexp cov_shape.
  destruct (chi2_df_ok (expand (df self) batch_shape) batch_shape (event_dim self))
    as (dfs & Hdfs & _); [now right|].
  exists dfs. split; [exact Hdfs|].
  assert (HeL : expandable (shape (_unbroadcasted_scale_tril self)) cov_shape).
  { unfold cov_shape. rewrite HL, Hev. apply expandable_app2.
    now apply (expandable_trans _ (_batch_shape self)). }
  assert (Hedf : expandable (shape (df self)) batch_shape).
  { destruct Hdf as [-> | ->]; [apply expandable_nil | exact Hexp]. }
  assert (Hest : forall k t, __dict__ self !! k = Some t ->
                             expandable (shape t) cov_shape).
  { intros k t Hk. rewrite (Hstored k t Hk). unfold cov_shape. rewrite Hev.
    now apply expandable_app2. }
  unfold Wishart_expand, mbind, M_bind, lift. fold cov_shape.
  rewrite (expand_checked_ok _ _ HeL), (expand_checked_ok _ _ Hedf).
  rewrite !expand_stored_ok by (apply Hest). fold (expanded_dict self cov_shape).
  rewrite Hdfs.
  unfold Distribution_init, mbind, M_bind, get_world, mret, M_ret.
  reflexivity.
Qed.

Lemma expand_well_shaped self batch_shape w new w' :
  well_shaped self ->
  expandable (_batch_shape self) batch_shape ->
  Wishart_expand self batch_shape w = (Ok new, w') ->
  well_shaped new.
Proof.
  intros Hws Hexp Hnew.
  destruct (Wishart_expand_spec self batch_shape w Hws Hexp) as (dfs & _ & Heq).
  rewrite Heq in Hnew. injection Hnew as <- _.
  destruct Hws as (bL & n & HL & Hev & _).
  exists batch_shape, n. unfold event_dim.
  cbn [df _batch_shape _event_shape _unbroadcasted_scale_tril __dict__ expand shape].
  fold (event_dim self). rewrite Hev.
  split; [reflexivity|]. split; [reflexivity|].
  split; [apply expandable_refl|]. split; [now right|].
  intros k t. apply expanded_dict_shape.
Qed.

Lemma constructed_has_stored self :
  constructed self ->
  exists k t,
    (k = "covariance_matrix" \/ k = "scale_tril" \/ k = "precision_matrix")
    /\ __dict__ self !! k = Some t
    /\ shape t = _batch_shape self ++ _event_shape self.
Proof.
  intros Hc.
  assert (Hst := fun k t => constructed_stored self k t Hc).
  destruct Hc as (df_in & cov & prec & tril & va & w & w' & Hinit).
  apply Wishart_init_inv in Hinit
    as (param & Hcount & _ & _ & _ & _ & _ & Hdict & _).
  destruct tril as [t|]; [|destruct cov as [c|]; [|destruct prec as [q|]]];
    cbn [stored_attrs] in Hdict; try (cbn in Hcount; lia).
  - exists "scale_tril". eexists. split; [auto|].
    assert (Hk : __dict__ self !! "scale_tril" = Some _)
      by (rewrite Hdict; now apply lookup_singleton_Some).
    split; [exact Hk | exact (Hst _ _ Hk)].
  - exists "covariance_matrix". eexists. split; [auto|].
    assert (Hk : __dict__ self !! "covariance_matrix" = Some _)
      by (rewrite Hdict; now apply lookup_singleton_Some).
    split; [exact Hk | exact (Hst _ _ Hk)].
  - exists "precision_matrix". eexists. split; [auto|].
    assert (Hk : __dict__ self !! "precision_matrix" = Some _)
      by (rewrite Hdict; now apply lookup_singleton_Some).
    split; [exact Hk | exact (Hst _ _ Hk)].
Qed.

Lemma expand_stored_cases self name s acc :
  (exists d, expand_stored self name s acc = Ok d)
  \/ expand_stored self name s acc = Raise RuntimeError.
Proof.
  unfold expand_stored, expand_checked.
  destruct (__dict__ self !! name) as [t|]; [|eauto].
  destruct (expandableb (shape t) s); cbn [mbind result_bind]; eauto.
Qed.

Lemma expand_stored_fail self name s acc t :
  __dict__ self !! name = Some t -> ~ expandable (shape t) s ->
  expand_stored self name s acc = Raise RuntimeError.
Proof.
  intros Hk Hne. unfold expand_stored. rewrite Hk.
  now rewrite (expand_checked_fail t s Hne).
Qed.

(** The tensor stored on a constructed instance has the full batch shape:
    a batch shape that cannot be reached from it makes [expand] fail. *)
Lemma Wishart_expand_fail self batch_shape w :
  constructed self ->
  ~ expandable (_batch_shape self) batch_shape ->
  Wishart_expand self batch_shape w = (Raise RuntimeError, w).
Proof.
  intros Hc Hne.
  destruct (constructed_has_stored self Hc) as (k & t & Hkey & Hk & Hshape).
  destruct (constructed_facts self Hc) as (_ & n & _ & Hev & _).
  assert (Hnt : ~ expandable (shape t) (batch_shape ++ _event_shape self)).
  { rewrite Hshape, Hev. intros He. now apply expandable_app2_inv in He. }
  unfold Wishart_expand, mbind, M_bind, lift.
  unfold expand_checked at 1.
  destruct (expandableb _ _); [|reflexivity].
  unfold expand_checked at 1.
  destruct (expandableb _ _); [|reflexivity].
  set (s := batch_shape ++ _event_shape self) in *.
  destruct Hkey as [-> | [-> | ->]].
  - now rewrite (expand_stored_fail self _ s _ t Hk Hnt).
  - destruct (expand_stored_cases self "covariance_matrix" s ∅) as [[d1 ->] | ->];
      [|reflexivity].
    now rewrite (expand_stored_fail self _ s _ t Hk Hnt).
  - destruct (expand_stored_cases self "covariance_matrix" s ∅) as [[d1 ->] | ->];
      [|reflexivity].
    destruct (expand_stored_cases self "scale_tril" s d1) as [[d2 ->] | ->];
      [|reflexivity].
    now rewrite (expand_stored_fail self _ s _ t Hk Hnt).
Qed.

Lemma Wishart_expand_inv self batch_shape w new w' :
  constructed self ->
  Wishart_expand self batch_shape w = (Ok new, w') ->
  expandable (_batch_shape self) batch_shape.
Proof.
  intros Hc Hnew.
  destruct (expandableb (_batch_shape self) batch_shape) eqn:He.
  - now apply expandableb_spec.
  - rewrite Wishart_expand_fail in Hnew; [discriminate | assumption |].
    intros Hexp. apply expandableb_spec in Hexp. congruence.
Qed.

(** X14. On a constructed distribution [expand] succeeds exactly when the
    requested batch shape can be reached from the current one by
    broadcasting, and raises [RuntimeError] otherwise. Either way it leaves
    the interpreter state untouched: unlike the constructor it neither
    writes to the class-level [arg_constraints] nor warns. The new instance
    has the requested batch shape, the event shape and validation flag of
    the source, and tensors of the full new shape. *)
Theorem expand_succeeds_iff self batch_shape w :
  constructed self ->
  (expandable (_batch_shape self) batch_shape ->
   exists new,
     Wishart_expand self batch_shape w = (Ok new, w)
     /\ _batch_shape new = batch_shape
     /\ _event_shape new = _event_shape self
     /\ _validate_args new = _validate_args self
     /\ shape (df new) = batch_shape
     /\ shape (_unbroadcasted_scale_tril new) = batch_shape ++ _event_shape self
     /\ forall k t, __dict__ new !! k = Some t ->
                    shape t = batch_shape ++ _event_shape self)
  /\
  (~ expandable (_batch_shape self) batch_shape ->
   Wishart_expand self batch_shape w = (Raise RuntimeError, w)).
Proof.
  intros Hc. split.
  - intros Hexp.
    destruct (Wishart_expand_spec self batch_shape w
                (constructed_well_shaped self Hc) Hexp) as (dfs & _ & Heq).
    eexists. split; [exact Heq|].
    cbn [df _batch_shape _event_shape _validate_args _unbroadcasted_scale_tril
         __dict__ expand shape].
    repeat (split; [reflexivity|]).
    intros k t. apply expanded_dict_shape.
  - now apply Wishart_expand_fail.
Qed.

(** X15. The chi-squared degrees of freedom that [expand] recomputes from
    the new [df] are those of the source, broadcast: slot [i] of batch
    element [b] holds [df - i] for the [df] that [b] is broadcast from. *)
Theorem expand_chi2_df self batch_shape w new w' :
  constructed self ->
  Wishart_expand self batch_shape w = (Ok new, w') ->
  shape (_dist_chi2 new) = batch_shape ++ [event_dim self]
  /\ forall b i, valid_index batch_shape b -> (i < event_dim self)%nat ->
       data (_dist_chi2 new) (b ++ [i])
       = data (df self) (bindex (shape (df self)) b) - INR i
       /\ data (_dist_chi2 new) (b ++ [i])
          = data (_dist_chi2 self) (bindex (_batch_shape self) b ++ [i]).
Proof.
  intros Hc Hnew.
  assert (Hexp := Wishart_expand_inv self batch_shape w new w' Hc Hnew).
  destruct (Wishart_expand_spec self batch_shape w
              (constructed_well_shaped self Hc) Hexp) as (dfs & Hdfs & Heq).
  rewrite Heq in Hnew. injection Hnew as <- _. cbn [_dist_chi2].
  destruct (chi2_df_ok (expand (df self) batch_shape) batch_shape (event_dim self))
    as (dfs' & Hdfs' & Hshape & Hdata); [now right|].
  rewrite Hdfs in Hdfs'. injection Hdfs' as <-.
  split; [exact Hshape|]. intros b i Hb Hi.
  destruct (constructed_facts self Hc) as (_ & _ & _ & _ & _ & Hedf & _ & _ & Hold).
  assert (Hlen : (length (_batch_shape self) <= length b)%nat).
  { apply expandable_length in Hexp. apply Forall2_length in Hb. lia. }
  assert (Hval : data (dfs) (b ++ [i])
                 = data (df self) (bindex (shape (df self)) b) - INR i).
  { rewrite (Hdata b i Hi). cbn [expand shape data].
    now rewrite (bindex_valid _ b Hb). }
  split; [exact Hval|].
  rewrite Hval, (Hold _ i Hi). now rewrite bindex_compose.
Qed.

Lemma expanded_dict_lookup_other self s k :
  k <> "covariance_matrix" -> k <> "scale_tril" -> k <> "precision_matrix" ->
  expanded_dict self s !! k = None.
Proof.
  intros H1 H2 H3. unfold expanded_dict.
  destruct (__dict__ self !! "covariance_matrix"),
           (__dict__ self !! "scale_tril"),
           (__dict__ self !! "precision_matrix");
    repeat (rewrite lookup_insert_ne by congruence);
    apply lookup_empty.
Qed.

Lemma valid_index_app1 bs p idx :
  valid_index (bs ++ [p]) idx ->
  exists b i, idx = b ++ [i] /\ valid_index bs b /\ (i < p)%nat.
Proof.
  unfold valid_index. intros Hv.
  apply Forall2_app_inv_r in Hv as (b & l & Hb & Hl & ->).
  inversion Hl as [|i ? ? ? Hi Hnil]; subst. inversion Hnil; subst.
  now exists b, i.
Qed.

(** X16. The covariance accessor commutes with [expand]: on the new
    instance it returns, batch element by batch element, the matrix that the
    accessor of the source returns for the batch element it is broadcast
    from, whether the source stores its covariance or derives it from the
    scale factor. *)
Theorem expand_covariance self batch_shape w new w' :
  constructed self ->
  _event_shape self = [event_dim self; event_dim self] ->
  Wishart_expand self batch_shape w = (Ok new, w') ->
  exists V V',
    covariance_matrix_of self = Ok V
    /\ covariance_matrix_of new = Ok V'
    /\ shape V' = batch_shape ++ _event_shape self
    /\ forall b i j,
         valid_index (batch_shape ++ _event_shape self) (b ++ [i; j]) ->
         mat_at V' b i j = mat_at V (bindex (_batch_shape self) b) i j.
Proof.
  intros Hc Hsq Hnew.
  assert (Hexp := Wishart_expand_inv self batch_shape w new w' Hc Hnew).
  destruct (Wishart_expand_spec self batch_shape w
              (constructed_well_shaped self Hc) Hexp) as (dfs & _ & Heq).
  rewrite Heq in Hnew. injection Hnew as <- _.
  destruct (constructed_facts self Hc) as (bL & n & HL & Hev & HbL & _).
  rewrite Hsq in Hev. injection Hev as <-.
  set (p := event_dim self) in *. set (bs := _batch_shape self) in *.
  set (L := _unbroadcasted_scale_tril self) in *.
  unfold covariance_matrix_of at 2.
  cbn [__dict__ _unbroadcasted_scale_tril _batch_shape _event_shape].
  rewrite expanded_dict_lookup by auto.
  unfold covariance_matrix_of.
  destruct (__dict__ self !! "covariance_matrix") as [V|] eqn:HdV;
    cbn [fmap option_fmap option_map].
  - exists V. eexists. split; [reflexivity|]. split; [reflexivity|].
    split; [reflexivity|]. intros b i j Hv. rewrite Hsq in Hv.
    apply valid_index_app2 in Hv as (Hb & Hi & Hj).
    apply (mat_at_expand V bs p p); try assumption.
    rewrite (constructed_stored self _ V Hc HdV). now rewrite Hsq.
  - fold L. destruct (matmul_transpose_ok L bL p p HL) as (c & Hmm & Hsc & Hdc).
    rewrite Hmm. cbn [mbind result_bind].
    set (L' := expand L (batch_shape ++ _event_shape self)).
    assert (HL' : shape L' = batch_shape ++ [p; p]) by (unfold L'; now rewrite Hsq).
    destruct (matmul_transpose_ok L' batch_shape p p HL') as (c' & Hmm' & Hsc' & Hdc').
    rewrite Hmm'. cbn [mbind result_bind].
    eexists. eexists. split; [reflexivity|]. split; [reflexivity|].
    split; [reflexivity|]. intros b i j Hv. rewrite Hsq in Hv |- *.
    apply valid_index_app2 in Hv as (Hb & Hi & Hj).
    assert (Hlen' : (length batch_shape <= length b)%nat)
      by (apply Forall2_length in Hb; lia).
    assert (Hlen : (length bs <= length b)%nat)
      by (apply expandable_length in Hexp; lia).
    rewrite (mat_at_expand c' batch_shape p p) by assumption.
    rewrite (mat_at_expand c bL p p) by assumption.
    unfold mat_at at 1 2. rewrite Hdc, Hdc'.
    rewrite !bindex_idem, (bindex_compose bL bs b HbL Hlen).
    apply mmul_ext.
    + intros k Hk. unfold L'. rewrite Hsq.
      rewrite (mat_at_expand L bL p p) by assumption.
      now rewrite (bindex_compose bL batch_shape b
                     (expandable_trans _ _ _ HbL Hexp) Hlen').
    + intros k Hk. unfold transpose, L'. rewrite Hsq.
      rewrite (mat_at_expand L bL p p) by assumption.
      now rewrite (bindex_compose bL batch_shape b
                     (expandable_trans _ _ _ HbL Hexp) Hlen').
Qed.

(** X17. Expanding twice is expanding once: the instance obtained through
    an intermediate batch shape has the shapes and flags of the instance
    obtained directly, and the same entries in [df], in the scale factor,
    in the chi-squared degrees of freedom and in the stored matrices. *)
Theorem expand_expand self s1 s2 w :
  constructed self ->
  expandable (_batch_shape self) s1 ->
  expandable s1 s2 ->
  exists n1 n12 n2,
    Wishart_expand self s1 w = (Ok n1, w)
    /\ Wishart_expand n1 s2 w = (Ok n12, w)
    /\ Wishart_expand self s2 w = (Ok n2, w)
    /\ _batch_shape n12 = _batch_shape n2
    /\ _event_shape n12 = _event_shape n2
    /\ _validate_args n12 = _validate_args n2
    /\ _batch_dims n12 = _batch_dims n2
    /\ (forall b, valid_index s2 b -> data (df n12) b = data (df n2) b)
    /\ (forall idx, valid_index (s2 ++ _event_shape self) idx ->
          data (_unbroadcasted_scale_tril n12) idx
          = data (_unbroadcasted_scale_tril n2) idx)
    /\ (forall idx, valid_index (s2 ++ [event_dim self]) idx ->
          data (_dist_chi2 n12) idx = data (_dist_chi2 n2) idx)
    /\ (forall k idx, valid_index (s2 ++ _event_shape self) idx ->
          (fun t => data t idx) <$> (__dict__ n12 !! k)
          = (fun t => data t idx) <$> (__dict__ n2 !! k)).
Proof.
  intros Hc H1 H12.
  assert (Hws := constructed_well_shaped self Hc).
  assert (H2 := expandable_trans _ _ _ H1 H12).
  destruct (Wishart_expand_spec self s1 w Hws H1) as (dfs1 & Hdfs1 & Heq1).
  destruct (Wishart_expand_spec self s2 w Hws H2) as (dfs2 & Hdfs2 & Heq2).
  set (n1 := {| df := expand (df self) s1; _dist_chi2 := dfs1 |}) in Heq1.
  assert (Hws1 : well_shaped n1)
    by exact (expand_well_shaped self s1 w n1 w Hws H1 Heq1).
  destruct (Wishart_expand_spec n1 s2 w Hws1 H12) as (dfs12 & Hdfs12 & Heq12).
  eexists. eexists. eexists.
  split; [exact Heq1|]. split; [exact Heq12|]. split; [exact Heq2|].
  cbn [df _batch_shape _event_shape _validate_args _batch_dims
       _unbroadcasted_scale_tril _dist_chi2 __dict__ n1].
  repeat (split; [reflexivity|]).
  destruct Hws as (bL & n & HL & Hev & HbL & Hdf & Hstored).
  assert (Hedf : expandable (shape (df self)) s1).
  { destruct Hdf as [-> | ->]; [apply expandable_nil | exact H1]. }
  assert (Hdfeq : forall b, (length s1 <= length b)%nat ->
            data (expand (expand (df self) s1) s2) b = data (expand (df self) s2) b).
  { intros b Hlen. cbn [expand shape data]. f_equal. now apply bindex_compose. }
  split; [|split; [|split]].
  - intros b Hb. apply Hdfeq. apply expandable_length in H12.
    apply Forall2_length in Hb. lia.
  - intros idx Hv. cbn [expand shape data]. f_equal.
    apply bindex_compose.
    + rewrite HL, Hev. apply expandable_app2.
      now apply (expandable_trans _ (_batch_shape self)).
    + apply Forall2_length in Hv. apply expandable_length in H12.
      rewrite !length_app in *. lia.
  - intros idx Hv. apply valid_index_app1 in Hv as (b & i & -> & Hb & Hi).
    destruct (chi2_df_ok (expand (expand (df self) s1) s2) s2 (event_dim self))
      as (d12 & Hd12 & _ & Hdata12); [now right|].
    destruct (chi2_df_ok (expand (df self) s2) s2 (event_dim self))
      as (d2 & Hd2 & _ & Hdata2); [now right|].
    unfold event_dim in Hdfs12. cbn [df _event_shape n1] in Hdfs12.
    fold (event_dim self) in Hdfs12.
    rewrite Hdfs12 in Hd12. injection Hd12 as <-.
    rewrite Hdfs2 in Hd2. injection Hd2 as <-.
    rewrite (Hdata12 b i Hi), (Hdata2 b i Hi). f_equal.
    cbn [expand shape]. rewrite (bindex_valid s2 b Hb).
    apply Hdfeq. apply expandable_length in H12.
    apply Forall2_length in Hb. lia.
  - intros k idx Hv.
    destruct (decide (k = "covariance_matrix" \/ k = "scale_tril"
                      \/ k = "precision_matrix")) as [Hk | Hk].
    + rewrite !expanded_dict_lookup by exact Hk.
      cbn [__dict__ n1]. rewrite ?expanded_dict_lookup by exact Hk.
      destruct (__dict__ self !! k) as [t|] eqn:Ht;
        cbn [fmap option_fmap option_map]; [|reflexivity].
      f_equal. cbn [expand shape data]. f_equal. apply bindex_compose.
      * rewrite (Hstored k t Ht), Hev. now apply expandable_app2.
      * apply Forall2_length in Hv. apply expandable_length in H12.
        rewrite !length_app in *. lia.
    + rewrite !expanded_dict_lookup_other by tauto. reflexivity.
Qed.

End ExpandFacts.

(** ** Entropy and log-density under [expand] *)

Section EntropyExpand.
Context `{Numerics} `{RandomSource}.

(** [entropy] reads, at every index of a shape [c] that the scale factor's
    batch shape and the shape of [df] expand to, the closed form in the
    [df] and scale factor found there. *)
Lemma entropy_reads self c bL :
  let p := event_dim self in
  let L := _unbroadcasted_scale_tril self in
  shape L = bL ++ [p; p] ->
  expandable bL c ->
  expandable (shape (df self)) c ->
  (forall idx, valid_index (shape (df self)) idx -> INR p - 1 < data (df self) idx) ->
  (exists V, covariance_matrix_of self = Ok V) ->
  rreads (entropy self) c
    (fun idx =>
       let nu := data (df self) (bindex (shape (df self)) idx) in
       let Lb := mat_at L (bindex bL idx) in
       INR (p + 1) * rsum p (fun i => ln (Lb i i))
       + INR (p * (p + 1)) * _log_2 / 2
       + mvlgamma (nu / 2) p
       - (nu - INR p - 1) / 2 * rsum p (fun i => digamma (nu / 2 - INR i / 2))
       + nu * INR p / 2).
Proof.
  intros p L HL HbL Hdf Hbound (V & HV).
  unfold entropy. rewrite HV. cbn [mbind result_bind]. fold p. fold L.
  assert (Hnu := reads_self (df self) _ Hdf).
  assert (Hdiag := reads_sum_log_diagonal L bL p _ HL HbL).
  assert (Hdom : forall idx,
            valid_index (shape (tmap (fun v => v / 2) (df self))) idx ->
            (INR p - 1) / 2 < data (tmap (fun v => v / 2) (df self)) idx).
  { intros idx Hv. cbn [tmap shape data] in *. specialize (Hbound idx Hv). lra. }
  assert (Hdig := mvdigamma_reads _ p _ _
                    (reads_tmap (fun v => v / 2) _ _ _ Hnu) Hdom).
  repeat apply rreads_tbin; try apply rreads_Ok.
  - apply (reads_tmap (fun v => INR (p + 1) * v) _ _ _ Hdiag).
  - apply reads_scalar.
  - apply (reads_tmap (fun v => mvlgamma (v / 2) p) _ _ _ Hnu).
  - apply (reads_tmap (fun v => (v - INR p - 1) / 2) _ _ _ Hnu).
  - exact Hdig.
  - apply (reads_tmap (fun v => v * INR p / 2) _ _ _ Hnu).
Qed.

(** X18. [entropy] commutes with [expand]: the entropy of the expanded
    distribution is, at every index of the new batch shape, the entropy of
    the source broadcast to that shape. *)
Theorem expand_entropy self batch_shape w new w' :
  constructed self ->
  _event_shape self = [event_dim self; event_dim self] ->
  Wishart_expand self batch_shape w = (Ok new, w') ->
  exists t t',
    entropy self = Ok t
    /\ entropy new = Ok t'
    /\ expandable (shape t) batch_shape
    /\ expandable (shape t') batch_shape
    /\ forall idx, valid_index batch_shape idx ->
         data (expand t' batch_shape) idx = data (expand t batch_shape) idx.
Proof.
  intros Hc Hsq Hnew.
  assert (Hexp := Wishart_expand_inv self batch_shape w new w' Hc Hnew).
  destruct (Wishart_expand_spec self batch_shape w
              (constructed_well_shaped self Hc) Hexp) as (dfs & _ & Heq).
  rewrite Heq in Hnew. injection Hnew as Hnew _.
  destruct (constructed_facts self Hc)
    as (bL & n & HL & Hev & HbL & Hedf & Hbound & _).
  rewrite Hsq in Hev. injection Hev as <-.
  assert (HbL' := expandable_trans _ _ _ HbL Hexp).
  assert (Hedf' := expandable_trans _ _ _ Hedf Hexp).
  (* the source, read at the new batch shape *)
  destruct (entropy_reads self batch_shape bL HL HbL' Hedf' Hbound
              (covariance_matrix_ok self Hc)) as (t & Ht & Het & Hdt).
  (* the new instance *)
  assert (Hp' : event_dim new = event_dim self).
  { rewrite <- Hnew. reflexivity. }
  assert (HL' : shape (_unbroadcasted_scale_tril new)
                = batch_shape ++ [event_dim new; event_dim new]).
  { rewrite Hp'. rewrite <- Hnew. cbn [_unbroadcasted_scale_tril expand shape].
    now rewrite Hsq. }
  assert (Hsdf' : shape (df new) = batch_shape) by now rewrite <- Hnew.
  assert (Hbound' : forall idx, valid_index (shape (df new)) idx ->
                      INR (event_dim new) - 1 < data (df new) idx).
  { intros idx Hv. rewrite Hp'. rewrite Hsdf' in Hv. rewrite <- Hnew.
    cbn [df expand data]. apply Hbound.
    now apply (bindex_valid_expand _ batch_shape). }
  assert (HV' : exists V, covariance_matrix_of new = Ok V).
  { unfold covariance_matrix_of.
    destruct (__dict__ new !! "covariance_matrix"); [eauto|].
    destruct (matmul_transpose_ok _ _ _ _ HL') as (c & -> & _). cbn. eauto. }
  assert (Hsdf'' : expandable (shape (df new)) batch_shape)
    by (rewrite Hsdf'; apply expandable_refl).
  destruct (entropy_reads new batch_shape batch_shape HL'
              (expandable_refl _) Hsdf'' Hbound' HV') as (t' & Ht' & Het' & Hdt').
  exists t, t'. repeat (split; [assumption|]).
  intros idx Hv.
  assert (Hlen : length idx = length batch_shape) by now apply Forall2_length in Hv.
  cbn [expand data]. rewrite (Hdt idx Hlen), (Hdt' idx Hlen). cbv zeta.
  rewrite Hp', Hsdf', (bindex_valid batch_shape idx Hv).
  assert (Hnu : data (df new) idx = data (df self) (bindex (shape (df self)) idx)).
  { rewrite <- Hnew. reflexivity. }
  rewrite Hnu.
  assert (Hdiag : rsum (event_dim self)
                    (fun i => ln (mat_at (_unbroadcasted_scale_tril new) idx i i))
                  = rsum (event_dim self)
                      (fun i => ln (mat_at (_unbroadcasted_scale_tril self)
                                           (bindex bL idx) i i))).
  { apply rsum_ext. intros i Hi. f_equal. rewrite <- Hnew.
    cbn [_unbroadcasted_scale_tril].
    now rewrite (mat_at_expand _ bL _ _ _ _ _ _ HL Hi Hi). }
  now rewrite Hdiag.
Qed.

(** [log_prob] reads, at every index of a shape [c] that the batch shapes
    of the scale factor, of [df] and of the value expand to, the closed form
    in the [df], scale factor and value found there. *)
Lemma log_prob_reads self value c bL bv :
  let p := event_dim self in
  let L := _unbroadcasted_scale_tril self in
  shape L = bL ++ [p; p] ->
  shape value = bv ++ [p; p] ->
  expandable bL c ->
  expandable (shape (df self)) c ->
  expandable bv c ->
  (_validate_args self = true -> _validate_sample self value = Ok tt) ->
  rreads (log_prob self value) c
    (fun idx =>
       let nu := data (df self) (bindex (shape (df self)) idx) in
       let Lb := mat_at L (bindex bL idx) in
       let V := mat_at value (bindex bv idx) in
       - nu * INR p * _log_2 / 2
       - nu * rsum p (fun i => ln (Lb i i))
       - mvlgamma (nu / 2) p
       + (nu - INR p - 1) / 2 * logabsdet p V
       - trace p (cholesky_solve p V Lb) / 2).
Proof.
  intros p L HL Hvalue HbL Hdf Hbv Hacc.
  unfold log_prob.
  assert (Hval : (if _validate_args self then _validate_sample self value else Ok tt)
                 = Ok tt).
  { destruct (_validate_args self); [now apply Hacc | reflexivity]. }
  rewrite Hval. cbn [mbind result_bind]. fold p. fold L.
  assert (Hnu := reads_self (df self) _ Hdf).
  assert (Hdiag := reads_sum_log_diagonal L bL p _ HL HbL).
  assert (Hdet := reads_slogdet value bv p p _ Hvalue Hbv).
  destruct (reads_cholesky_solve_trace value L bv bL p c Hvalue HL Hbv HbL)
    as (cs & Hcs & Htr).
  rewrite Hcs. cbn [mbind result_bind].
  repeat apply rreads_tbin; try apply rreads_Ok.
  - apply (reads_tmap (fun v => - v * INR p * _log_2 / 2) _ _ _ Hnu).
  - exact Hnu.
  - exact Hdiag.
  - apply (reads_tmap (fun v => mvlgamma (v / 2) p) _ _ _ Hnu).
  - apply (reads_tmap (fun v => (v - INR p - 1) / 2) _ _ _ Hnu).
  - exact Hdet.
  - apply (reads_tmap (fun v => v / 2) _ _ _ Htr).
Qed.

(** The solve reads the scale factor only inside its [n] rows and
    columns. *)
Lemma cholesky_solve_agree n (L L' B : matrix) i j :
  lower_triangular n L -> nonzero_diag n L ->
  (forall a b, (a < n)%nat -> (b < n)%nat -> L' a b = L a b) ->
  (i < n)%nat ->
  cholesky_solve n B L' i j = cholesky_solve n B L i j.
Proof.
  intros Hlow Hnz Hagree Hi.
  assert (Hlow' : lower_triangular n L').
  { intros a b Hab. rewrite Hagree by lia. now apply Hlow. }
  assert (Hnz' : nonzero_diag n L').
  { intros a Ha. rewrite Hagree by lia. now apply Hnz. }
  apply (cholesky_solve_unique n L B); try assumption.
  intros k Hk.
  rewrite <- (cholesky_solve_sound n L' B k j Hlow' Hnz' Hk).
  apply mmul_ext; [|reflexivity].
  intros m Hm. apply mmul_ext.
  - intros q Hq. symmetry. now apply Hagree.
  - intros q Hq. unfold transpose. symmetry. now apply Hagree.
Qed.

(** X19. [log_prob] commutes with [expand]: for a triangular scale factor
    with non-zero diagonal and a value that passes validation, the
    log-density under the expanded distribution is, at every index of the
    common batch shape, the log-density under the source. *)
Theorem expand_log_prob self batch_shape w new w' value bv c :
  constructed self ->
  _event_shape self = [event_dim self; event_dim self] ->
  let p := event_dim self in
  let L := _unbroadcasted_scale_tril self in
  (forall b, valid_index (batch_of (shape L)) b ->
             lower_triangular p (mat_at L b) /\ nonzero_diag p (mat_at L b)) ->
  Wishart_expand self batch_shape w = (Ok new, w') ->
  shape value = bv ++ [p; p] ->
  broadcast_shapes bv batch_shape = Some c ->
  (_validate_args self = true -> _validate_sample self value = Ok tt) ->
  exists t t',
    log_prob self value = Ok t
    /\ log_prob new value = Ok t'
    /\ expandable (shape t) c
    /\ expandable (shape t') c
    /\ forall idx, valid_index c idx ->
         data (expand t' c) idx = data (expand t c) idx.
Proof.
  intros Hc Hsq p L Htri Hnew Hvalue Hbc Hacc.
  assert (Hexp := Wishart_expand_inv self batch_shape w new w' Hc Hnew).
  destruct (Wishart_expand_spec self batch_shape w
              (constructed_well_shaped self Hc) Hexp) as (dfs & _ & Heq).
  rewrite Heq in Hnew. injection Hnew as Hnew _.
  destruct (constructed_facts self Hc)
    as (bL & n & HL & Hev & HbL & Hedf & _).
  rewrite Hsq in Hev. injection Hev as <-. fold p in HL. fold L in HL.
  apply broadcast_shapes_expandable in Hbc as [Hbv Hbs].
  assert (HbLc := expandable_trans _ _ _ HbL (expandable_trans _ _ _ Hexp Hbs)).
  assert (Hdfc := expandable_trans _ _ _ Hedf (expandable_trans _ _ _ Hexp Hbs)).
  destruct (log_prob_reads self value c bL bv HL Hvalue HbLc Hdfc Hbv Hacc)
    as (t & Ht & Het & Hdt).
  assert (Hp' : event_dim new = p) by (rewrite <- Hnew; reflexivity).
  assert (HL' : shape (_unbroadcasted_scale_tril new)
                = batch_shape ++ [event_dim new; event_dim new]).
  { rewrite Hp'. rewrite <- Hnew. cbn [_unbroadcasted_scale_tril expand shape].
    now rewrite Hsq. }
  assert (Hsdf' : shape (df new) = batch_shape) by now rewrite <- Hnew.
  assert (Hvalue' : shape value = bv ++ [event_dim new; event_dim new])
    by now rewrite Hp'.
  assert (Hacc' : _validate_args new = true -> _validate_sample new value = Ok tt).
  { rewrite <- Hnew. exact Hacc. }
  assert (Hdfc' : expandable (shape (df new)) c) by now rewrite Hsdf'.
  destruct (log_prob_reads new value c batch_shape bv HL' Hvalue' Hbs Hdfc' Hbv Hacc')
    as (t' & Ht' & Het' & Hdt').
  exists t, t'. repeat (split; [assumption|]).
  intros idx Hv.
  assert (Hlen : length idx = length c) by now apply Forall2_length in Hv.
  assert (Hlenb : (length batch_shape <= length idx)%nat)
    by (apply expandable_length in Hbs; lia).
  cbn [expand data]. rewrite (Hdt idx Hlen), (Hdt' idx Hlen). cbv zeta.
  rewrite Hp', Hsdf'.
  assert (Hnu : data (df new) (bindex batch_shape idx)
                = data (df self) (bindex (shape (df self)) idx)).
  { rewrite <- Hnew. cbn [df expand data shape]. f_equal.
    apply bindex_compose; [|exact Hlenb].
    exact (expandable_trans _ _ _ Hedf Hexp). }
  rewrite Hnu. fold L.
  assert (Hagree : forall a b, (a < p)%nat -> (b < p)%nat ->
            mat_at (_unbroadcasted_scale_tril new) (bindex batch_shape idx) a b
            = mat_at L (bindex bL idx) a b).
  { intros a b Ha Hb. rewrite <- Hnew. cbn [_unbroadcasted_scale_tril]. fold L.
    rewrite (mat_at_expand L bL p p _ _ _ _ HL Ha Hb). f_equal.
    apply bindex_compose; [|exact Hlenb].
    exact (expandable_trans _ _ _ HbL Hexp). }
  assert (Hdiag : rsum p (fun i => ln (mat_at (_unbroadcasted_scale_tril new)
                                              (bindex batch_shape idx) i i))
                  = rsum p (fun i => ln (mat_at L (bindex bL idx) i i))).
  { apply rsum_ext. intros i Hi. f_equal. now apply Hagree. }
  assert (Htrace : trace p (cholesky_solve p (mat_at value (bindex bv idx))
                              (mat_at (_unbroadcasted_scale_tril new)
                                      (bindex batch_shape idx)))
                   = trace p (cholesky_solve p (mat_at value (bindex bv idx))
                                (mat_at L (bindex bL idx)))).
  { unfold trace. apply rsum_ext. intros i Hi.
    destruct (Htri (bindex bL idx)) as [Hlow Hnz].
    { rewrite HL, batch_of_app2. now apply (bindex_valid_expand bL c). }
    now apply cholesky_solve_agree. }
  now rewrite Hdiag, Htrace.
Qed.

End EntropyExpand.

(** ** The mean of an expanded distribution *)

Section ExpandMean.
Context `{Numerics} `{RandomSource}.



End ExpandMean.

(** ** Derived matrices and the log-normalizer at the natural parameters *)

Lemma cholesky_solve_eye_symmetric n L i j :
  lower_triangular n L -> nonzero_diag n L -> (i < n)%nat -> (j < n)%nat ->
  cholesky_solve n eye L i j = cholesky_solve n eye L j i.
Proof.
  intros Hlow Hnz Hi Hj.
  set (Linv := solve_triangular n L eye false).
  assert (Hinv : inverse_of n L Linv).
  { split; intros a b Ha Hb.
    - now apply solve_lower_sound.
    - now apply solve_lower_left_inverse. }
  rewrite !(cholesky_solve_inverse n L Linv eye) by assumption.
  unfold mmul at 1 3, transpose. apply rsum_ext. intros k Hk.
  rewrite !mmul_eye_r by assumption. ring.
Qed.

Section Derived.
Context `{Numerics} `{RandomSource}.

Lemma precision_matrix_derived self :
  constructed self ->
  _event_shape self = [event_dim self; event_dim self] ->
  __dict__ self !! "precision_matrix" = None ->
  exists X,
    precision_matrix_of self = Ok X
    /\ shape X = _batch_shape self ++ _event_shape self
    /\ forall b i j, (i < event_dim self)%nat -> (j < event_dim self)%nat ->
         mat_at X b i j
         = cholesky_solve (event_dim self) eye
             (mat_at (_unbroadcasted_scale_tril self)
                     (bindex (batch_of (shape (_unbroadcasted_scale_tril self))) b))
             i j.
Proof.
  intros Hc Hsq Hnone.
  destruct (constructed_facts self Hc) as (bL & n & HL & Hev & HbL & _).
  rewrite Hsq in Hev. injection Hev as <-.
  set (p := event_dim self) in *. set (L := _unbroadcasted_scale_tril self) in *.
  unfold precision_matrix_of. rewrite Hnone. fold p. fold L.
  unfold torch_cholesky_solve.
  change (shape (torch_eye p)) with ([] ++ [p; p]).
  rewrite HL, !batch_of_app2, !row_of_app2, !col_of_app2, !Nat.eqb_refl.
  cbn [negb andb]. rewrite broadcast_shapes_nil_l.
  cbn [mbind result_bind]. eexists. split; [reflexivity|].
  split; [reflexivity|]. intros b i j Hi Hj.
  set (cs := Tensor _ _).
  rewrite (mat_at_expand cs bL p p) by (reflexivity || assumption).
  unfold mat_at at 1. unfold cs. cbn [data].
  now rewrite batch_of_app2, row_of_app2, col_of_app2, bindex_idem.
Qed.

Lemma precision_matrix_ok self :
  constructed self ->
  _event_shape self = [event_dim self; event_dim self] ->
  exists X, precision_matrix_of self = Ok X
            /\ shape X = _batch_shape self ++ _event_shape self.
Proof.
  intros Hc Hsq.
  destruct (__dict__ self !! "precision_matrix") as [P|] eqn:HP.
  - exists P. split; [|now apply (constructed_stored self "precision_matrix")].
    unfold precision_matrix_of. now rewrite HP.
  - destruct (precision_matrix_derived self Hc Hsq HP) as (X & HX & Hs & _).
    eauto.
Qed.

(** X21. The matrices that the accessors derive from the scale factor are
    symmetric, batch element by batch element: the covariance, whose
    diagonal is moreover not negative, and, for a triangular scale factor
    with non-zero diagonal, the precision. *)
Theorem derived_matrices_symmetric self :
  constructed self ->
  _event_shape self = [event_dim self; event_dim self] ->
  let p := event_dim self in
  let L := _unbroadcasted_scale_tril self in
  (forall b, valid_index (batch_of (shape L)) b ->
             lower_triangular p (mat_at L b) /\ nonzero_diag p (mat_at L b)) ->
  __dict__ self !! "covariance_matrix" = None ->
  __dict__ self !! "precision_matrix" = None ->
  exists C X,
    covariance_matrix_of self = Ok C
    /\ precision_matrix_of self = Ok X
    /\ forall b i j,
         valid_index (_batch_shape self) b -> (i < p)%nat -> (j < p)%nat ->
         mat_at C b i j = mat_at C b j i
         /\ 0 <= mat_at C b i i
         /\ mat_at X b i j = mat_at X b j i.
Proof.
  intros Hc Hsq p L Htri HnC HnX.
  destruct (precision_matrix_derived self Hc Hsq HnX) as (X & HX & _ & HdX).
  destruct (constructed_facts self Hc) as (bL & n & HL & Hev & HbL & _).
  rewrite Hsq in Hev. injection Hev as <-. fold p in HL, HdX. fold L in HL, HdX.
  rewrite HL, batch_of_app2 in HdX.
  unfold covariance_matrix_of. rewrite HnC. fold L.
  destruct (matmul_transpose_ok L bL p p HL) as (c & Hmm & Hsc & Hdc).
  rewrite Hmm. cbn [mbind result_bind].
  eexists. exists X. split; [reflexivity|]. split; [exact HX|].
  intros b i j Hb Hi Hj.
  assert (HC : forall a k, (a < p)%nat -> (k < p)%nat ->
            mat_at (expand c (_batch_shape self ++ _event_shape self)) b a k
            = mmul p (mat_at L (bindex bL b)) (transpose (mat_at L (bindex bL b))) a k).
  { intros a k Ha Hk. rewrite (mat_at_expand c bL p p) by assumption.
    unfold mat_at at 1. now rewrite Hdc, bindex_idem. }
  split; [|split].
  - rewrite !HC by assumption. apply mmul_transpose_sym.
  - rewrite HC by assumption. unfold mmul, transpose. apply rsum_square_nonneg.
  - rewrite !HdX by assumption.
    destruct (Htri (bindex bL b)) as [Hlow Hnz].
    { rewrite HL, batch_of_app2. now apply (bindex_valid_expand bL (_batch_shape self)). }
    now apply cholesky_solve_eye_symmetric.
Qed.

(** X22. [_log_normalizer] passes its first argument to [_mvdigamma],
    whose domain is [x > (p - 1) / 2]. At the natural parameters
    [eta1 = (df - p - 1) / 2] and [eta2 = - precision / 2] of a constructed
    distribution it therefore returns a value when every [df] exceeds
    [2 * p], and fails the assertion as soon as one [df] is at most [2 * p]
    (the constructor only asks for [df > p - 1]). *)
Theorem log_normalizer_at_natural_params self :
  constructed self ->
  _event_shape self = [event_dim self; event_dim self] ->
  let p := event_dim self in
  exists X,
    precision_matrix_of self = Ok X
    /\ let eta1 := tmap (fun v => (v - INR p - 1) / 2) (df self) in
       let eta2 := tmap (fun v => - v / 2) X in
       ((exists idx, valid_index (shape (df self)) idx
                     /\ data (df self) idx <= 2 * INR p) ->
        _log_normalizer eta1 eta2 = Raise AssertionError)
       /\ ((forall idx, valid_index (shape (df self)) idx ->
                        2 * INR p < data (df self) idx) ->
           exists t, _log_normalizer eta1 eta2 = Ok t).
Proof.
  intros Hc Hsq p.
  destruct (precision_matrix_ok self Hc Hsq) as (X & HX & HsX).
  destruct (constructed_facts self Hc) as (_ & _ & _ & _ & _ & Hedf & _).
  exists X. split; [exact HX|]. intros eta1 eta2.
  assert (Hs2 : shape eta2 = _batch_shape self ++ [p; p]).
  { unfold eta2. cbn [tmap shape]. now rewrite HsX, Hsq. }
  assert (Hcol : col_of (shape eta2) = p) by (rewrite Hs2; apply col_of_app2).
  destruct (log_normalizer_formula eta1 eta2 (_batch_shape self) p (_batch_shape self))
    as [Hok Hfail].
  { now rewrite Hcol. }
  { exact Hedf. }
  { apply expandable_refl. }
  rewrite Hcol in Hok, Hfail. split.
  - intros (idx & Hv & Hle). apply Hfail. exists idx. split; [exact Hv|].
    unfold eta1. cbn [tmap data]. lra.
  - intros Hall. destruct Hok as (t & Ht & _).
    + intros idx Hv. unfold eta1. cbn [tmap data]. specialize (Hall idx Hv). lra.
    + eauto.
Qed.

End Derived.

(** ** Positivity: chi-squared degrees of freedom, definite draws *)

Lemma rsum_square_zero n (f : nat -> R) :
  rsum n (fun k => f k * f k) = 0 -> forall k, (k < n)%nat -> f k = 0.
Proof.
  induction n as [|n IH]; intros Hz k Hk; [lia|].
  cbn [rsum] in Hz.
  assert (H1 := rsum_square_nonneg n f).
  assert (H2 : 0 <= f n * f n) by nra.
  assert (Hn : f n * f n = 0) by lra.
  assert (Hr : rsum n (fun k => f k * f k) = 0) by lra.
  destruct (Nat.eq_dec k n) as [-> | Hne]; [nra|].
  apply IH; [exact Hr | lia].
Qed.

Lemma lower_mmul n (A B : matrix) :
  lower_triangular n A -> lower_triangular n B ->
  lower_triangular n (mmul n A B).
Proof.
  intros HA HB i j Hij. unfold mmul. apply rsum_zero. intros k Hk.
  destruct (Nat.le_gt_cases k i) as [Hki | Hki].
  - rewrite (HB k j) by lia. ring.
  - rewrite (HA i k) by lia. ring.
Qed.

Lemma lower_mmul_diag n (A B : matrix) i :
  lower_triangular n A -> lower_triangular n B -> (i < n)%nat ->
  mmul n A B i i = A i i * B i i.
Proof.
  intros HA HB Hi. unfold mmul.
  rewrite (rsum_ext n _ (fun k => if Nat.eqb k i then A i i * B i i else 0)).
  - now apply rsum_delta.
  - intros k Hk. destruct (Nat.eqb_spec k i) as [-> | Hne]; [reflexivity|].
    destruct (Nat.lt_ge_cases k i) as [Hki | Hki].
    + rewrite (HB k i) by lia. ring.
    + rewrite (HA i k) by lia. ring.
Qed.

(** A Gram matrix [C * C^T] with [C] triangular and of non-zero diagonal
    is positive definite. *)
Lemma gram_positive_definite n (C : matrix) (x : nat -> R) :
  lower_triangular n C -> nonzero_diag n C ->
  (exists i, (i < n)%nat /\ x i <> 0) ->
  0 < rsum n (fun i => rsum n (fun j => x i * mmul n C (transpose C) i j * x j)).
Proof.
  intros Hlow Hnz (i & Hi & Hxi). rewrite quadratic_form_gram.
  set (S := fun k => rsum n (fun a => x a * C a k)).
  change (0 < rsum n (fun k => S k * S k)).
  assert (Hpos := rsum_square_nonneg n S).
  destruct (Req_dec (rsum n (fun k => S k * S k)) 0) as [Hz | Hnzs]; [|lra].
  exfalso. apply Hxi.
  assert (HS := rsum_square_zero n S Hz).
  assert (Heq : forall k, (k < n)%nat ->
            mmul n (transpose C) (fun a _ => x a) k 0%nat
            = mmul n (transpose C) (fun _ _ => 0) k 0%nat).
  { intros k Hk. unfold mmul, transpose.
    rewrite (rsum_zero n (fun m => C m k * 0)) by (intros; ring).
    rewrite <- (HS k Hk). unfold S. apply rsum_ext. intros m _. ring. }
  exact (upper_cancel n (transpose C) (fun a _ => x a) (fun _ _ => 0) 0%nat
           (transpose_lower_upper n C Hlow) (transpose_nonzero_diag n C Hnz)
           Heq i Hi).
Qed.

Section Positivity.
Context `{Numerics} `{RandomSource}.

(** X23. Every degree of freedom of the chi-squared distribution that the
    constructor builds is positive, and so is every one that [expand]
    rebuilds: [df - i > 0] for each slot [i < p], because [df > p - 1]. *)
Theorem chi2_df_positive self :
  constructed self ->
  (forall idx, valid_index (shape (_dist_chi2 self)) idx ->
               0 < data (_dist_chi2 self) idx)
  /\
  (forall batch_shape w new w',
     Wishart_expand self batch_shape w = (Ok new, w') ->
     forall idx, valid_index (shape (_dist_chi2 new)) idx ->
                 0 < data (_dist_chi2 new) idx).
Proof.
  intros Hc.
  destruct (constructed_facts self Hc)
    as (bL & n & _ & _ & _ & Hedf & Hbound & Hshape & Hdata).
  assert (Hslot : forall b i, valid_index (shape (df self)) b ->
            (i < event_dim self)%nat -> 0 < data (df self) b - INR i).
  { intros b i Hb Hi. specialize (Hbound b Hb).
    assert (INR i + 1 <= INR (event_dim self)); [|lra].
    rewrite <- S_INR. apply le_INR. lia. }
  split.
  - intros idx Hv. rewrite Hshape in Hv.
    apply valid_index_app1 in Hv as (b & i & -> & Hb & Hi).
    rewrite (Hdata b i Hi). apply Hslot; [|exact Hi].
    now apply (bindex_valid_expand _ (_batch_shape self)).
  - intros batch_shape w new w' Hnew.
    assert (Hexp := Wishart_expand_inv self batch_shape w new w' Hc Hnew).
    destruct (Wishart_expand_spec self batch_shape w
                (constructed_well_shaped self Hc) Hexp) as (dfs & Hdfs & Heq).
    rewrite Heq in Hnew. injection Hnew as <- _. cbn [_dist_chi2].
    destruct (chi2_df_ok (expand (df self) batch_shape) batch_shape (event_dim self))
      as (dfs' & Hdfs' & Hshape' & Hdata'); [now right|].
    rewrite Hdfs in Hdfs'. injection Hdfs' as <-.
    intros idx Hv. rewrite Hshape' in Hv.
    apply valid_index_app1 in Hv as (b & i & -> & Hb & Hi).
    rewrite (Hdata' b i Hi). cbn [expand shape data].
    rewrite (bindex_valid _ b Hb). apply Hslot; [|exact Hi].
    apply (bindex_valid_expand _ batch_shape); [|exact Hb].
    exact (expandable_trans _ _ _ Hedf Hexp).
Qed.

(** X24. A draw is singular only through a chi-squared variate that is
    zero: when the scale factor is triangular with non-zero diagonal and
    the source yields positive chi-squared variates, every matrix drawn by
    [_bartlett_sampling] is positive definite. *)
Theorem bartlett_draw_positive_definite self sample_shape w :
  constructed self ->
  _event_shape self = [event_dim self; event_dim self] ->
  let p := event_dim self in
  let L := _unbroadcasted_scale_tril self in
  (forall b, valid_index (batch_of (shape L)) b ->
             lower_triangular p (mat_at L b) /\ nonzero_diag p (mat_at L b)) ->
  (forall d g, 0 < fst (chi2_variate d g)) ->
  exists sample w',
    _bartlett_sampling self sample_shape w = (Ok sample, w')
    /\ forall c, valid_index (sample_shape ++ _batch_shape self) c ->
         forall x : nat -> R,
           (exists i, (i < p)%nat /\ x i <> 0) ->
           0 < rsum p (fun i => rsum p (fun j => x i * mat_at sample c i j * x j)).
Proof.
  intros Hc Hsq p L Htri Hchipos.
  destruct (constructed_facts self Hc)
    as (bL & n & HL & Hev & HbL & _ & _ & Hsdfs & _).
  rewrite Hsq in Hev. injection Hev as <-. fold p in HL, Hsdfs. fold L in HL.
  destruct (draw_tensor
              (fun idx => chi2_variate
                            (data (_dist_chi2 self)
                                  (bindex (shape (_dist_chi2 self)) idx)))
              (sample_shape ++ shape (_dist_chi2 self)) (generator w))
    as [chi g1] eqn:Hchi.
  destruct (draw_tensor (fun _ => randn1)
              (sample_shape ++ _batch_shape self ++ [(p * (p - 1) / 2)%nat]) g1)
    as [normals g2] eqn:Hnorm.
  destruct (bartlett_sampling_spec self sample_shape w bL p chi g1 normals g2
              HL HbL Hsdfs Hchi Hnorm) as (sample & Hsample & _ & Hentry).
  apply draw_tensor_entry in Hchi as [Hschi Hdchi]. rewrite Hsdfs in Hschi, Hdchi.
  exists sample. eexists. split; [exact Hsample|].
  intros c Hv x Hx. specialize (Hentry c Hv). cbv zeta in Hentry. fold p L in Hentry.
  set (A := mat_at (index_put_last2 (diag_embed (tmap sqrt chi))
                                    (tril_indices p) normals) c) in *.
  destruct (noise_entries chi normals p c) as (Hdiag & _ & Hup).
  fold A in Hdiag, Hup.
  destruct (Htri (bindex bL c)) as [Hlow Hnz].
  { rewrite HL, batch_of_app2.
    apply (bindex_valid_expand bL (sample_shape ++ _batch_shape self));
      [now apply expandable_app_pre | exact Hv]. }
  assert (HlowA : lower_triangular p A) by (intros i j Hij; apply Hup; lia).
  assert (HnzA : nonzero_diag p A).
  { intros i Hi. rewrite Hdiag.
    destruct (Hdchi (c ++ [i])) as (ga & gb & Hdraw).
    { rewrite app_assoc. apply Forall2_app; [exact Hv | now repeat constructor]. }
    match type of Hdraw with chi2_variate ?d _ = _ =>
      assert (Hpos := Hchipos d ga)
    end.
    rewrite Hdraw in Hpos. cbn [fst] in Hpos.
    apply Rgt_not_eq. now apply sqrt_lt_R0. }
  rewrite (rsum_ext p _ (fun i => rsum p (fun j =>
             x i * mmul p (mmul p (mat_at L (bindex bL c)) A)
                          (transpose (mmul p (mat_at L (bindex bL c)) A)) i j
             * x j))).
  - apply gram_positive_definite; [now apply lower_mmul | | exact Hx].
    intros i Hi. rewrite lower_mmul_diag by assumption.
    apply Rmult_integral_contrapositive_currified; [now apply Hnz | now apply HnzA].
  - intros i _. apply rsum_ext. intros j _. now rewrite Hentry.
Qed.

End Positivity.

(** ** Instances of the statements above *)

Lemma accessor_returns_argument_witness :
  scale_tril_of wishart_1x1 = expand (torch_eye 1) [1; 1]%nat.
Proof.
  exact (proj1 (@accessor_returns_argument example_numerics replay
                  (DfNumber 1) None None (Some (torch_eye 1)) (Some false)
                  (fresh_world []) wishart_1x1 (fresh_world [])
                  (wishart_1x1_init []))
               (torch_eye 1) eq_refl).
Defined.

Lemma fold_cholesky_step_None A l : fold_left (cholesky_step A) l None = None.
Proof. induction l as [|ij l IH]; [reflexivity | exact IH]. Qed.

Lemma cholesky_factor_nonpositive n (M : matrix) :
  M 0%nat 0%nat <= 0 -> cholesky_factor (S n) M = None.
Proof.
  intros Hle. unfold cholesky_factor, lower_positions.
  cbn [seq flat_map map app fold_left].
  unfold cholesky_step at 2, cholesky_entry. cbn [fst snd Nat.eqb rsum].
  rewrite bool_decide_eq_false_2 by lra. apply fold_cholesky_step_None.
Qed.

Lemma failed_init_overwrites_constraint_witness :
  exists e w',
    @Wishart_init example_numerics replay (DfNumber 2) (Some cov_negative)
                  None None (Some false) (fresh_world [])
    = (Raise e, w')
    /\ arg_constraints (fresh_world []) !! "df" = Some (greater_than 0)
    /\ arg_constraints w' !! "df" = Some (greater_than 1).
Proof.
  destruct (@Wishart_init example_numerics replay (DfNumber 2) (Some cov_negative)
              None None (Some false) (fresh_world [])) as [[self|e] w'] eqn:Hinit.
  - exfalso.
    apply Wishart_init_inv in Hinit
      as (param & _ & _ & _ & _ & _ & _ & _ & HL & _).
    cbn [resolve_scale_tril] in HL.
    apply lift_factor_inv in HL as (_ & _ & HF).
    destruct (HF []) as (F & HF' & _); [constructor|].
    cbn [linalg_cholesky example_numerics shape cov_negative] in HF'.
    change (col_of [2; 2]%nat) with 2%nat in HF'.
    rewrite cholesky_factor_nonpositive in HF'; [discriminate|].
    unfold mat_at, cov_negative. cbn. lra.
  - exists e, w'. split; [reflexivity|]. split; [reflexivity|].
    destruct (@failed_init_overwrites_constraint example_numerics replay
                (DfNumber 2) (Some cov_negative) None None (Some false)
                (fresh_world []) cov_negative [] (scalar 2) e w')
      as [Hac _];
      [reflexivity | reflexivity | cbn; lia | reflexivity
       | intros idx _; cbn; lra | exact Hinit |].
    rewrite Hac. reflexivity.
Defined.

Lemma init_batch_shape_witness :
  @Wishart_init example_numerics replay (DfTensor df_example) None None
                (Some eye_batch) (Some false) (fresh_world [])
  = (Raise RuntimeError, fresh_world []).
Proof.
  apply (@init_batch_shape example_numerics replay df_example None None
           (Some eye_batch) (Some false) (fresh_world []) eye_batch);
    [reflexivity | reflexivity | cbn; lia |].
  intros s [H1 H2].
  destruct (broadcast_shapes_lub _ _ _ H1 H2) as (s' & Hs' & _).
  discriminate Hs'.
Defined.

Lemma bartlett_draw_psd_witness :
  exists sample w',
    @_bartlett_sampling replay wishart_1x1 [] (fresh_world [4]) = (Ok sample, w')
    /\ 0 <= mat_at sample [] 0%nat 0%nat.
Proof.
  destruct (@bartlett_draw_psd example_numerics replay wishart_1x1 []
              (fresh_world [4]) wishart_1x1_constructed)
    as (n & sample & w' & _ & Hs & _ & Hpsd).
  exists sample, w'. split; [exact Hs|].
  destruct (Hpsd []) as [Hdiag _]; [constructor|]. apply Hdiag.
Defined.

Lemma rsample_eager_frame_witness :
  exists s0 w1 s w',
    @_bartlett_sampling replay wishart_1x1 [2%nat] (fresh_world [1; 4; 9; 16])
    = (Ok s0, w1)
    /\ @rsample example_numerics replay wishart_1x1 [2%nat] None
                (fresh_world [1; 4; 9; 16]) = (Ok s, w')
    /\ shape s = shape s0.
Proof.
  destruct (@rsample_eager_frame example_numerics replay wishart_1x1 [2%nat] None
              (fresh_world [1; 4; 9; 16]) wishart_1x1_constructed eq_refl)
    as (n & s0 & w1 & s & w' & _ & Hs0 & Hs & _ & Hshape & _).
  now exists s0, w1, s, w'.
Defined.

Lemma rsample_traced_draws_witness :
  exists s w',
    @rsample example_numerics replay wishart_1x1 [] None
             (traced_world [1; 4; 9; 16]) = (Ok s, w')
    /\ sampling_log w' = [[]; []; []; []].
Proof.
  destruct (@bartlett_sampling_ok example_numerics replay wishart_1x1 []
              (traced_world [1; 4; 9; 16]) wishart_1x1_constructed)
    as (bL & n & s0 & w1 & _ & Hev & _ & Hs0 & Hshape0 & _).
  injection Hev as <-.
  destruct (@correct_traced_ok example_numerics replay wishart_1x1 []
              1%nat wishart_1x1_constructed eq_refl eq_refl 3%nat s0
              (@reduce_batch wishart_1x1 (@support_check example_numerics s0)) w1)
    as (s & w' & Hs & _).
  { exact Hshape0. }
  { cbn [reduce_batch wishart_1x1 _batch_shape support_check lift_check shape].
    now rewrite Hshape0. }
  assert (Hr : @rsample example_numerics replay wishart_1x1 [] None
                 (traced_world [1; 4; 9; 16]) = (Ok s, w')).
  { unfold rsample, mbind, M_bind, get_world. rewrite Hs0. exact Hs. }
  exists s, w'. split; [exact Hr|].
  now destruct (@rsample_traced_draws example_numerics replay wishart_1x1 [] None
                  (traced_world [1; 4; 9; 16]) s w' eq_refl Hr) as [-> _].
Defined.

Lemma rsample_traced_broadcast_witness :
  exists self,
    @constructed example_numerics replay self
    /\ _event_shape self = [2; 2]%nat
    /\ fst (@rsample example_numerics replay self [3%nat] None (traced_world []))
       = Raise RuntimeError.
Proof.
  destruct (@init_scale_tril_number example_numerics replay 2 (torch_eye 2)
              (fresh_world [])) as (self & Hinit & _ & Hbs & Hev & _);
    [cbn; lia | cbn; lra |].
  assert (Hc : @constructed example_numerics replay self)
    by (repeat eexists; exact Hinit).
  assert (Hp : event_dim self = 2%nat) by (unfold event_dim; now rewrite Hev).
  exists self. split; [exact Hc|]. split; [exact Hev|].
  apply (@rsample_traced_broadcast example_numerics replay self [3%nat] None
           (traced_world []) Hc);
    [now rewrite Hp | reflexivity | reflexivity |].
  now rewrite Hbs, Hev.
Defined.

Lemma expand_succeeds_iff_witness :
  exists new,
    @Wishart_expand example_numerics replay wishart_1x1 [3%nat] (fresh_world [])
    = (Ok new, fresh_world [])
    /\ _batch_shape new = [3%nat]
    /\ shape (df new) = [3%nat].
Proof.
  destruct (proj1 (@expand_succeeds_iff example_numerics replay wishart_1x1 [3%nat]
                     (fresh_world []) wishart_1x1_constructed)
                  (expandable_nil _))
    as (new & Hnew & Hbs & _ & _ & Hdf & _).
  now exists new.
Defined.

Lemma wishart_1x1_expand w :
  exists new,
    @Wishart_expand example_numerics replay wishart_1x1 [3%nat] w = (Ok new, w).
Proof.
  destruct (@Wishart_expand_spec example_numerics replay wishart_1x1 [3%nat] w
              (constructed_well_shaped _ wishart_1x1_constructed)
              (expandable_nil _)) as (dfs & _ & Heq).
  eauto.
Qed.

Lemma expand_chi2_df_witness :
  exists new w',
    @Wishart_expand example_numerics replay wishart_1x1 [3%nat] (fresh_world [])
    = (Ok new, w')
    /\ shape (_dist_chi2 new) = [3; 1]%nat
    /\ data (_dist_chi2 new) [2; 0]%nat = 1 - 0.
Proof.
  destruct (wishart_1x1_expand (fresh_world [])) as (new & Hnew).
  destruct (@expand_chi2_df example_numerics replay wishart_1x1 [3%nat]
              (fresh_world []) new _ wishart_1x1_constructed Hnew)
    as (Hshape & Hdata).
  exists new. eexists. split; [exact Hnew|]. split; [exact Hshape|].
  destruct (Hdata [2%nat] 0%nat) as [Hd _];
    [repeat constructor | cbn; lia | exact Hd].
Defined.

Lemma expand_covariance_witness :
  exists new w' V V',
    @Wishart_expand example_numerics replay wishart_1x1 [3%nat] (fresh_world [])
    = (Ok new, w')
    /\ covariance_matrix_of wishart_1x1 = Ok V
    /\ covariance_matrix_of new = Ok V'
    /\ mat_at V' [2%nat] 0%nat 0%nat = mat_at V [] 0%nat 0%nat.
Proof.
  destruct (wishart_1x1_expand (fresh_world [])) as (new & Hnew).
  destruct (@expand_covariance example_numerics replay wishart_1x1 [3%nat]
              (fresh_world []) new _ wishart_1x1_constructed eq_refl Hnew)
    as (V & V' & HV & HV' & _ & Hd).
  exists new. eexists. exists V, V'. split; [exact Hnew|].
  split; [exact HV|]. split; [exact HV'|].
  apply (Hd [2%nat] 0%nat 0%nat). repeat constructor.
Defined.

Lemma expand_expand_witness :
  exists n1 n12 n2,
    @Wishart_expand example_numerics replay wishart_1x1 [3%nat] (fresh_world [])
    = (Ok n1, fresh_world [])
    /\ @Wishart_expand example_numerics replay n1 [2; 3]%nat (fresh_world [])
       = (Ok n12, fresh_world [])
    /\ @Wishart_expand example_numerics replay wishart_1x1 [2; 3]%nat
                       (fresh_world [])
       = (Ok n2, fresh_world [])
    /\ data (df n12) [1; 2]%nat = data (df n2) [1; 2]%nat.
Proof.
  destruct (@expand_expand example_numerics replay wishart_1x1 [3%nat] [2; 3]%nat
              (fresh_world []) wishart_1x1_constructed)
    as (n1 & n12 & n2 & H1 & H12 & H2 & _ & _ & _ & _ & Hdf & _).
  { apply expandable_nil. }
  { unfold expandable. cbn. auto. }
  exists n1, n12, n2. repeat (split; [assumption|]).
  apply Hdf. repeat constructor.
Defined.

Lemma expand_entropy_witness :
  exists new w' t t',
    @Wishart_expand example_numerics replay wishart_1x1 [3%nat] (fresh_world [])
    = (Ok new, w')
    /\ @entropy example_numerics wishart_1x1 = Ok t
    /\ @entropy example_numerics new = Ok t'
    /\ data (expand t' [3%nat]) [2%nat] = data (expand t [3%nat]) [2%nat].
Proof.
  destruct (wishart_1x1_expand (fresh_world [])) as (new & Hnew).
  destruct (@expand_entropy example_numerics replay wishart_1x1 [3%nat]
              (fresh_world []) new _ wishart_1x1_constructed eq_refl Hnew)
    as (t & t' & Ht & Ht' & _ & _ & Hd).
  exists new. eexists. exists t, t'. split; [exact Hnew|].
  split; [exact Ht|]. split; [exact Ht'|].
  apply Hd. repeat constructor.
Defined.

Lemma derived_matrices_symmetric_witness :
  exists C X,
    covariance_matrix_of wishart_1x1 = Ok C
    /\ precision_matrix_of wishart_1x1 = Ok X
    /\ 0 <= mat_at C [] 0%nat 0%nat.
Proof.
  destruct (@derived_matrices_symmetric example_numerics replay wishart_1x1
              wishart_1x1_constructed eq_refl)
    as (C & X & HC & HX & Hd); try reflexivity.
  { intros b _. apply torch_eye_triangular. }
  exists C, X. split; [exact HC|]. split; [exact HX|].
  destruct (Hd [] 0%nat 0%nat) as (_ & Hpos & _);
    [constructor | cbn; lia | cbn; lia | exact Hpos].
Defined.

Lemma log_normalizer_at_natural_params_witness :
  exists X,
    precision_matrix_of wishart_1x1 = Ok X
    /\ @_log_normalizer example_numerics
         (tmap (fun v => (v - 1 - 1) / 2) (scalar 1))
         (tmap (fun v => - v / 2) X)
       = Raise AssertionError.
Proof.
  destruct (@log_normalizer_at_natural_params example_numerics replay wishart_1x1
              wishart_1x1_constructed eq_refl) as (X & HX & Hfail & _).
  exists X. split; [exact HX|]. apply Hfail.
  exists []. split; [constructor | cbn; lra].
Defined.

Lemma expand_log_prob_witness :
  exists new w' t t',
    @Wishart_expand example_numerics replay wishart_1x1 [3%nat] (fresh_world [])
    = (Ok new, w')
    /\ @log_prob example_numerics wishart_1x1 (torch_eye 1) = Ok t
    /\ @log_prob example_numerics new (torch_eye 1) = Ok t'
    /\ data (expand t' [3%nat]) [0%nat] = data (expand t [3%nat]) [0%nat].
Proof.
  destruct (wishart_1x1_expand (fresh_world [])) as (new & Hnew).
  destruct (@expand_log_prob example_numerics replay wishart_1x1 [3%nat]
              (fresh_world []) new (fresh_world []) (torch_eye 1) [] [3%nat]
              wishart_1x1_constructed eq_refl)
    as (t & t' & Ht & Ht' & _ & _ & Hd);
    [intros b _; apply torch_eye_triangular | exact Hnew | reflexivity
     | reflexivity | discriminate |].
  exists new. eexists. exists t, t'. split; [exact Hnew|].
  split; [exact Ht|]. split; [exact Ht'|].
  apply Hd. repeat constructor.
Defined.

Lemma chi2_df_positive_witness : 0 < data (_dist_chi2 wishart_1x1) [0%nat].
Proof.
  apply (proj1 (@chi2_df_positive example_numerics replay wishart_1x1
                  wishart_1x1_constructed)).
  repeat constructor.
Defined.

Lemma bartlett_draw_positive_definite_witness :
  exists self sample w',
    @constructed example_numerics ones_source self
    /\ event_dim self = 2%nat
    /\ @_bartlett_sampling ones_source self [] ones_world = (Ok sample, w')
    /\ 0 < rsum 2 (fun i => rsum 2 (fun j => 1 * mat_at sample [] i j * 1)).
Proof.
  destruct (@init_scale_tril_number example_numerics ones_source 2 (torch_eye 2)
              ones_world) as (self & Hinit & _ & Hbs & Hev & _ & HL & _);
    [cbn; lia | cbn; lra |].
  assert (Hc : @constructed example_numerics ones_source self)
    by (repeat eexists; exact Hinit).
  assert (Hp : event_dim self = 2%nat) by (unfold event_dim; now rewrite Hev).
  destruct (@bartlett_draw_positive_definite example_numerics ones_source self []
              ones_world Hc) as (sample & w' & Hs & Hpd).
  - now rewrite Hp.
  - intros b _. rewrite HL, Hp. apply torch_eye_triangular.
  - intros d g. cbn. lra.
  - exists self, sample, w'. split; [exact Hc|]. split; [exact Hp|].
    split; [exact Hs|]. rewrite <- Hp.
    apply (Hpd [] (ltac:(rewrite Hbs; constructor)) (fun _ => 1)).
    exists 0%nat. split; [rewrite Hp; lia | lra].
Defined.

Lemma eye_batch_constructed :
  exists self,
    @constructed example_numerics replay self
    /\ _batch_shape self = [3%nat]
    /\ _event_shape self = [2; 2]%nat
    /\ df self = scalar 2.
Proof.
  destruct (@init_scale_tril_number example_numerics replay 2 eye_batch
              (fresh_world [])) as (self & Hinit & Hdf & Hbs & Hev & _);
    [cbn; lia | cbn; lra |].
  exists self. split; [repeat eexists; exact Hinit|]. now repeat split.
Qed.

Lemma reduce_batch_any_witness :
  exists self,
    @constructed example_numerics replay self
    /\ shape (reduce_batch self mask_example) = [2%nat]
    /\ data (reduce_batch self mask_example) [1%nat] = true.
Proof.
  destruct eye_batch_constructed as (self & Hc & Hbs & _).
  destruct (@reduce_batch_any example_numerics replay self mask_example [2%nat] Hc)
    as [Hshape Hdata]; [now rewrite Hbs|].
  exists self. split; [exact Hc|]. split; [exact Hshape|].
  apply Hdata; [reflexivity|]. exists [2%nat]. rewrite Hbs.
  split; [repeat constructor | reflexivity].
Defined.


